(** * Othello: rules engine (js/game.js) and minimax search (js/ai.js)

    A shallow embedding of the [OthelloGame] and [OthelloAI] classes.

    - Numbers that index the board are [Z]; the board is an array of
      arrays, here a [list (list Cell)] read with stdpp's list lookup.
    - Every read or write of a cell that falls outside the stored grid is a
      fault of the run ([None]); so is the exhaustion of the fuel that
      bounds a [while] loop or the recursion of [minimax].  A result
      [Some v] therefore says that the run stayed inside the grid and
      returned [v].  The one read the code makes before any bounds test,
      the first line of [isValidMove], is modelled as JavaScript answers
      it: [undefined] past the ends of a row, a fault where there is no
      row.
    - The game object is first embedded by value ([OthelloGame], one
      record per object); the section [Heap] at the end places the objects
      and their arrays in a store, with in-place writes, to account for
      sharing between an object and its clone.
    - The controller [OthelloApp] (main.js) is a step function on the
      state of the application, one step per event, and the disc map of
      the renderer (js/renderer.js) is a finite map; both come after the
      definitions used to state the properties of the engine. *)

From Stdlib Require Import ZArith Lia Bool.
From stdpp Require Import base option list gmap.

Local Open Scope Z_scope.

(** ** Data model *)

(** [BLACK = 1], [WHITE = 2]: the two values a player can take. *)
Inductive Player := BLACK | WHITE.

(** A board cell: [EMPTY = 0] or a disc of one of the players. *)
Inductive Cell := EMPTY | Disc (p : Player).

#[global] Instance Player_eq_dec : EqDecision Player.
Proof. solve_decision. Defined.

#[global] Instance Cell_eq_dec : EqDecision Cell.
Proof. solve_decision. Defined.

(** [player === BLACK ? WHITE : BLACK] *)
Definition opponentOf (player : Player) : Player :=
  match player with BLACK => WHITE | WHITE => BLACK end.

(** The object literal [{ row, col }]. *)
Record Move := mkMove { row : Z; col : Z }.

#[global] Instance Move_eq_dec : EqDecision Move.
Proof. solve_decision. Defined.

(** An entry of [moveHistory]: [{ row, col, player, flipped }]. *)
Record HistoryEntry := mkEntry {
  h_row : Z; h_col : Z; h_player : Player; h_flipped : list Move
}.

Abbreviation Board := (list (list Cell)).

(** The fields of an [OthelloGame] object. [winner = None] is [null]. *)
Record OthelloGame := mkGame {
  board : Board;
  currentPlayer : Player;
  gameOver : bool;
  winner : option Player;
  lastMove : option Move;
  flippedDiscs : list Move;
  validMoves : list Move;
  moveHistory : list HistoryEntry
}.

(** ** Board access *)

(** [r >= 0 && r < 8 && c >= 0 && c < 8] *)
Definition inBounds (r c : Z) : bool :=
  (0 <=? r) && (r <? 8) && (0 <=? c) && (c <? 8).

(** [board[r][c]] where the code has tested the bounds or uses indices of
    the grid; [None] when the index leaves the stored arrays. *)
Definition getCell (b : Board) (r c : Z) : option Cell :=
  if (0 <=? r) && (0 <=? c)
  then cells ← b !! Z.to_nat r; cells !! Z.to_nat c
  else None.

(** [board[r][c] = v], in place; [None] when the cell does not exist. *)
Definition setCell (b : Board) (r c : Z) (v : Cell) : option Board :=
  if (0 <=? r) && (0 <=? c)
  then cells ← b !! Z.to_nat r;
       if decide (Z.to_nat c < length cells)%nat
       then Some (<[Z.to_nat r := <[Z.to_nat c := v]> cells]> b)
       else None
  else None.

(** The shape produced by [init]: eight rows of eight cells. *)
Definition wfBoard (b : Board) : Prop :=
  length b = 8%nat ∧ Forall (λ cells, length cells = 8%nat) b.

Definition wfBoardb (b : Board) : bool :=
  bool_decide (length b = 8%nat) && forallb (λ cells, bool_decide (length cells = 8%nat)) b.

(** The [directions] table shared by [isValidMove] and [getFlippedDiscs]. *)
Definition directions : list (Z * Z) :=
  [(-1, -1); (-1, 0); (-1, 1);
   (0, -1);           (0, 1);
   (1, -1);  (1, 0);  (1, 1)].

(** Fuel of the directional [while] loops: a line of the grid has at most
    eight cells, and one more turn of the loop sees the exit test. *)
Definition walkFuel : nat := 9.

(** The pairs [(row, col)] met by [for row in 0..7 { for col in 0..7 }]. *)
Definition allCells : list (Z * Z) :=
  r ← seqZ 0 8; c ← seqZ 0 8; [(r, c)].

(** ** isValidMove *)

(** The [while] loop of [isValidMove]: advance over the opponent's discs;
    the result is [(foundOpponent, r, c)] at loop exit. *)
Fixpoint walkFound (fuel : nat) (b : Board) (opponent : Player)
    (dr dc r c : Z) (foundOpponent : bool) : option (bool * Z * Z) :=
  match fuel with
  | O => None
  | S fuel' =>
      if inBounds r c then
        x ← getCell b r c;
        if decide (x = Disc opponent)
        then walkFound fuel' b opponent dr dc (r + dr) (c + dc) true
        else Some (foundOpponent, r, c)
      else Some (foundOpponent, r, c)
  end.

(** [r >= 0 && r < 8 && c >= 0 && c < 8 && board[r][c] === player] *)
Definition closedBy (b : Board) (player : Player) (r c : Z) : option bool :=
  if inBounds r c
  then x ← getCell b r c; Some (bool_decide (x = Disc player))
  else Some false.

(** The [for] loop over the directions, with its early [return true]. *)
Fixpoint validInSome (b : Board) (player : Player) (row col : Z)
    (dirs : list (Z * Z)) : option bool :=
  match dirs with
  | [] => Some false
  | (dr, dc) :: dirs' =>
      '(foundOpponent, r, c) ←
        walkFound walkFuel b (opponentOf player) dr dc (row + dr) (col + dc) false;
      closed ← (if (foundOpponent : bool) then closedBy b player r c else Some false);
      if (closed : bool) then Some true else validInSome b player row col dirs'
  end.

(** [this.board[row][col]] as the first line of [isValidMove] reads it.
    The read is a fault only when the row array does not exist; past
    either end of an existing row it gives [undefined], here [None], and
    [undefined !== EMPTY] holds. *)
Definition readCell (b : Board) (r c : Z) : option (option Cell) :=
  if 0 <=? r
  then cells ← b !! Z.to_nat r; Some (if 0 <=? c then cells !! Z.to_nat c else None)
  else None.

Definition isValidMove (b : Board) (row col : Z) (player : Player) : option bool :=
  x ← readCell b row col;
  if decide (x ≠ Some EMPTY) then Some false
  else validInSome b player row col directions.

(** ** getFlippedDiscs *)

(** The [while] loop of [getFlippedDiscs]; [line] grows by [push]. *)
Fixpoint walkLine (fuel : nat) (b : Board) (opponent : Player)
    (dr dc r c : Z) (line : list Move) : option (list Move * Z * Z) :=
  match fuel with
  | O => None
  | S fuel' =>
      if inBounds r c then
        x ← getCell b r c;
        if decide (x = Disc opponent)
        then walkLine fuel' b opponent dr dc (r + dr) (c + dc) (line ++ [mkMove r c])
        else Some (line, r, c)
      else Some (line, r, c)
  end.

(** The [for] loop over the directions; [flipped.push(...line)]. *)
Fixpoint flipLoop (b : Board) (player : Player) (row col : Z)
    (dirs : list (Z * Z)) (flipped : list Move) : option (list Move) :=
  match dirs with
  | [] => Some flipped
  | (dr, dc) :: dirs' =>
      '(line, r, c) ←
        walkLine walkFuel b (opponentOf player) dr dc (row + dr) (col + dc) [];
      closed ← (if bool_decide (0 < length line)%nat then closedBy b player r c else Some false);
      flipLoop b player row col dirs' (if (closed : bool) then flipped ++ line else flipped)
  end.

Definition getFlippedDiscs (b : Board) (row col : Z) (player : Player) : option (list Move) :=
  flipLoop b player row col directions [].

(** ** findValidMoves, getScore *)

Fixpoint scanMoves (b : Board) (player : Player) (cells : list (Z * Z))
    (moves : list Move) : option (list Move) :=
  match cells with
  | [] => Some moves
  | (r, c) :: cells' =>
      v ← isValidMove b r c player;
      scanMoves b player cells' (if (v : bool) then moves ++ [mkMove r c] else moves)
  end.

Definition findValidMoves (b : Board) (player : Player) : option (list Move) :=
  scanMoves b player allCells [].

(** The double loop of [getScore]; the result is [(black, white)]. *)
Fixpoint scoreLoop (b : Board) (cells : list (Z * Z)) (black white : Z) : option (Z * Z) :=
  match cells with
  | [] => Some (black, white)
  | (r, c) :: cells' =>
      x ← getCell b r c;
      if decide (x = Disc BLACK) then scoreLoop b cells' (black + 1) white
      else if decide (x = Disc WHITE) then scoreLoop b cells' black (white + 1)
      else scoreLoop b cells' black white
  end.

Definition getScore (b : Board) : option (Z * Z) :=
  scoreLoop b allCells 0 0.

(** ** init, makeMove, determineWinner, clone *)

Definition emptyBoard : Board := replicate 8 (replicate 8 EMPTY).

Definition initBoard : option Board :=
  b ← setCell emptyBoard 3 3 (Disc WHITE);
  b ← setCell b 3 4 (Disc BLACK);
  b ← setCell b 4 3 (Disc BLACK);
  setCell b 4 4 (Disc WHITE).

(** The constructor followed by [init]. *)
Definition newGame : option OthelloGame :=
  b ← initBoard;
  moves ← findValidMoves b BLACK;
  Some (mkGame b BLACK false None None [] moves []).

(** [determineWinner]: the value assigned to [this.winner]. *)
Definition determineWinner (b : Board) : option (option Player) :=
  '(black, white) ← getScore b;
  if black >? white then Some (Some BLACK)
  else if white >? black then Some (Some WHITE)
  else Some None.

(** [for (const disc of flipped) board[disc.row][disc.col] = player] *)
Fixpoint flipAll (b : Board) (player : Player) (flipped : list Move) : option Board :=
  match flipped with
  | [] => Some b
  | disc :: rest =>
      b' ← setCell b (row disc) (col disc) (Disc player);
      flipAll b' player rest
  end.

(** [makeMove(row, col)]: the returned boolean and the object afterwards. *)
Definition makeMove (g : OthelloGame) (row col : Z) : option (bool * OthelloGame) :=
  if gameOver g then Some (false, g) else
  legal ← isValidMove (board g) row col (currentPlayer g);
  if negb legal then Some (false, g) else
  flipped ← getFlippedDiscs (board g) row col (currentPlayer g);
  b ← setCell (board g) row col (Disc (currentPlayer g));
  b ← flipAll b (currentPlayer g) flipped;
  let history := moveHistory g ++ [mkEntry row col (currentPlayer g) flipped] in
  let g1 := mkGame b (currentPlayer g) (gameOver g) (winner g)
                   (Some (mkMove row col)) flipped (validMoves g) history in
  let opponent := opponentOf (currentPlayer g) in
  opponentMoves ← findValidMoves b opponent;
  if bool_decide (0 < length opponentMoves)%nat then
    Some (true, mkGame b opponent (gameOver g1) (winner g1)
                       (lastMove g1) (flippedDiscs g1) opponentMoves (moveHistory g1))
  else
    currentMoves ← findValidMoves b (currentPlayer g1);
    if bool_decide (0 < length currentMoves)%nat then
      Some (true, mkGame b (currentPlayer g1) (gameOver g1) (winner g1)
                         (lastMove g1) (flippedDiscs g1) currentMoves (moveHistory g1))
    else
      w ← determineWinner b;
      Some (true, mkGame b (currentPlayer g1) true w
                         (lastMove g1) (flippedDiscs g1) (validMoves g1) (moveHistory g1)).

(** [clone()], by value: a fresh object from the constructor whose
    [board], [currentPlayer], [gameOver], [winner] and [validMoves] are
    then overwritten with copies of the source's. *)
Definition clone (g : OthelloGame) : option OthelloGame :=
  copy ← newGame;
  Some (mkGame (map (λ cells, cells) (board g)) (currentPlayer g) (gameOver g) (winner g)
               (lastMove copy) (flippedDiscs copy) (validMoves g) (moveHistory copy)).

(** ** The search: js/ai.js *)

(** The numbers handled by the search: integers, [-Infinity], [Infinity]. *)
Inductive Num := NegInf | Fin (z : Z) | PosInf.

#[global] Instance Num_eq_dec : EqDecision Num.
Proof. solve_decision. Defined.

(** [x <= y] on numbers *)
Definition Num_leb (x y : Num) : bool :=
  match x, y with
  | NegInf, _ => true
  | _, PosInf => true
  | Fin a, Fin b => a <=? b
  | _, _ => false
  end.

(** [x > y] on numbers *)
Definition Num_gtb (x y : Num) : bool := negb (Num_leb x y).

(** [Math.max], [Math.min] *)
Definition Num_max (x y : Num) : Num := if Num_leb x y then y else x.
Definition Num_min (x y : Num) : Num := if Num_leb x y then x else y.

(** The fields of an [OthelloAI] object that change or configure a run;
    [positionWeights] is the constant table below. *)
Record OthelloAI := mkAI { depth : Z; nodesEvaluated : Z }.

Definition positionWeights : list (list Z) :=
  [[100; -20; 10;  5;  5; 10; -20; 100];
   [-20; -50; -2; -2; -2; -2; -50; -20];
   [ 10;  -2;  1;  1;  1;  1;  -2;  10];
   [  5;  -2;  1;  0;  0;  1;  -2;   5];
   [  5;  -2;  1;  0;  0;  1;  -2;   5];
   [ 10;  -2;  1;  1;  1;  1;  -2;  10];
   [-20; -50; -2; -2; -2; -2; -50; -20];
   [100; -20; 10;  5;  5; 10; -20; 100]].

(** [this.positionWeights[row][col]] *)
Definition weightAt (r c : Z) : option Z :=
  if (0 <=? r) && (0 <=? c)
  then ws ← positionWeights !! Z.to_nat r; ws !! Z.to_nat c
  else None.

(** The loop body shared by terms 2, 4 and 5 of [evaluate]:
    [if (board[row][col] === aiPlayer) x += w; else if (... === humanPlayer) x -= w]. *)
Definition addIfHeld (b : Board) (aiPlayer humanPlayer : Player) (r c : Z) (w x : Z) : option Z :=
  y ← getCell b r c;
  if decide (y = Disc aiPlayer) then Some (x + w)
  else if decide (y = Disc humanPlayer) then Some (x - w)
  else Some x.

(** Term 2: the double loop over the weight table. *)
Fixpoint positionLoop (b : Board) (aiPlayer humanPlayer : Player)
    (cells : list (Z * Z)) (evaluation : Z) : option Z :=
  match cells with
  | [] => Some evaluation
  | (r, c) :: cells' =>
      y ← getCell b r c;
      evaluation' ←
        (if decide (y = Disc aiPlayer) then w ← weightAt r c; Some (evaluation + w)
         else if decide (y = Disc humanPlayer) then w ← weightAt r c; Some (evaluation - w)
         else Some evaluation);
      positionLoop b aiPlayer humanPlayer cells' evaluation'
  end.

(** A loop [for (const [row, col] of cells)] adding or removing [w]. *)
Fixpoint heldLoop (b : Board) (aiPlayer humanPlayer : Player) (w : Z)
    (cells : list (Z * Z)) (x : Z) : option Z :=
  match cells with
  | [] => Some x
  | (r, c) :: cells' =>
      x' ← addIfHeld b aiPlayer humanPlayer r c w x;
      heldLoop b aiPlayer humanPlayer w cells' x'
  end.

Definition corners : list (Z * Z) := [(0, 0); (0, 7); (7, 0); (7, 7)].

Definition edges : list (list (Z * Z)) :=
  [ [(0, 0); (0, 1); (0, 2); (0, 3); (0, 4); (0, 5); (0, 6); (0, 7)];
    [(7, 0); (7, 1); (7, 2); (7, 3); (7, 4); (7, 5); (7, 6); (7, 7)];
    [(0, 0); (1, 0); (2, 0); (3, 0); (4, 0); (5, 0); (6, 0); (7, 0)];
    [(0, 7); (1, 7); (2, 7); (3, 7); (4, 7); (5, 7); (6, 7); (7, 7)] ].

Fixpoint edgeLoop (b : Board) (aiPlayer humanPlayer : Player)
    (es : list (list (Z * Z))) (score : Z) : option Z :=
  match es with
  | [] => Some score
  | edge :: es' =>
      score' ← heldLoop b aiPlayer humanPlayer 2 edge score;
      edgeLoop b aiPlayer humanPlayer es' score'
  end.

Definition evaluateEdges (b : Board) (aiPlayer humanPlayer : Player) : option Z :=
  edgeLoop b aiPlayer humanPlayer edges 0.

Definition evaluate (game : OthelloGame) (aiPlayer : Player) : option Z :=
  let humanPlayer := match aiPlayer with WHITE => BLACK | _ => WHITE end in
  '(black, white) ← getScore (board game);
  let b := board game in
  if gameOver game then
    let winner := winner game in
    if decide (winner = Some aiPlayer) then Some 10000
    else if decide (winner = Some humanPlayer) then Some (-10000)
    else Some 0
  else
    let evaluation := 0 in
    let totalDiscs := black + white in
    let discWeight := if totalDiscs >? 50 then 10 else 1 in
    let aiDiscs := match aiPlayer with WHITE => white | _ => black end in
    let humanDiscs := match aiPlayer with WHITE => black | _ => white end in
    let evaluation := evaluation + (aiDiscs - humanDiscs) * discWeight in
    evaluation ← positionLoop b aiPlayer humanPlayer allCells evaluation;
    aiMoves ← findValidMoves b aiPlayer;
    humanMoves ← findValidMoves b humanPlayer;
    let evaluation :=
      evaluation + (Z.of_nat (length aiMoves) - Z.of_nat (length humanMoves)) * 5 in
    evaluation ← heldLoop b aiPlayer humanPlayer 50 corners evaluation;
    edgeScore ← evaluateEdges b aiPlayer humanPlayer;
    Some (evaluation + edgeScore).

(** [const gameCopy = game.clone(); gameCopy.makeMove(move.row, move.col)];
    the boolean returned by [makeMove] is dropped by the callers. *)
Definition applyOnCopy (game : OthelloGame) (move : Move) : option OthelloGame :=
  gameCopy ← clone game;
  '(_, gameCopy') ← makeMove gameCopy (row move) (col move);
  Some gameCopy'.

Section Loops.
(** The recursive call [this.minimax(gameCopy, depth - 1, alpha, beta, _, aiPlayer)],
    as a function of the copy, the window and the node counter. *)
Variable search : OthelloGame → Num → Num → Z → option (Num * Z).
Variable game : OthelloGame.

(** The loop of a maximizing node, with its [break]. *)
Fixpoint maxLoop (moves : list Move) (maxScore alpha beta : Num) (nodes : Z)
    : option (Num * Z) :=
  match moves with
  | [] => Some (maxScore, nodes)
  | move :: moves' =>
      gameCopy ← applyOnCopy game move;
      '(score, nodes') ← search gameCopy alpha beta nodes;
      let maxScore' := Num_max maxScore score in
      let alpha' := Num_max alpha score in
      if Num_leb beta alpha' then Some (maxScore', nodes')
      else maxLoop moves' maxScore' alpha' beta nodes'
  end.

(** The loop of a minimizing node, with its [break]. *)
Fixpoint minLoop (moves : list Move) (minScore alpha beta : Num) (nodes : Z)
    : option (Num * Z) :=
  match moves with
  | [] => Some (minScore, nodes)
  | move :: moves' =>
      gameCopy ← applyOnCopy game move;
      '(score, nodes') ← search gameCopy alpha beta nodes;
      let minScore' := Num_min minScore score in
      let beta' := Num_min beta score in
      if Num_leb beta' alpha then Some (minScore', nodes')
      else minLoop moves' minScore' alpha beta' nodes'
  end.

(** The loop of [getMove]: every candidate is searched with the full
    window; the state is [(bestMove, bestScore)]. *)
Fixpoint rootLoop (moves : list Move) (bestMove : Move) (bestScore : Num) (nodes : Z)
    : option (Move * Num * Z) :=
  match moves with
  | [] => Some (bestMove, bestScore, nodes)
  | move :: moves' =>
      gameCopy ← applyOnCopy game move;
      '(score, nodes') ← search gameCopy NegInf PosInf nodes;
      if Num_gtb score bestScore
      then rootLoop moves' move score nodes'
      else rootLoop moves' bestMove bestScore nodes'
  end.
End Loops.

(** [minimax]; [fuel] bounds the depth of the recursion, [nodes] is
    [this.nodesEvaluated] before the call and, in the result, after it. *)
Fixpoint minimax (fuel : nat) (game : OthelloGame) (depth : Z) (alpha beta : Num)
    (isMaximizing : bool) (aiPlayer : Player) (nodes : Z) : option (Num * Z) :=
  match fuel with
  | O => None
  | S fuel' =>
      let nodes := nodes + 1 in
      if bool_decide (depth = 0) || gameOver game then
        v ← evaluate game aiPlayer; Some (Fin v, nodes)
      else
        let validMoves := validMoves game in
        if bool_decide (length validMoves = 0%nat) then
          v ← evaluate game aiPlayer; Some (Fin v, nodes)
        else if isMaximizing then
          maxLoop (λ gameCopy alpha beta nodes,
                     minimax fuel' gameCopy (depth - 1) alpha beta false aiPlayer nodes)
                  game validMoves NegInf alpha beta nodes
        else
          minLoop (λ gameCopy alpha beta nodes,
                     minimax fuel' gameCopy (depth - 1) alpha beta true aiPlayer nodes)
                  game validMoves PosInf alpha beta nodes
  end.

(** The search part of [getMove]: the retained move, its score and the
    node counter. The artificial delay before the loop has no effect on the
    result and is left out. *)
Definition searchRoot (fuel : nat) (ai : OthelloAI) (game : OthelloGame)
    (first : Move) (nodes : Z) : option (Move * Num * Z) :=
  rootLoop (λ gameCopy alpha beta nodes,
              minimax fuel gameCopy (depth ai - 1) alpha beta false WHITE nodes)
           game (validMoves game) first NegInf nodes.

(** [getMove(game)]: the returned move ([None] is [null]) and the AI
    object afterwards. *)
Definition getMove (fuel : nat) (ai : OthelloAI) (game : OthelloGame)
    : option (option Move * OthelloAI) :=
  let nodes := 0 in
  match validMoves game with
  | [] => Some (None, mkAI (depth ai) nodes)
  | [only] => Some (Some only, mkAI (depth ai) nodes)
  | first :: _ =>
      '(bestMove, _, nodes') ← searchRoot fuel ai game first nodes;
      Some (Some bestMove, mkAI (depth ai) nodes')
  end.

(** ** The objects in a store

    [clone] and [makeMove] once more, this time on a store of objects:
    a game object holds its board as a reference to an array of
    references to row arrays, and [makeMove] writes the rows in place.
    The arrays [validMoves] and [flippedDiscs] are never written in place
    by the two classes (the fields are only reassigned), so they stay
    values of the object. *)

Module Store.

Abbreviation loc := positive.

Record GameObj := mkObj {
  o_board : loc;
  o_currentPlayer : Player;
  o_gameOver : bool;
  o_winner : option Player;
  o_lastMove : option Move;
  o_flippedDiscs : list Move;
  o_validMoves : list Move;
  o_moveHistory : loc
}.

(** What a location holds: a row of the board, the array of the rows, a
    history array, or a game object. *)
Inductive Obj :=
  | Row (cells : list Cell)
  | Rows (rows : list loc)
  | History (entries : list HistoryEntry)
  | Game (o : GameObj).

Abbreviation Heap := (gmap loc Obj).

(** A new array or object, at a location not in use. *)
Definition alloc (h : Heap) (x : Obj) : loc * Heap :=
  let l := fresh (dom h) in (l, <[l := x]> h).

Definition getRow (h : Heap) (l : loc) : option (list Cell) :=
  match h !! l with Some (Row cells) => Some cells | _ => None end.

Definition getRows (h : Heap) (l : loc) : option (list loc) :=
  match h !! l with Some (Rows rows) => Some rows | _ => None end.

Definition getHistory (h : Heap) (l : loc) : option (list HistoryEntry) :=
  match h !! l with Some (History entries) => Some entries | _ => None end.

Definition getGame (h : Heap) (l : loc) : option GameObj :=
  match h !! l with Some (Game o) => Some o | _ => None end.

(** The cells reached from the board reference [bl], row by row. *)
Definition readBoard (h : Heap) (bl : loc) : option Board :=
  rows ← getRows h bl; mapM (getRow h) rows.

(** [board[r][c] = v]: the row array is updated where it is. *)
Definition writeCell (h : Heap) (bl : loc) (r c : Z) (v : Cell) : option Heap :=
  if (0 <=? r) && (0 <=? c)
  then rows ← getRows h bl;
       rl ← rows !! Z.to_nat r;
       cells ← getRow h rl;
       if decide (Z.to_nat c < length cells)%nat
       then Some (<[rl := Row (<[Z.to_nat c := v]> cells)]> h)
       else None
  else None.

Fixpoint flipAll (h : Heap) (bl : loc) (player : Player) (flipped : list Move) : option Heap :=
  match flipped with
  | [] => Some h
  | disc :: rest =>
      h' ← writeCell h bl (row disc) (col disc) (Disc player);
      flipAll h' bl player rest
  end.

(** One new row array per element of [b], with its cells. *)
Fixpoint allocRows (h : Heap) (b : Board) : list loc * Heap :=
  match b with
  | [] => ([], h)
  | cells :: rest =>
      let '(l, h1) := alloc h (Row cells) in
      let '(ls, h2) := allocRows h1 rest in
      (l :: ls, h2)
  end.

(** A new array of new rows: [Array(8).fill(null).map(() => Array(8).fill(EMPTY))]
    for [emptyBoard], [this.board.map(row => [...row])] for a board read
    from the store. *)
Definition allocBoard (h : Heap) (b : Board) : loc * Heap :=
  let '(ls, h1) := allocRows h b in alloc h1 (Rows ls).

(** [new OthelloGame()]: the constructor and [init]. The empty arrays the
    constructor assigns before [init] replaces them are not represented. *)
Definition newGame (h : Heap) : option (loc * Heap) :=
  let '(bl, h) := allocBoard h emptyBoard in
  h ← writeCell h bl 3 3 (Disc WHITE);
  h ← writeCell h bl 3 4 (Disc BLACK);
  h ← writeCell h bl 4 3 (Disc BLACK);
  h ← writeCell h bl 4 4 (Disc WHITE);
  let '(hist, h) := alloc h (History []) in
  b ← readBoard h bl;
  moves ← findValidMoves b BLACK;
  Some (alloc h (Game (mkObj bl BLACK false None None [] moves hist))).

(** [clone()] *)
Definition clone (this : loc) (h : Heap) : option (loc * Heap) :=
  o ← getGame h this;
  '(copy, h) ← newGame h;
  c ← getGame h copy;
  b ← readBoard h (o_board o);
  let '(bl, h) := allocBoard h b in
  Some (copy,
        <[copy := Game (mkObj bl (o_currentPlayer o) (o_gameOver o) (o_winner o)
                              (o_lastMove c) (o_flippedDiscs c) (o_validMoves o)
                              (o_moveHistory c))]> h).

(** [makeMove(row, col)] *)
Definition makeMove (this : loc) (row col : Z) (h : Heap) : option (bool * Heap) :=
  o ← getGame h this;
  if o_gameOver o then Some (false, h) else
  b ← readBoard h (o_board o);
  legal ← isValidMove b row col (o_currentPlayer o);
  if negb legal then Some (false, h) else
  flipped ← getFlippedDiscs b row col (o_currentPlayer o);
  h ← writeCell h (o_board o) row col (Disc (o_currentPlayer o));
  h ← flipAll h (o_board o) (o_currentPlayer o) flipped;
  entries ← getHistory h (o_moveHistory o);
  let h := <[o_moveHistory o :=
               History (entries ++ [mkEntry row col (o_currentPlayer o) flipped])]> h in
  b' ← readBoard h (o_board o);
  let opponent := opponentOf (o_currentPlayer o) in
  opponentMoves ← findValidMoves b' opponent;
  if bool_decide (0 < length opponentMoves)%nat then
    Some (true,
          <[this := Game (mkObj (o_board o) opponent (o_gameOver o) (o_winner o)
                                (Some (mkMove row col)) flipped opponentMoves
                                (o_moveHistory o))]> h)
  else
    currentMoves ← findValidMoves b' (o_currentPlayer o);
    if bool_decide (0 < length currentMoves)%nat then
      Some (true,
            <[this := Game (mkObj (o_board o) (o_currentPlayer o) (o_gameOver o) (o_winner o)
                                  (Some (mkMove row col)) flipped currentMoves
                                  (o_moveHistory o))]> h)
    else
      w ← determineWinner b';
      Some (true,
            <[this := Game (mkObj (o_board o) (o_currentPlayer o) true w
                                  (Some (mkMove row col)) flipped (o_validMoves o)
                                  (o_moveHistory o))]> h).

(** [makeMove] on each cell of [ms] in turn, whatever each call returns. *)
Fixpoint makeMoves (this : loc) (ms : list (Z * Z)) (h : Heap) : option Heap :=
  match ms with
  | [] => Some h
  | (r, c) :: ms' => '(_, h') ← makeMove this r c h; makeMoves this ms' h'
  end.

(** The game object at [this], read out of the store. *)
Definition view (h : Heap) (this : loc) : option OthelloGame :=
  o ← getGame h this;
  b ← readBoard h (o_board o);
  entries ← getHistory h (o_moveHistory o);
  Some (mkGame b (o_currentPlayer o) (o_gameOver o) (o_winner o)
               (o_lastMove o) (o_flippedDiscs o) (o_validMoves o) entries).

(** The locations that make up the object at [this]: the object, its
    board array, the row arrays and the history array. *)
Definition storage (h : Heap) (this : loc) : gset loc :=
  match getGame h this with
  | Some o =>
      {[this; o_board o; o_moveHistory o]}
      ∪ match getRows h (o_board o) with
        | Some rows => list_to_set rows
        | None => ∅
        end
  | None => ∅
  end.

(** The rows of the object at [this] are eight distinct arrays. *)
Definition separate (h : Heap) (this : loc) : Prop :=
  ∃ o rows, getGame h this = Some o ∧ getRows h (o_board o) = Some rows ∧ NoDup rows.

(** [h'] differs from [h] at most by the cells of row arrays of [rows]. *)
Definition rowWrites (rows : list loc) (h h' : Heap) : Prop :=
  ∀ l, h' !! l = h !! l
       ∨ (l ∈ rows ∧ ∃ cells cells', h !! l = Some (Row cells) ∧ h' !! l = Some (Row cells')).

End Store.

(** ** Definitions used to state the properties *)

(** The object built by [new OthelloGame()], written out. *)
Definition initialGame : OthelloGame :=
  mkGame
    [[EMPTY; EMPTY; EMPTY; EMPTY; EMPTY; EMPTY; EMPTY; EMPTY];
     [EMPTY; EMPTY; EMPTY; EMPTY; EMPTY; EMPTY; EMPTY; EMPTY];
     [EMPTY; EMPTY; EMPTY; EMPTY; EMPTY; EMPTY; EMPTY; EMPTY];
     [EMPTY; EMPTY; EMPTY; Disc WHITE; Disc BLACK; EMPTY; EMPTY; EMPTY];
     [EMPTY; EMPTY; EMPTY; Disc BLACK; Disc WHITE; EMPTY; EMPTY; EMPTY];
     [EMPTY; EMPTY; EMPTY; EMPTY; EMPTY; EMPTY; EMPTY; EMPTY];
     [EMPTY; EMPTY; EMPTY; EMPTY; EMPTY; EMPTY; EMPTY; EMPTY];
     [EMPTY; EMPTY; EMPTY; EMPTY; EMPTY; EMPTY; EMPTY; EMPTY]]
    BLACK false None None []
    [mkMove 2 3; mkMove 3 2; mkMove 4 5; mkMove 5 4] [].

(** The object after the opening move [makeMove(2, 3)] of Black. *)
Definition afterOpening : OthelloGame :=
  Eval vm_compute in
    match makeMove initialGame 2 3 with
    | Some (_, g) => g
    | None => initialGame
    end.

(** The states of a game: the object after the constructor, and after any
    call of [makeMove] that returned [true]. *)
Inductive reachable : OthelloGame → Prop :=
  | reachable_new g : newGame = Some g → reachable g
  | reachable_move g r c g' :
      reachable g → makeMove g r c = Some (true, g') → reachable g'.

(** [makeMove] on each cell of [ms] in turn, every call returning [true]. *)
Fixpoint playFrom (g : OthelloGame) (ms : list (Z * Z)) : option OthelloGame :=
  match ms with
  | [] => Some g
  | (r, c) :: ms' =>
      '(ok, g') ← makeMove g r c;
      if (ok : bool) then playFrom g' ms' else None
  end.

Definition play (ms : list (Z * Z)) : option OthelloGame :=
  g ← newGame; playFrom g ms.

(** A game object whose board has the shape of [init] and whose cached
    moves are cells of the grid. *)
Definition wfGame (g : OthelloGame) : Prop :=
  wfBoard (board g) ∧ Forall (λ m, inBounds (row m) (col m) = true) (validMoves g).

(** Cells left on the grid from [(r, c)] along [(dr, dc)], [(r, c)] included. *)
Definition room (dr dc r c : Z) : Z :=
  if decide (dr = 1) then 8 - r
  else if decide (dr = -1) then r + 1
  else if decide (dc = 1) then 8 - c
  else c + 1.

(** The [k] cells from [(r, c)] on along [(dr, dc)]. *)
Fixpoint ray (dr dc r c : Z) (k : nat) : list Move :=
  match k with
  | O => []
  | S k' => mkMove r c :: ray dr dc (r + dr) (c + dc) k'
  end.

(** A cell that [player] captures: on the grid and held by the opponent. *)
Definition capturable (b : Board) (player : Player) (m : Move) : Prop :=
  inBounds (row m) (col m) = true ∧ getCell b (row m) (col m) = Some (Disc (opponentOf player)).

(** [m] lies [j ≥ 1] steps from [(row0, col0)] in direction [d]. *)
Definition onRay (row0 col0 : Z) (d : Z * Z) (m : Move) : Prop :=
  ∃ j, 1 ≤ j ∧ row m = row0 + j * d.1 ∧ col m = col0 + j * d.2.

(** The invariant of the accumulator [flipped] when [dirs] are left to scan. *)
Definition flippedSoFar (b : Board) (player : Player) (row0 col0 : Z)
    (dirs : list (Z * Z)) (flipped : list Move) : Prop :=
  NoDup flipped ∧
  ∀ m, m ∈ flipped →
    capturable b player m ∧ ∃ d, d ∈ directions ∧ (d ∉ dirs) ∧ onRay row0 col0 d m.

(** The cells where [isValidMove] answers [true], in scan order. *)
Definition legalCells (b : Board) (player : Player) : list (Z * Z) :=
  filter (λ rc, isValidMove b rc.1 rc.2 player = Some true) allCells.

Definition toMove (rc : Z * Z) : Move := mkMove rc.1 rc.2.

(** Occurrences of [x] on the board. *)
Definition countCell (x : Cell) (b : Board) : Z :=
  Z.of_nat (length (filter (λ y, y = x) (concat b))).

Definition indicator (P : Prop) `{Decision P} : Z := if decide P then 1 else 0.

(** The winner by disc count: the player with strictly more discs. *)
Definition moreDiscs (b : Board) : option Player :=
  if countCell (Disc BLACK) b >? countCell (Disc WHITE) b then Some BLACK
  else if countCell (Disc WHITE) b >? countCell (Disc BLACK) b then Some WHITE
  else None.

(** A complete game of nine moves, and the object it ends with. *)
Definition finishedGame : list (Z * Z) :=
  [(2, 3); (2, 2); (2, 1); (1, 3); (0, 4); (5, 3); (6, 3); (2, 4); (3, 5)].

Definition finishedState : OthelloGame :=
  Eval vm_compute in
    match play finishedGame with
    | Some g => g
    | None => initialGame
    end.

(** ** The evaluation, as the specification words it *)

(** The weight table of the specification, row by row. *)
Definition specWeights : list (list Z) :=
  [[100; -20;  10;   5;   5;  10; -20; 100];
   [-20; -50;  -2;  -2;  -2;  -2; -50; -20];
   [ 10;  -2;   1;   1;   1;   1;  -2;  10];
   [  5;  -2;   1;   0;   0;   1;  -2;   5];
   [  5;  -2;   1;   0;   0;   1;  -2;   5];
   [ 10;  -2;   1;   1;   1;   1;  -2;  10];
   [-20; -50;  -2;  -2;  -2;  -2; -50; -20];
   [100; -20;  10;   5;   5;  10; -20; 100]].

Definition specWeight (r c : Z) : Z :=
  default 0 (ws ← specWeights !! Z.to_nat r; ws !! Z.to_nat c).

(** [+1] for a disc of [p], [-1] for a disc of [q], [0] otherwise. *)
Definition held (p q : Player) (x : option Cell) : Z :=
  if decide (x = Some (Disc p)) then 1
  else if decide (x = Some (Disc q)) then -1
  else 0.

(** The sum of [f row col] over the cells of a list. *)
Definition sumOver (cells : list (Z * Z)) (f : Z → Z → Z) : Z :=
  foldr (λ rc acc, f rc.1 rc.2 + acc) 0 cells.

(** The number of border lines (row 0, row 7, column 0, column 7) through
    a cell: 2 at a corner, 1 elsewhere on the border, 0 inside. *)
Definition borderLines (r c : Z) : Z :=
  (if r =? 0 then 1 else 0) + (if r =? 7 then 1 else 0)
  + (if c =? 0 then 1 else 0) + (if c =? 7 then 1 else 0).

Definition isCorner (r c : Z) : bool :=
  ((r =? 0) || (r =? 7)) && ((c =? 0) || (c =? 7)).

(** The value the specification gives to [evaluate(s, p)]. *)
Definition evaluateSpec (s : OthelloGame) (p : Player) : Z :=
  let q := opponentOf p in
  if gameOver s then
    if decide (winner s = Some p) then 10000
    else if decide (winner s = Some q) then -10000
    else 0
  else
    let b := board s in
    let discs x := countCell (Disc x) b in
    let W := if discs p + discs q >? 50 then 10 else 1 in
    (discs p - discs q) * W
    + sumOver allCells (λ r c, held p q (getCell b r c) * specWeight r c)
    + 5 * (Z.of_nat (length (legalCells b p)) - Z.of_nat (length (legalCells b q)))
    + sumOver allCells (λ r c, if isCorner r c then 50 * held p q (getCell b r c) else 0)
    + sumOver allCells (λ r c, 2 * borderLines r c * held p q (getCell b r c)).

(** ** The search without pruning, as the specification words it *)

(** [x < y] on numbers *)
Definition Num_ltb (x y : Num) : bool := negb (Num_leb y x).

(** [v] brought into the window [[alpha, beta]]. *)
Definition clamp (alpha beta v : Num) : Num := Num_max alpha (Num_min beta v).

Section FullWidth.
(** The value of a child position, searched without a window. *)
Variable search : OthelloGame → option Num.
Variable game : OthelloGame.

(** A maximizing node that visits every candidate. *)
Fixpoint fullMaxLoop (moves : list Move) (maxScore : Num) : option Num :=
  match moves with
  | [] => Some maxScore
  | move :: moves' =>
      gameCopy ← applyOnCopy game move;
      score ← search gameCopy;
      fullMaxLoop moves' (Num_max maxScore score)
  end.

(** A minimizing node that visits every candidate. *)
Fixpoint fullMinLoop (moves : list Move) (minScore : Num) : option Num :=
  match moves with
  | [] => Some minScore
  | move :: moves' =>
      gameCopy ← applyOnCopy game move;
      score ← search gameCopy;
      fullMinLoop moves' (Num_min minScore score)
  end.

(** The root: candidates in order, the first strictly greater score kept. *)
Fixpoint fullRootLoop (moves : list Move) (bestMove : Move) (bestScore : Num)
    : option (Move * Num) :=
  match moves with
  | [] => Some (bestMove, bestScore)
  | move :: moves' =>
      gameCopy ← applyOnCopy game move;
      score ← search gameCopy;
      if Num_gtb score bestScore
      then fullRootLoop moves' move score
      else fullRootLoop moves' bestMove bestScore
  end.
End FullWidth.

(** Minimax over the same tree as [minimax] (same leaves, same candidate
    order), every node visiting all its candidates. *)
Fixpoint fullMinimax (fuel : nat) (game : OthelloGame) (depth : Z)
    (isMaximizing : bool) (aiPlayer : Player) : option Num :=
  match fuel with
  | O => None
  | S fuel' =>
      if bool_decide (depth = 0) || gameOver game then
        v ← evaluate game aiPlayer; Some (Fin v)
      else if bool_decide (length (validMoves game) = 0%nat) then
        v ← evaluate game aiPlayer; Some (Fin v)
      else if isMaximizing then
        fullMaxLoop (λ gameCopy, fullMinimax fuel' gameCopy (depth - 1) false aiPlayer)
                    game (validMoves game) NegInf
      else
        fullMinLoop (λ gameCopy, fullMinimax fuel' gameCopy (depth - 1) true aiPlayer)
                    game (validMoves game) PosInf
  end.

(** The retained root move and its score under the unpruned search. *)
Definition fullRoot (fuel : nat) (ai : OthelloAI) (game : OthelloGame) (first : Move)
    : option (Move * Num) :=
  fullRootLoop (λ gameCopy, fullMinimax fuel gameCopy (depth ai - 1) false WHITE)
               game (validMoves game) first NegInf.

(** [getMove] with the unpruned search in place of [minimax]. *)
Definition getMoveFull (fuel : nat) (ai : OthelloAI) (game : OthelloGame)
    : option (option Move) :=
  match validMoves game with
  | [] => Some None
  | [only] => Some (Some only)
  | first :: _ => '(bestMove, _) ← fullRoot fuel ai game first; Some (Some bestMove)
  end.

(** The score of a candidate: [minimax] on the copy after the move, at
    [depth - 1], full window, minimizing next, from [aiPlayer]'s side. *)
Definition scoreFor (fuel : nat) (depth : Z) (aiPlayer : Player) (game : OthelloGame)
    (move : Move) : option Num :=
  gameCopy ← applyOnCopy game move;
  '(score, _) ← minimax fuel gameCopy (depth - 1) NegInf PosInf false aiPlayer 0;
  Some score.

(** The score [getMove] gives to a candidate: always from WHITE's side. *)
Definition scoreOf (fuel : nat) (ai : OthelloAI) (game : OthelloGame) (move : Move)
    : option Num :=
  scoreFor fuel (depth ai) WHITE game move.

(** [(bm, bs)] is the pair retained after the candidates [moves] with
    scores [scores]: the first candidate whose score is strictly greater
    than every earlier one and that no later one exceeds. *)
Definition retained (moves : list Move) (scores : list Num) (bm : Move) (bs : Num) : Prop :=
  ∃ i,
    moves !! i = Some bm ∧ scores !! i = Some bs
    ∧ (∀ j sj, (j < i)%nat → scores !! j = Some sj → Num_ltb sj bs = true)
    ∧ (∀ k sk, (i < k)%nat → scores !! k = Some sk → Num_leb sk bs = true).

Definition firstBest (moves : list Move) (scores : list Num) (best : Move) : Prop :=
  ∃ s, retained moves scores best s.

(** The choice among the candidates [moves]: none, the only one, or the
    first best by score. *)
Definition chosenFrom (fuel : nat) (depth : Z) (aiPlayer : Player) (state : OthelloGame)
    (moves : list Move) (result : option Move) : Prop :=
  match moves with
  | [] => result = None
  | [only] => result = Some only
  | _ =>
      ∃ scores best,
        Forall2 (λ m s, scoreFor fuel depth aiPlayer state m = Some s) moves scores
        ∧ firstBest moves scores best
        ∧ result = Some best
  end.

(** [getMove(state, aiPlayer, depth)] as the specification words it: the
    choice among the legal moves of the side to move, scored for
    [aiPlayer]. *)
Definition getMoveSpec (fuel : nat) (depth : Z) (state : OthelloGame) (aiPlayer : Player)
    (result : option Move) : Prop :=
  ∃ moves,
    findValidMoves (board state) (currentPlayer state) = Some moves
    ∧ chosenFrom fuel depth aiPlayer state moves result.

(** The node counter moved on by [n]. *)
Definition shiftBy (n : Z) (r : Num * Z) : Num * Z := (r.1, n + r.2).





(** The position after Black's (2,3) and White's (2,2): Black to move. *)
Definition afterTwoMoves : OthelloGame :=
  Eval vm_compute in
    match play [(2, 3); (2, 2)] with
    | Some g => g
    | None => initialGame
    end.

(** A complete game of ten moves that White ends, and its final object. *)
Definition finishedGameWhite : list (Z * Z) :=
  [(2, 3); (2, 2); (2, 1); (2, 4); (4, 5); (2, 0); (3, 2); (5, 4); (3, 5); (3, 6)].

Definition finishedStateWhite : OthelloGame :=
  Eval vm_compute in
    match play finishedGameWhite with
    | Some g => g
    | None => initialGame
    end.

(** ** Concrete stores used to instantiate the store theorems *)

(** The store after [new OthelloGame()] in an empty store. *)
Definition storeNew : Store.loc * Store.Heap :=
  Eval vm_compute in
    match Store.newGame ∅ with
    | Some x => x
    | None => (1%positive, ∅)
    end.

(** ... after [clone()] of that object. *)
Definition storeCloned : Store.loc * Store.Heap :=
  Eval vm_compute in
    match Store.clone storeNew.1 storeNew.2 with
    | Some x => x
    | None => storeNew
    end.

(** ... after [makeMove(2, 3)] and [makeMove(2, 2)] on the clone. *)
Definition storeCloneMoved : Store.Heap :=
  Eval vm_compute in
    match Store.makeMoves storeCloned.1 [(2, 3); (2, 2)] storeCloned.2 with
    | Some h => h
    | None => storeCloned.2
    end.

(** ... after [makeMove(2, 3)] on the source instead. *)
Definition storeSourceMoved : Store.Heap :=
  Eval vm_compute in
    match Store.makeMoves storeNew.1 [(2, 3)] storeCloned.2 with
    | Some h => h
    | None => storeCloned.2
    end.

(** ** Definitions used to state further properties of the engine *)

(** The rank of a cell in the row-major scan of the grid. *)
Definition cellIndex (m : Move) : Z := 8 * row m + col m.

(** The ranks of [moves] increase strictly, all above [bound]. *)
Fixpoint ascending (bound : Z) (moves : list Move) : Prop :=
  match moves with
  | [] => True
  | m :: moves' => bound < cellIndex m ∧ ascending (cellIndex m) moves'
  end.

(** The cell played by an entry of [moveHistory]. *)
Definition entryCell (e : HistoryEntry) : Move := mkMove (h_row e) (h_col e).

(** A cell of the board that holds a disc. *)
Definition occupied (b : Board) (m : Move) : Prop :=
  ∃ p, getCell b (row m) (col m) = Some (Disc p).

(** ** Definitions used to state further properties of the search *)

(** A score the search can return: finite, between the score of a loss
    and the score of a win. *)
Definition scoreBound (v : Num) : Prop := ∃ z, v = Fin z ∧ -10000 ≤ z ≤ 10000.

(** The board has the shape of [init] and, while the game lasts, the
    cache lists the legal moves of the player to move. *)
Definition liveCache (g : OthelloGame) : Prop :=
  wfBoard (board g)
  ∧ (gameOver g = false → findValidMoves (board g) (currentPlayer g) = Some (validMoves g)).

(** ** The capture rule *)

(** The cell [j] steps from [(row0, col0)] in direction [d]. *)
Definition stepFrom (row0 col0 : Z) (d : Z * Z) (j : Z) : Move :=
  mkMove (row0 + j * d.1) (col0 + j * d.2).

(** In direction [d] from [(row0, col0)]: [k ≥ 1] cells of the opponent,
    then a cell of [player], all of them on the grid. *)
Definition bracketed (b : Board) (player : Player) (row0 col0 : Z) (d : Z * Z) (k : Z) : Prop :=
  1 ≤ k
  ∧ (∀ j, 1 ≤ j ≤ k → capturable b player (stepFrom row0 col0 d j))
  ∧ inBounds (row (stepFrom row0 col0 d (k + 1))) (col (stepFrom row0 col0 d (k + 1))) = true
  ∧ getCell b (row (stepFrom row0 col0 d (k + 1))) (col (stepFrom row0 col0 d (k + 1)))
    = Some (Disc player).

(** ** The controller: main.js

    [OthelloApp] drives the game from clicks on the board.  Its handlers
    are asynchronous: a chain started by a click is suspended at each
    [await] on a timer and resumed when the timer fires.  The state below
    records at which [await] the chain in flight is suspended; an event is
    a click on a cell, a press on a New Game button, or the timer of the
    suspended chain.

    Of the presentation, the calls [placeDisc], the score texts written by
    [updateUI] and the modal filled by [handleGameOver] are kept, as
    effects; sound, hover highlights, move indicators, flip animations,
    the loading screen and VR are left out.  A New Game press while a chain
    is suspended is outside this model: [step] gives [None] for it. *)

Module App.

Definition playerColor : Player := BLACK.
Definition aiColor : Player := WHITE.

(** The [await] at which the chain in flight is suspended. *)
Inductive Pending :=
  | Idle
  | AfterPlayerMove
  | Thinking (validMoves : list Move)
  | AfterAiMove.

#[global] Instance Pending_eq_dec : EqDecision Pending.
Proof. solve_decision. Defined.

Record OthelloApp := mkApp {
  game : OthelloGame;
  ai : OthelloAI;
  isPlayerTurn : bool;
  isProcessing : bool;
  pending : Pending
}.

(** The three texts of [winner-text]: the player won, the computer won,
    a tie. *)
Inductive Verdict := PlayerWon | ComputerWon | Tie.

Inductive Effect :=
  | PlaceDisc (row col : Z) (player : Player) (animate : bool)
  | ShowScore (black white : Z)
  | GameOverModal (winnerText : Verdict) (finalBlack finalWhite : Z).

(** Recursion fuel of the search: the application builds [new OthelloAI(4)]. *)
Definition searchFuel : nat := 4.

(** The constructor: [new OthelloGame()], [new OthelloAI(4)]. *)
Definition newApp : option OthelloApp :=
  g ← newGame; Some (mkApp g (mkAI 4 0) true false Idle).

Definition updateUI (s : OthelloApp) : option (list Effect) :=
  '(black, white) ← getScore (board (game s));
  Some [ShowScore black white].

Definition handleGameOver (s : OthelloApp) : option (list Effect) :=
  '(black, white) ← getScore (board (game s));
  let winner := winner (game s) in
  let winnerText :=
    if decide (winner = Some playerColor) then PlayerWon
    else if decide (winner = Some aiColor) then ComputerWon
    else Tie in
  Some [GameOverModal winnerText black white].

(** [aiMove] from the point where [await this.ai.getMove(this.game)] has
    given [move], up to the next [await]. *)
Definition aiPlay (s : OthelloApp) (ai' : OthelloAI) (move : option Move)
    : option (OthelloApp * list Effect) :=
  match move with
  | None => Some (mkApp (game s) ai' true false Idle, [])
  | Some m =>
      let player := currentPlayer (game s) in
      '(_, g') ← makeMove (game s) (row m) (col m);
      Some (mkApp g' ai' (isPlayerTurn s) (isProcessing s) AfterAiMove,
            [PlaceDisc (row m) (col m) player true])
  end.

(** [aiMove] up to its first timer.  [getMove] awaits its delay only
    with two cached moves or more; its local [validMoves] is kept with
    the suspended chain. *)
Definition aiMove (s : OthelloApp) : option (OthelloApp * list Effect) :=
  if gameOver (game s) then Some (mkApp (game s) (ai s) (isPlayerTurn s) false Idle, [])
  else
    let ai0 := mkAI (depth (ai s)) 0 in
    match validMoves (game s) with
    | [] => aiPlay s ai0 None
    | [only] => aiPlay s ai0 (Some only)
    | moves => Some (mkApp (game s) ai0 (isPlayerTurn s) (isProcessing s) (Thinking moves), [])
    end.

(** [getMove] after its delay: the loop over the local [validMoves], on
    the game object as it is now.  The delay is only awaited with two
    moves or more, so the empty case does not arise ([None]). *)
Definition getMoveResume (fuel : nat) (ai : OthelloAI) (game : OthelloGame)
    (validMoves : list Move) : option (option Move * OthelloAI) :=
  match validMoves with
  | [] => None
  | first :: _ =>
      '(bestMove, _, nodes') ←
        rootLoop (λ gameCopy alpha beta nodes,
                    minimax fuel gameCopy (depth ai - 1) alpha beta false WHITE nodes)
                 game validMoves first NegInf (nodesEvaluated ai);
      Some (Some bestMove, mkAI (depth ai) nodes')
  end.

(** [makeMove(row, col)] of the controller, up to its [await].  A call
    while another chain is suspended is not represented ([None]); the
    guards of [handleCellClick] exclude it in the states the application
    goes through. *)
Definition makeMove (s : OthelloApp) (row col : Z) : option (OthelloApp * list Effect) :=
  match pending s with
  | Idle =>
      let player := currentPlayer (game s) in
      '(_, g') ← makeMove (game s) row col;
      Some (mkApp g' (ai s) (isPlayerTurn s) true AfterPlayerMove,
            [PlaceDisc row col player true])
  | _ => None
  end.

(** [makeMove] of the controller, resumed after the animation. *)
Definition resumeMakeMove (s : OthelloApp) : option (OthelloApp * list Effect) :=
  ui ← updateUI s;
  if gameOver (game s) then
    over ← handleGameOver s;
    Some (mkApp (game s) (ai s) (isPlayerTurn s) false Idle, ui ++ over)
  else if decide (currentPlayer (game s) = playerColor) then
    Some (mkApp (game s) (ai s) true false Idle, ui)
  else
    '(s', effects) ← aiMove (mkApp (game s) (ai s) false (isProcessing s) (pending s));
    Some (s', ui ++ effects).

(** [aiMove], resumed after the animation. *)
Definition resumeAiMove (s : OthelloApp) : option (OthelloApp * list Effect) :=
  ui ← updateUI s;
  if gameOver (game s) then
    over ← handleGameOver s;
    Some (mkApp (game s) (ai s) (isPlayerTurn s) false Idle, ui ++ over)
  else if decide (currentPlayer (game s) = playerColor) then
    Some (mkApp (game s) (ai s) true false Idle, ui)
  else
    '(s', effects) ← aiMove s;
    Some (s', ui ++ effects).

Definition handleCellClick (s : OthelloApp) (row col : Z) : option (OthelloApp * list Effect) :=
  if isProcessing s || negb (isPlayerTurn s) then Some (s, [])
  else if gameOver (game s) then Some (s, [])
  else
    let validMoves := validMoves (game s) in
    let isValidMove :=
      existsb (λ '(mkMove mrow mcol), bool_decide (mrow = row) && bool_decide (mcol = col))
              validMoves in
    if negb isValidMove then Some (s, [])
    else makeMove s row col.

(** The loop of [newGame] that places the discs of the starting position. *)
Fixpoint placeInitial (b : Board) (cells : list (Z * Z)) : option (list Effect) :=
  match cells with
  | [] => Some []
  | (r, c) :: cells' =>
      x ← getCell b r c;
      rest ← placeInitial b cells';
      Some (match x with Disc p => PlaceDisc r c p false :: rest | EMPTY => rest end)
  end.

Definition newGame (s : OthelloApp) : option (OthelloApp * list Effect) :=
  match pending s with
  | Idle =>
      g ← newGame;
      let s' := mkApp g (ai s) true false Idle in
      ui ← updateUI s';
      discs ← placeInitial (board g) allCells;
      Some (s', ui ++ discs)
  | _ => None
  end.

(** The events: a click on a cell, a press on New Game, the timer of the
    suspended chain ([None] when there is none). *)
Inductive Event := Click (row col : Z) | NewGame | Timer.

Definition step (s : OthelloApp) (e : Event) : option (OthelloApp * list Effect) :=
  match e with
  | Click row col => handleCellClick s row col
  | NewGame => newGame s
  | Timer =>
      match pending s with
      | Idle => None
      | AfterPlayerMove => resumeMakeMove s
      | Thinking moves =>
          '(move, ai') ← getMoveResume searchFuel (ai s) (game s) moves;
          aiPlay s ai' move
      | AfterAiMove => resumeAiMove s
      end
  end.

(** The events of [es] in turn; the effects are concatenated. *)
Fixpoint run (s : OthelloApp) (es : list Event) : option (OthelloApp * list Effect) :=
  match es with
  | [] => Some (s, [])
  | e :: es' =>
      '(s1, effects1) ← step s e;
      '(s2, effects2) ← run s1 es';
      Some (s2, effects1 ++ effects2)
  end.

(** What [aiMove] finds when it is entered: a game that is not over,
    with White to move, while the chain is processing. *)
Definition aiTurn (s : OthelloApp) : Prop :=
  reachable (game s) ∧ depth (ai s) = 4
  ∧ isProcessing s = true ∧ isPlayerTurn s = false
  ∧ gameOver (game s) = false ∧ currentPlayer (game s) = aiColor.

(** What holds of the state at each point of suspension. *)
Definition invariant (s : OthelloApp) : Prop :=
  reachable (game s) ∧ depth (ai s) = 4
  ∧ match pending s with
    | Idle =>
        isProcessing s = false
        ∧ (gameOver (game s) = false
           → isPlayerTurn s = true ∧ currentPlayer (game s) = playerColor)
    | AfterPlayerMove => isProcessing s = true
    | Thinking moves =>
        isProcessing s = true ∧ isPlayerTurn s = false
        ∧ gameOver (game s) = false ∧ currentPlayer (game s) = aiColor
        ∧ moves = validMoves (game s) ∧ nodesEvaluated (ai s) = 0
    | AfterAiMove => isProcessing s = true ∧ isPlayerTurn s = false
    end.

(** Twice the empty cells, plus the steps left before the next move. *)
Definition measure (s : OthelloApp) : Z :=
  2 * countCell EMPTY (board (game s))
  + match pending s with
    | Idle => 0
    | Thinking _ => 1
    | AfterPlayerMove | AfterAiMove => 2
    end.

(** The states the application goes through. *)
Definition reachable (s : OthelloApp) : Prop :=
  ∃ s0 es effects, newApp = Some s0 ∧ run s0 es = Some (s, effects).

End App.

(** The application when it starts, after a click on (2, 3), and after
    the timer of that move: the search is then waiting. *)
Definition appStart : App.OthelloApp :=
  Eval vm_compute in
    match App.newApp with
    | Some s => s
    | None => App.mkApp initialGame (mkAI 4 0) true false App.Idle
    end.

Definition appClicked : App.OthelloApp * list App.Effect :=
  Eval vm_compute in
    match App.run appStart [App.Click 2 3] with Some x => x | None => (appStart, []) end.

Definition appThinking : App.OthelloApp * list App.Effect :=
  Eval vm_compute in
    match App.run appStart [App.Click 2 3; App.Timer] with
    | Some x => x
    | None => (appStart, [])
    end.

(** The application at the end of the game [finishedGame], before and
    after the timer of the last move. *)
Definition appFinished : App.OthelloApp :=
  App.mkApp finishedState (mkAI 4 0) true true App.AfterPlayerMove.

Definition appFinishedShown : App.OthelloApp * list App.Effect :=
  Eval vm_compute in
    match App.step appFinished App.Timer with Some x => x | None => (appFinished, []) end.

(** ** The discs kept by the renderer: js/renderer.js

    [this.discs] maps the key [`${row},${col}`] to the mesh shown on that
    cell.  A key is represented by the pair [(row, col)] and a mesh by its
    [userData.player], the colour it shows; the scene graph, positions
    and animations are left out. *)

Module Renderer.

Abbreviation Discs := (gmap (Z * Z) Player).

(** [placeDisc(row, col, player, animate)]: the new mesh replaces the one
    stored under the key, if any. *)
Definition placeDisc (discs : Discs) (row col : Z) (player : Player) : Discs :=
  <[(row, col) := player]> discs.

(** [clearBoard()] *)
Definition clearBoard (discs : Discs) : Discs := ∅.

(** The body of the two loops of [updateFromGameState]. *)
Definition updateCell (discs : Discs) (row col : Z) (cell : Cell) : Discs :=
  let existingDisc := discs !! (row, col) in
  match cell with
  | Disc player =>
      match existingDisc with
      | None => placeDisc discs row col player
      | Some shown =>
          if decide (shown ≠ player) then <[(row, col) := player]> discs else discs
      end
  | EMPTY =>
      match existingDisc with
      | Some _ => delete (row, col) discs
      | None => discs
      end
  end.

Fixpoint updateLoop (board : Board) (cells : list (Z * Z)) (discs : Discs) : option Discs :=
  match cells with
  | [] => Some discs
  | (row, col) :: cells' =>
      cell ← getCell board row col;
      updateLoop board cells' (updateCell discs row col cell)
  end.

(** [updateFromGameState(board, validMoves)], for the discs. *)
Definition updateFromGameState (board : Board) (discs : Discs) : option Discs :=
  updateLoop board allCells discs.

(** The colour the board has on a cell, if any. *)
Definition shownOn (board : Board) (key : Z * Z) : option Player :=
  match getCell board key.1 key.2 with
  | Some (Disc player) => Some player
  | _ => None
  end.

End Renderer.

(** ** [init] and [reset] on a store of objects *)

Module StoreInit.

(** The assignments of [init()]: a new board with the four starting
    discs, a new history array, and the fields the object gets. *)
Definition init (h : Store.Heap) : option (Store.GameObj * Store.Heap) :=
  let '(bl, h) := Store.allocBoard h emptyBoard in
  h ← Store.writeCell h bl 3 3 (Disc WHITE);
  h ← Store.writeCell h bl 3 4 (Disc BLACK);
  h ← Store.writeCell h bl 4 3 (Disc BLACK);
  h ← Store.writeCell h bl 4 4 (Disc WHITE);
  let '(hist, h) := Store.alloc h (Store.History []) in
  b ← Store.readBoard h bl;
  moves ← findValidMoves b BLACK;
  Some (Store.mkObj bl BLACK false None None [] moves hist, h).

(** [reset()]: [init()] on the object at [this]. *)
Definition reset (this : Store.loc) (h : Store.Heap) : option Store.Heap :=
  _ ← Store.getGame h this;
  '(o, h) ← init h;
  Some (<[this := Store.Game o]> h).

End StoreInit.

(** * Properties *)

(** ** Reading and writing the grid *)

Lemma inBounds_spec r c : inBounds r c = true ↔ (0 ≤ r < 8 ∧ 0 ≤ c < 8).
Proof. unfold inBounds. rewrite !andb_true_iff, !Z.leb_le, !Z.ltb_lt. lia. Qed.

Lemma inBounds_false r c : inBounds r c = false ↔ ¬ (0 ≤ r < 8 ∧ 0 ≤ c < 8).
Proof. rewrite <- inBounds_spec. destruct (inBounds r c); split; congruence. Qed.

Lemma wfBoardb_spec b : wfBoardb b = true ↔ wfBoard b.
Proof.
  unfold wfBoardb, wfBoard.
  rewrite andb_true_iff, bool_decide_eq_true, forallb_forall, Forall_forall.
  split; intros [H1 H2]; split; try done; intros x Hx.
  - apply list_elem_of_In in Hx. apply H2 in Hx. by apply bool_decide_eq_true in Hx.
  - apply list_elem_of_In in Hx. apply bool_decide_eq_true. by apply H2.
Qed.

Lemma wf_row (b : Board) (i : nat) :
  wfBoard b → (i < 8)%nat → ∃ cells, b !! i = Some cells ∧ length cells = 8%nat.
Proof.
  intros [Hl Hr] Hi.
  destruct (lookup_lt_is_Some_2 b i) as [cells Hc]; [lia|].
  exists cells. split; [done|]. by eapply (Forall_lookup_1 _ _ _ _ Hr).
Qed.

Lemma getCell_Some (b : Board) r c :
  wfBoard b → inBounds r c = true → is_Some (getCell b r c).
Proof.
  intros Hwf Hin. apply inBounds_spec in Hin. unfold getCell.
  destruct (wf_row b (Z.to_nat r) Hwf) as (cells & Hc & Hlen); [lia|].
  rewrite (proj2 (andb_true_iff _ _)) by (rewrite !Z.leb_le; lia).
  rewrite Hc. simpl. apply lookup_lt_is_Some_2. lia.
Qed.

Lemma getCell_inv (b : Board) r c x :
  getCell b r c = Some x →
  0 ≤ r ∧ 0 ≤ c ∧ ∃ cells, b !! Z.to_nat r = Some cells ∧ cells !! Z.to_nat c = Some x.
Proof.
  unfold getCell. destruct (_ && _) eqn:E; [|done].
  apply andb_true_iff in E as [H1%Z.leb_le H2%Z.leb_le].
  destruct (b !! Z.to_nat r) as [cells|] eqn:Hc; [|done]. simpl.
  intros Hx. repeat split; try done. by exists cells.
Qed.

Lemma setCell_inv (b : Board) r c v b' :
  setCell b r c v = Some b' →
  0 ≤ r ∧ 0 ≤ c ∧ ∃ cells, b !! Z.to_nat r = Some cells ∧ (Z.to_nat c < length cells)%nat
    ∧ b' = <[Z.to_nat r := <[Z.to_nat c := v]> cells]> b.
Proof.
  unfold setCell. destruct (_ && _) eqn:E; [|done].
  apply andb_true_iff in E as [H1%Z.leb_le H2%Z.leb_le].
  destruct (b !! Z.to_nat r) as [cells|] eqn:Hc; [|done]. simpl.
  case_decide; [|done]. intros [= <-]. repeat split; try done. by exists cells.
Qed.

Lemma setCell_Some (b : Board) r c v :
  wfBoard b → inBounds r c = true → is_Some (setCell b r c v).
Proof.
  intros Hwf Hin. apply inBounds_spec in Hin. unfold setCell.
  destruct (wf_row b (Z.to_nat r) Hwf) as (cells & Hc & Hlen); [lia|].
  rewrite (proj2 (andb_true_iff _ _)) by (rewrite !Z.leb_le; lia).
  rewrite Hc. simpl. rewrite decide_True by lia. done.
Qed.

Lemma setCell_wf (b : Board) r c v b' :
  wfBoard b → setCell b r c v = Some b' → wfBoard b'.
Proof.
  intros [Hl Hr] (_ & _ & cells & Hc & Hlt & ->)%setCell_inv. split.
  - by rewrite length_insert.
  - apply Forall_insert; [done|]. cbv beta. rewrite length_insert.
    by eapply (Forall_lookup_1 _ _ _ _ Hr).
Qed.

Lemma getCell_setCell (b : Board) r c v b' r' c' :
  setCell b r c v = Some b' →
  getCell b' r' c' = if decide (r' = r ∧ c' = c) then Some v else getCell b r' c'.
Proof.
  intros (Hr & Hc & cells & Hcells & Hlt & ->)%setCell_inv.
  unfold getCell. destruct (_ && _) eqn:E.
  - apply andb_true_iff in E as [H1%Z.leb_le H2%Z.leb_le].
    destruct (decide (Z.to_nat r' = Z.to_nat r)) as [Hrr|Hrr].
    + rewrite Hrr, list_lookup_insert_eq by (by eapply lookup_lt_Some).
      rewrite Hcells. simpl.
      destruct (decide (Z.to_nat c' = Z.to_nat c)) as [Hcc|Hcc].
      * rewrite Hcc, list_lookup_insert_eq by done.
        rewrite decide_True by lia. done.
      * rewrite list_lookup_insert_ne by done.
        rewrite decide_False by lia. done.
    + rewrite list_lookup_insert_ne by done.
      rewrite decide_False by lia. done.
  - rewrite decide_False; [done|]. intros [-> ->].
    apply andb_false_iff in E as [E|E]; apply Z.leb_gt in E; lia.
Qed.

Lemma getCell_in_range (b : Board) r c x :
  wfBoard b → getCell b r c = Some x → inBounds r c = true.
Proof.
  intros [Hl Hr] (H1 & H2 & cells & Hc & Hx)%getCell_inv.
  apply inBounds_spec.
  pose proof (lookup_lt_Some _ _ _ Hc) as Hlt1.
  pose proof (lookup_lt_Some _ _ _ Hx) as Hlt2.
  rewrite (Forall_lookup_1 _ _ _ _ Hr Hc) in Hlt2. lia.
Qed.

(** ** The directional walks stay on the grid and end *)

Lemma walkFuel_val : walkFuel = 9%nat.
Proof. reflexivity. Qed.

#[local] Opaque walkFuel.

Lemma room_step dr dc r c :
  (dr, dc) ∈ directions → inBounds r c = true →
  1 ≤ room dr dc r c ≤ 8 ∧ room dr dc (r + dr) (c + dc) = room dr dc r c - 1.
Proof.
  intros Hd Hin%inBounds_spec. unfold directions in Hd.
  repeat (apply elem_of_cons in Hd as [[= -> ->]|Hd]; [unfold room; simpl; lia|]).
  by apply elem_of_nil in Hd.
Qed.

Lemma walkFound_total fuel b opponent dr dc r c found :
  wfBoard b → (dr, dc) ∈ directions → (0 < fuel)%nat →
  (inBounds r c = true → room dr dc r c < Z.of_nat fuel) →
  is_Some (walkFound fuel b opponent dr dc r c found).
Proof.
  intros Hwf Hd. revert r c found.
  induction fuel as [|fuel IH]; intros r c found Hpos Hroom; [lia|].
  simpl. destruct (inBounds r c) eqn:Hin; [|done].
  destruct (getCell_Some b r c Hwf Hin) as [x ->]. simpl.
  case_decide; [|done].
  destruct (room_step dr dc r c Hd Hin) as [Hr1 Hr2].
  specialize (Hroom eq_refl).
  apply IH; [lia|]. intros _. lia.
Qed.

Lemma walkLine_total fuel b opponent dr dc r c line :
  wfBoard b → (dr, dc) ∈ directions → (0 < fuel)%nat →
  (inBounds r c = true → room dr dc r c < Z.of_nat fuel) →
  is_Some (walkLine fuel b opponent dr dc r c line).
Proof.
  intros Hwf Hd. revert r c line.
  induction fuel as [|fuel IH]; intros r c line Hpos Hroom; [lia|].
  simpl. destruct (inBounds r c) eqn:Hin; [|done].
  destruct (getCell_Some b r c Hwf Hin) as [x ->]. simpl.
  case_decide; [|done].
  destruct (room_step dr dc r c Hd Hin) as [Hr1 Hr2].
  specialize (Hroom eq_refl).
  apply IH; [lia|]. intros _. lia.
Qed.

Lemma room_walkFuel dr dc r c :
  (dr, dc) ∈ directions → inBounds r c = true → room dr dc r c < Z.of_nat walkFuel.
Proof. intros Hd Hin. destruct (room_step dr dc r c Hd Hin). rewrite walkFuel_val. lia. Qed.

Lemma closedBy_total b player r c : wfBoard b → is_Some (closedBy b player r c).
Proof.
  intros Hwf. unfold closedBy. destruct (inBounds r c) eqn:Hin; [|done].
  by destruct (getCell_Some b r c Hwf Hin) as [x ->].
Qed.

Lemma validInSome_total b player row col dirs :
  wfBoard b → dirs ⊆ directions → is_Some (validInSome b player row col dirs).
Proof.
  intros Hwf. induction dirs as [|[dr dc] dirs IH]; intros Hsub; [done|].
  simpl.
  assert (Hd : (dr, dc) ∈ directions) by (apply Hsub; left).
  destruct (walkFound_total walkFuel b (opponentOf player) dr dc (row + dr) (col + dc) false)
    as [[[found r] c] ->]; try done.
  { rewrite walkFuel_val; lia. } { by apply room_walkFuel. }
  simpl.
  assert (Hc : is_Some (if found then closedBy b player r c else Some false)).
  { destruct found; [by apply closedBy_total|done]. }
  destruct Hc as [closed ->]. simpl. destruct closed; [done|].
  apply IH. intros d Hdd. apply Hsub. by right.
Qed.

Lemma flipLoop_total b player row col dirs flipped :
  wfBoard b → dirs ⊆ directions → is_Some (flipLoop b player row col dirs flipped).
Proof.
  intros Hwf. revert flipped.
  induction dirs as [|[dr dc] dirs IH]; intros flipped Hsub; [done|].
  simpl.
  assert (Hd : (dr, dc) ∈ directions) by (apply Hsub; left).
  destruct (walkLine_total walkFuel b (opponentOf player) dr dc (row + dr) (col + dc) [])
    as [[[line r] c] ->]; try done.
  { rewrite walkFuel_val; lia. } { by apply room_walkFuel. }
  simpl.
  assert (Hc : is_Some (if bool_decide (0 < length line)%nat
                        then closedBy b player r c else Some false)).
  { case_bool_decide; [by apply closedBy_total|done]. }
  destruct Hc as [closed ->]. simpl.
  apply IH. intros d Hdd. apply Hsub. by right.
Qed.

(** Where the cell exists, the two reads agree. *)
Lemma readCell_getCell (b : Board) r c x :
  readCell b r c = Some (Some x) ↔ getCell b r c = Some x.
Proof.
  unfold readCell, getCell.
  destruct (0 <=? r); cbn [andb]; [|split; discriminate].
  destruct (b !! Z.to_nat r) as [cells|]; cbn [mbind option_bind].
  - destruct (0 <=? c); [|split; discriminate].
    split; [by intros [= ->]|by intros ->].
  - destruct (0 <=? c); split; discriminate.
Qed.

(** Past the ends of an existing row the read gives [undefined]. *)
Lemma readCell_past_row_end (b : Board) r c :
  wfBoard b → 0 ≤ r < 8 → ¬ 0 ≤ c < 8 → readCell b r c = Some None.
Proof.
  intros Hwf Hr Hc. unfold readCell.
  destruct (wf_row b (Z.to_nat r) Hwf) as (cells & Hcells & Hlen); [lia|].
  rewrite (proj2 (Z.leb_le 0 r)) by lia. rewrite Hcells. cbn [mbind option_bind].
  destruct (Z.leb_spec 0 c); [|reflexivity].
  f_equal. apply lookup_ge_None. lia.
Qed.

Lemma isValidMove_total b row col player :
  wfBoard b → inBounds row col = true → is_Some (isValidMove b row col player).
Proof.
  intros Hwf Hin. unfold isValidMove.
  destruct (getCell_Some b row col Hwf Hin) as [x Hx].
  rewrite (proj2 (readCell_getCell b row col x) Hx). cbn [mbind option_bind].
  case_decide; [done|]. by apply validInSome_total.
Qed.

(** [isValidMove] off the end of a row of the grid: the cell read is
    [undefined], which is not [EMPTY], and the answer is [false]. *)
Lemma isValidMove_past_row_end b row col player :
  wfBoard b → 0 ≤ row < 8 → ¬ 0 ≤ col < 8 → isValidMove b row col player = Some false.
Proof.
  intros Hwf Hr Hc. unfold isValidMove.
  rewrite (readCell_past_row_end b row col Hwf Hr Hc). reflexivity.
Qed.

Lemma getFlippedDiscs_total b row col player :
  wfBoard b → is_Some (getFlippedDiscs b row col player).
Proof. intros Hwf. by apply flipLoop_total. Qed.

(** ** What the walks collect *)

Lemma elem_of_ray dr dc r c k m :
  m ∈ ray dr dc r c k →
  ∃ i, 0 ≤ i < Z.of_nat k ∧ row m = r + i * dr ∧ col m = c + i * dc.
Proof.
  revert r c. induction k as [|k IH]; intros r c Hm; simpl in Hm.
  - by apply elem_of_nil in Hm.
  - apply elem_of_cons in Hm as [->|Hm].
    + exists 0. simpl. lia.
    + destruct (IH _ _ Hm) as (i & Hi & Hr & Hc). exists (i + 1). lia.
Qed.

Lemma NoDup_ray dr dc r c k : (dr ≠ 0 ∨ dc ≠ 0) → NoDup (ray dr dc r c k).
Proof.
  intros Hd. revert r c. induction k as [|k IH]; intros r c; simpl.
  - constructor.
  - constructor; [|apply IH].
    intros (i & Hi & Hr & Hc)%elem_of_ray. simpl in Hr, Hc.
    assert ((i + 1) * dr = 0) as Hr' by lia.
    assert ((i + 1) * dc = 0) as Hc' by lia.
    apply Z.mul_eq_0 in Hr', Hc'. lia.
Qed.

Lemma length_ray dr dc r c k : length (ray dr dc r c k) = k.
Proof. revert r c. induction k as [|k IH]; intros r c; simpl; [done|]. by rewrite IH. Qed.

Lemma walkLine_spec fuel b opponent dr dc r c line line' r' c' :
  walkLine fuel b opponent dr dc r c line = Some (line', r', c') →
  ∃ k, line' = line ++ ray dr dc r c k
     ∧ r' = r + Z.of_nat k * dr ∧ c' = c + Z.of_nat k * dc
     ∧ Forall (λ m, inBounds (row m) (col m) = true
                    ∧ getCell b (row m) (col m) = Some (Disc opponent)) (ray dr dc r c k).
Proof.
  revert r c line. induction fuel as [|fuel IH]; intros r c line; simpl; [done|].
  destruct (inBounds r c) eqn:Hin.
  - destruct (getCell b r c) as [x|] eqn:Hx; [|done]. simpl.
    case_decide as Hopp.
    + intros (k & -> & -> & -> & Hall)%IH. exists (S k). simpl.
      rewrite <- app_assoc. repeat split; try lia; try done.
      constructor; [|done]. simpl. by subst x.
    + intros [= <- <- <-]. exists O. simpl. rewrite app_nil_r.
      repeat split; try lia; done.
  - intros [= <- <- <-]. exists O. simpl. rewrite app_nil_r.
    repeat split; try lia; done.
Qed.

Lemma onRay_ray row0 col0 dr dc k m :
  m ∈ ray dr dc (row0 + dr) (col0 + dc) k → onRay row0 col0 (dr, dc) m.
Proof.
  intros (i & Hi & Hr & Hc)%elem_of_ray. exists (i + 1). simpl. lia.
Qed.

Lemma onRay_direction row0 col0 d d' m :
  d ∈ directions → d' ∈ directions →
  onRay row0 col0 d m → onRay row0 col0 d' m → d = d'.
Proof.
  intros Hd Hd' (j & Hj & Hr & Hc) (j' & Hj' & Hr' & Hc').
  rewrite Hr in Hr'. rewrite Hc in Hc'. clear Hr Hc.
  unfold directions in Hd, Hd'.
  repeat (apply elem_of_cons in Hd as [->|Hd]);
    try (by apply elem_of_nil in Hd);
    repeat (apply elem_of_cons in Hd' as [->|Hd']);
    try (by apply elem_of_nil in Hd');
    simpl in Hr', Hc'; first [done | exfalso; lia].
Qed.

Lemma directions_nonzero dr dc : (dr, dc) ∈ directions → dr ≠ 0 ∨ dc ≠ 0.
Proof.
  unfold directions. intros Hd.
  repeat (apply elem_of_cons in Hd as [[= -> ->]|Hd]; [lia|]).
  by apply elem_of_nil in Hd.
Qed.

Lemma NoDup_directions : NoDup directions.
Proof. apply (bool_decide_unpack _). by vm_compute. Qed.

Lemma flipLoop_spec b player row0 col0 dirs flipped res :
  NoDup dirs → dirs ⊆ directions →
  flippedSoFar b player row0 col0 dirs flipped →
  flipLoop b player row0 col0 dirs flipped = Some res →
  flippedSoFar b player row0 col0 [] res.
Proof.
  revert flipped. induction dirs as [|[dr dc] dirs IH]; intros flipped Hnd Hsub Hacc.
  - simpl. by intros [= <-].
  - cbn [flipLoop].
    destruct (walkLine walkFuel b (opponentOf player) dr dc (row0 + dr) (col0 + dc) [])
      as [[[line r] c]|] eqn:Hw; [|done].
    cbn [mbind option_bind].
    apply walkLine_spec in Hw as (k & Hline & _ & _ & Hall). simpl in Hline. subst line.
    apply NoDup_cons in Hnd as [Hnotin Hnd].
    assert (Hd : (dr, dc) ∈ directions) by (apply Hsub; left).
    assert (Hsub' : dirs ⊆ directions) by (intros d ?; apply Hsub; by right).
    destruct (if bool_decide (0 < length (ray dr dc (row0 + dr) (col0 + dc) k))%nat
              then closedBy b player r c else Some false) as [closed|]; [|done].
    cbn [mbind option_bind]. apply IH; try done.
    destruct Hacc as [Hnd' Hacc].
    assert (Hkeep : ∀ m, m ∈ flipped →
              capturable b player m ∧ ∃ d, d ∈ directions ∧ (d ∉ dirs) ∧ onRay row0 col0 d m).
    { intros m Hm. destruct (Hacc m Hm) as (Hcap & d & Hdd & Hnin & Hon).
      split; [done|]. exists d. repeat split; try done.
      intros Hin. apply Hnin. by right. }
    destruct closed; [|by split].
    split.
    + apply NoDup_app. split; [done|]. split; [|apply NoDup_ray; by apply directions_nonzero].
      intros m Hm Hm'. destruct (Hacc m Hm) as (_ & d & Hdd & Hnin & Hon).
      apply onRay_ray in Hm'.
      assert (d = (dr, dc)) as -> by (by eapply onRay_direction).
      apply Hnin. by left.
    + intros m [Hm|Hm]%elem_of_app; [by apply Hkeep|].
      split.
      * by apply (proj1 (Forall_forall _ _) Hall).
      * exists (dr, dc). repeat split; try done. by eapply onRay_ray.
Qed.

Lemma getFlippedDiscs_spec b row0 col0 player flipped :
  getFlippedDiscs b row0 col0 player = Some flipped →
  NoDup flipped ∧ ∀ m, m ∈ flipped → capturable b player m.
Proof.
  intros H. apply flipLoop_spec in H as [Hnd Hall].
  - split; [done|]. intros m Hm. by destruct (Hall m Hm).
  - apply NoDup_directions.
  - done.
  - split; [constructor|]. intros m Hm. by apply elem_of_nil in Hm.
Qed.

(** ** The scans over the 64 cells *)

Lemma allCells_inBounds : Forall (λ rc, inBounds rc.1 rc.2 = true) allCells.
Proof. apply (bool_decide_unpack _). by vm_compute. Qed.

Lemma isValidMove_true_empty b r c player :
  isValidMove b r c player = Some true → getCell b r c = Some EMPTY.
Proof.
  unfold isValidMove. destruct (readCell b r c) as [x|] eqn:Hread; [|done].
  cbn [mbind option_bind]. case_decide as Hx; [done|]. intros _.
  apply readCell_getCell. rewrite Hread. f_equal.
  by destruct (decide (x = Some EMPTY)).
Qed.

Lemma scanMoves_spec b player cells moves :
  wfBoard b → Forall (λ rc, inBounds rc.1 rc.2 = true) cells →
  scanMoves b player cells moves
  = Some (moves ++ (toMove <$> filter (λ rc, isValidMove b rc.1 rc.2 player = Some true) cells)).
Proof.
  intros Hwf. revert moves. induction cells as [|[r c] cells IH]; intros moves Hall.
  - simpl. by rewrite app_nil_r.
  - apply Forall_cons in Hall as [Hin Hall]. simpl in Hin.
    cbn [scanMoves].
    destruct (isValidMove_total b r c player Hwf Hin) as [v Hv].
    rewrite Hv. cbn [mbind option_bind]. rewrite IH by done.
    rewrite filter_cons. simpl. rewrite Hv.
    destruct v.
    + rewrite decide_True by done. simpl. by rewrite <- app_assoc.
    + rewrite decide_False by done. done.
Qed.

Lemma findValidMoves_spec b player :
  wfBoard b → findValidMoves b player = Some (toMove <$> legalCells b player).
Proof.
  intros Hwf. unfold findValidMoves.
  rewrite scanMoves_spec; [done|done|apply allCells_inBounds].
Qed.

Lemma findValidMoves_elem b player moves m :
  wfBoard b → findValidMoves b player = Some moves →
  m ∈ moves ↔ (inBounds (row m) (col m) = true ∧ isValidMove b (row m) (col m) player = Some true).
Proof.
  intros Hwf. rewrite findValidMoves_spec by done. intros [= <-].
  unfold legalCells. rewrite list_elem_of_fmap. split.
  - intros ([r c] & -> & [Hv Hin]%list_elem_of_filter). simpl in *. split; [|done].
    by apply (proj1 (Forall_forall _ _) allCells_inBounds (r, c)).
  - intros [Hin Hv]. exists (row m, col m). split; [by destruct m|].
    apply list_elem_of_filter. split; [done|].
    apply inBounds_spec in Hin. unfold allCells.
    apply list_elem_of_bind. exists (row m). split; [|apply elem_of_seqZ; lia].
    apply list_elem_of_bind. exists (col m). split; [|apply elem_of_seqZ; lia].
    by apply list_elem_of_singleton.
Qed.

(** On a well-formed board the row-major scan reads exactly the cells of
    the board, row after row. *)
Lemma allCells_reads (b : Board) :
  wfBoard b → (λ rc, getCell b rc.1 rc.2) <$> allCells = Some <$> concat b.
Proof.
  intros [Hl Hr].
  do 9 (destruct b as [|? b]; [try discriminate Hl|]); [|discriminate Hl].
  repeat match goal with
         | H : Forall _ (_ :: _) |- _ => apply Forall_cons in H as [? H]
         end.
  repeat match goal with
         | H : length ?l = 8%nat |- _ =>
             do 9 (destruct l as [|? l]; [try discriminate H|]); [|discriminate H]; clear H
         end.
  reflexivity.
Qed.

Lemma scoreLoop_reads (b : Board) cells vals black white :
  (λ rc, getCell b rc.1 rc.2) <$> cells = Some <$> vals →
  scoreLoop b cells black white
  = Some (black + Z.of_nat (length (filter (λ y, y = Disc BLACK) vals)),
          white + Z.of_nat (length (filter (λ y, y = Disc WHITE) vals))).
Proof.
  revert vals black white. induction cells as [|[r c] cells IH]; intros vals black white Hv.
  - destruct vals; [|done]. simpl. by rewrite !Z.add_0_r.
  - destruct vals as [|x vals]; [done|]. simpl in Hv. injection Hv as Hx Hv.
    cbn [scoreLoop]. rewrite Hx. cbn [mbind option_bind].
    rewrite !filter_cons.
    destruct (decide (x = Disc BLACK)) as [->|Hb].
    + rewrite (IH vals) by done. rewrite decide_False by done. simpl length.
      f_equal. f_equal; lia.
    + destruct (decide (x = Disc WHITE)) as [->|Hw].
      * rewrite (IH vals) by done. simpl length. f_equal. f_equal; lia.
      * by rewrite (IH vals).
Qed.

Lemma getScore_spec b :
  wfBoard b → getScore b = Some (countCell (Disc BLACK) b, countCell (Disc WHITE) b).
Proof.
  intros Hwf. unfold getScore.
  by rewrite (scoreLoop_reads b allCells (concat b)) by by apply allCells_reads.
Qed.

Lemma determineWinner_spec b : wfBoard b → determineWinner b = Some (moreDiscs b).
Proof.
  intros Hwf. unfold determineWinner, moreDiscs. rewrite getScore_spec by done.
  cbn [mbind option_bind]. by repeat case_match.
Qed.

Lemma determineWinner_total b : wfBoard b → is_Some (determineWinner b).
Proof.
  intros Hwf. unfold determineWinner. rewrite getScore_spec by done.
  cbn [mbind option_bind]. by repeat case_match.
Qed.

(** ** Counting discs across a write *)

Lemma count_insert (cells : list Cell) (i : nat) (old v x : Cell) :
  cells !! i = Some old →
  Z.of_nat (length (filter (λ y, y = x) (<[i := v]> cells)))
  = Z.of_nat (length (filter (λ y, y = x) cells)) - indicator (old = x) + indicator (v = x).
Proof.
  revert i. induction cells as [|y cells IH]; intros i Hi; [done|].
  destruct i as [|i]; simpl in Hi.
  - injection Hi as ->. simpl. rewrite !filter_cons. unfold indicator.
    repeat case_decide; simpl length; lia.
  - change (<[S i:=v]> (y :: cells)) with (y :: <[i:=v]> cells).
    rewrite !filter_cons. specialize (IH i Hi).
    destruct (decide (y = x)); simpl length; lia.
Qed.

Lemma count_concat_insert (b : Board) (i : nat) (cells cells' : list Cell) (x : Cell) :
  b !! i = Some cells →
  Z.of_nat (length (filter (λ y, y = x) (concat (<[i := cells']> b))))
  = Z.of_nat (length (filter (λ y, y = x) (concat b)))
    - Z.of_nat (length (filter (λ y, y = x) cells))
    + Z.of_nat (length (filter (λ y, y = x) cells')).
Proof.
  revert i. induction b as [|row0 b IH]; intros i Hi; [done|].
  destruct i as [|i]; simpl in Hi.
  - injection Hi as ->. change (<[0%nat:=cells']> (cells :: b)) with (cells' :: b).
    simpl concat. rewrite !filter_app, !length_app. lia.
  - change (<[S i:=cells']> (row0 :: b)) with (row0 :: <[i:=cells']> b).
    simpl concat. rewrite !filter_app, !length_app. specialize (IH i Hi). lia.
Qed.

Lemma countCell_setCell b r c v b' old x :
  getCell b r c = Some old → setCell b r c v = Some b' →
  countCell x b' = countCell x b - indicator (old = x) + indicator (v = x).
Proof.
  intros (_ & _ & cells & Hc & Hold)%getCell_inv
         (_ & _ & cells' & Hc' & _ & ->)%setCell_inv.
  rewrite Hc in Hc'. injection Hc' as <-. unfold countCell.
  rewrite (count_concat_insert b _ cells) by done.
  rewrite (count_insert cells _ old) by done. lia.
Qed.

(** ** flipAll *)

Lemma flipAll_total b player flipped :
  wfBoard b → Forall (λ m, inBounds (row m) (col m) = true) flipped →
  ∃ b', flipAll b player flipped = Some b' ∧ wfBoard b'.
Proof.
  revert b. induction flipped as [|m flipped IH]; intros b Hwf Hall.
  - by exists b.
  - apply Forall_cons in Hall as [Hin Hall]. cbn [flipAll].
    destruct (setCell_Some b (row m) (col m) (Disc player) Hwf Hin) as [b1 Hb1].
    rewrite Hb1. cbn [mbind option_bind]. apply IH; [|done]. by eapply setCell_wf.
Qed.

Lemma flipAll_wf b player flipped b' :
  wfBoard b → flipAll b player flipped = Some b' → wfBoard b'.
Proof.
  revert b. induction flipped as [|m flipped IH]; intros b Hwf; cbn [flipAll].
  - by intros [= <-].
  - destruct (setCell b (row m) (col m) (Disc player)) as [b1|] eqn:Hb1; [|done].
    cbn [mbind option_bind]. apply IH. by eapply setCell_wf.
Qed.

(** Flipping distinct cells held by the opponent moves one disc per cell
    from the opponent's count to the player's. *)
Lemma flipAll_count b player flipped b' :
  NoDup flipped →
  (∀ m, m ∈ flipped → getCell b (row m) (col m) = Some (Disc (opponentOf player))) →
  flipAll b player flipped = Some b' →
  countCell (Disc player) b' = countCell (Disc player) b + Z.of_nat (length flipped)
  ∧ countCell (Disc (opponentOf player)) b'
    = countCell (Disc (opponentOf player)) b - Z.of_nat (length flipped)
  ∧ countCell EMPTY b' = countCell EMPTY b.
Proof.
  revert b. induction flipped as [|m flipped IH]; intros b Hnd Hopp; cbn [flipAll].
  - intros [= <-]. simpl. lia.
  - destruct (setCell b (row m) (col m) (Disc player)) as [b1|] eqn:Hb1; [|done].
    cbn [mbind option_bind]. intros Hf.
    apply NoDup_cons in Hnd as [Hnotin Hnd].
    assert (Hm : getCell b (row m) (col m) = Some (Disc (opponentOf player)))
      by (apply Hopp; left).
    apply IH in Hf as (H1 & H2 & H3); [|done|].
    + rewrite H1, H2, H3.
      rewrite !(countCell_setCell b _ _ _ b1 _ _ Hm Hb1).
      unfold indicator. simpl length.
      destruct player; repeat case_decide; try done; lia.
    + intros m' Hm'. rewrite (getCell_setCell b _ _ _ b1) by done.
      rewrite decide_False; [apply Hopp; by right|].
      intros [Hr Hc]. apply Hnotin. destruct m, m'; simpl in *; by subst.
Qed.

(** ** makeMove, step by step *)

#[local] Opaque isValidMove getFlippedDiscs findValidMoves getScore determineWinner.

Ltac proj_simpl :=
  cbn [board currentPlayer gameOver winner lastMove flippedDiscs validMoves moveHistory] in *.

Lemma makeMove_true g r c g' :
  makeMove g r c = Some (true, g') →
  gameOver g = false ∧
  isValidMove (board g) r c (currentPlayer g) = Some true ∧
  ∃ flipped b1,
    getFlippedDiscs (board g) r c (currentPlayer g) = Some flipped ∧
    setCell (board g) r c (Disc (currentPlayer g)) = Some b1 ∧
    flipAll b1 (currentPlayer g) flipped = Some (board g') ∧
    lastMove g' = Some (mkMove r c) ∧
    flippedDiscs g' = flipped ∧
    moveHistory g' = moveHistory g ++ [mkEntry r c (currentPlayer g) flipped] ∧
    ∃ opponentMoves,
      findValidMoves (board g') (opponentOf (currentPlayer g)) = Some opponentMoves ∧
      match opponentMoves with
      | _ :: _ =>
          currentPlayer g' = opponentOf (currentPlayer g) ∧ validMoves g' = opponentMoves
          ∧ gameOver g' = false ∧ winner g' = winner g
      | [] =>
          ∃ currentMoves,
            findValidMoves (board g') (currentPlayer g) = Some currentMoves ∧
            currentPlayer g' = currentPlayer g ∧
            match currentMoves with
            | _ :: _ => validMoves g' = currentMoves ∧ gameOver g' = false ∧ winner g' = winner g
            | [] => validMoves g' = validMoves g ∧ gameOver g' = true
                    ∧ determineWinner (board g') = Some (winner g')
            end
      end.
Proof.
  unfold makeMove. destruct (gameOver g) eqn:Hover; [done|].
  destruct (isValidMove (board g) r c (currentPlayer g)) as [[|]|] eqn:Hlegal; [|done|done].
  cbn [mbind option_bind negb].
  destruct (getFlippedDiscs (board g) r c (currentPlayer g)) as [flipped|] eqn:Hfl; [|done].
  cbn [mbind option_bind].
  destruct (setCell (board g) r c (Disc (currentPlayer g))) as [b1|] eqn:Hb1; [|done].
  cbn [mbind option_bind].
  destruct (flipAll b1 (currentPlayer g) flipped) as [b2|] eqn:Hb2; [|done].
  cbn [mbind option_bind]. cbn [currentPlayer gameOver winner lastMove flippedDiscs validMoves moveHistory].
  destruct (findValidMoves b2 (opponentOf (currentPlayer g))) as [om|] eqn:Hom; [|done].
  cbn [mbind option_bind].
  destruct om as [|m om].
  - rewrite bool_decide_eq_false_2 by (simpl; lia).
    destruct (findValidMoves b2 (currentPlayer g)) as [cm|] eqn:Hcm; [|done].
    cbn [mbind option_bind].
    destruct cm as [|m cm].
    + rewrite bool_decide_eq_false_2 by (simpl; lia).
      destruct (determineWinner b2) as [w|] eqn:Hw; [|done].
      cbn [mbind option_bind]. intros [= <-]. proj_simpl.
      repeat split; try done. exists flipped, b1. repeat split; try done.
      exists []. split; [exact Hom|]. exists []. split; [exact Hcm|].
      repeat split; first [reflexivity | exact Hw].
    + rewrite bool_decide_eq_true_2 by (simpl; lia).
      intros [= <-]. proj_simpl.
      repeat split; try done. exists flipped, b1. repeat split; try done.
      exists []. split; [exact Hom|]. exists (m :: cm). split; [exact Hcm|].
      repeat split; reflexivity.
  - rewrite bool_decide_eq_true_2 by (simpl; lia).
    intros [= <-]. proj_simpl.
    repeat split; try done. exists flipped, b1. repeat split; try done.
    exists (m :: om). split; [exact Hom|]. repeat split; reflexivity.
Qed.

Lemma makeMove_false g r c g' :
  makeMove g r c = Some (false, g') →
  g' = g ∧ (gameOver g = true ∨ isValidMove (board g) r c (currentPlayer g) = Some false).
Proof.
  unfold makeMove. destruct (gameOver g) eqn:Hover.
  { intros [= <-]. split; [done|by left]. }
  destruct (isValidMove (board g) r c (currentPlayer g)) as [[|]|] eqn:Hlegal; [|..].
  - cbn [mbind option_bind negb]. intros H. exfalso.
    repeat match type of H with
           | context [mbind _ ?x] => destruct x; cbn [mbind option_bind] in H; [|done]
           | context [bool_decide ?P] => destruct (bool_decide P)
           end; done.
  - cbn [mbind option_bind negb]. intros [= <-]. split; [done|by right].
  - done.
Qed.

Lemma getFlippedDiscs_inBounds b r c player flipped :
  getFlippedDiscs b r c player = Some flipped →
  Forall (λ m, inBounds (row m) (col m) = true) flipped.
Proof.
  intros [_ Hall]%getFlippedDiscs_spec. apply Forall_forall. intros m Hm.
  by destruct (Hall m Hm).
Qed.

Lemma findValidMoves_total b player : wfBoard b → is_Some (findValidMoves b player).
Proof. intros Hwf. by rewrite findValidMoves_spec. Qed.

Lemma findValidMoves_inBounds b player moves :
  wfBoard b → findValidMoves b player = Some moves →
  Forall (λ m, inBounds (row m) (col m) = true) moves.
Proof.
  intros Hwf Hm. apply Forall_forall. intros m Hin.
  by apply (findValidMoves_elem b player moves m Hwf Hm) in Hin as [? _].
Qed.

(** On a well-formed board, a call with coordinates of the grid returns. *)
Lemma makeMove_total g r c :
  wfBoard (board g) → inBounds r c = true →
  ∃ ok g', makeMove g r c = Some (ok, g').
Proof.
  intros Hwf Hin. unfold makeMove. destruct (gameOver g); [by eauto|].
  destruct (isValidMove_total (board g) r c (currentPlayer g) Hwf Hin) as [legal ->].
  cbn [mbind option_bind]. destruct legal; cbn [negb]; [|by eauto].
  destruct (getFlippedDiscs_total (board g) r c (currentPlayer g) Hwf) as [flipped Hfl].
  rewrite Hfl. cbn [mbind option_bind].
  destruct (setCell_Some (board g) r c (Disc (currentPlayer g)) Hwf Hin) as [b1 Hb1].
  rewrite Hb1. cbn [mbind option_bind].
  destruct (flipAll_total b1 (currentPlayer g) flipped) as (b2 & Hb2 & Hwf2).
  { by eapply setCell_wf. } { by eapply getFlippedDiscs_inBounds. }
  rewrite Hb2. cbn [mbind option_bind].
  cbn [currentPlayer gameOver winner lastMove flippedDiscs validMoves moveHistory].
  destruct (findValidMoves_total b2 (opponentOf (currentPlayer g)) Hwf2) as [om ->].
  cbn [mbind option_bind]. case_bool_decide; [by eauto|].
  destruct (findValidMoves_total b2 (currentPlayer g) Hwf2) as [cm ->].
  cbn [mbind option_bind]. case_bool_decide; [by eauto|].
  destruct (determineWinner_total b2 Hwf2) as [w ->].
  cbn [mbind option_bind]. by eauto.
Qed.

Lemma makeMove_wfBoard g r c ok g' :
  wfBoard (board g) → makeMove g r c = Some (ok, g') → wfBoard (board g').
Proof.
  intros Hwf Hm. destruct ok.
  - apply makeMove_true in Hm as (_ & _ & flipped & b1 & _ & Hb1 & Hb2 & _).
    eapply flipAll_wf; [|done]. by eapply setCell_wf.
  - by apply makeMove_false in Hm as [-> _].
Qed.

Lemma makeMove_wfGame g r c ok g' :
  wfGame g → makeMove g r c = Some (ok, g') → wfGame g'.
Proof.
  intros [Hwf Hvm] Hm.
  pose proof (makeMove_wfBoard _ _ _ _ _ Hwf Hm) as Hwf'. split; [done|].
  destruct ok.
  - apply makeMove_true in Hm
      as (_ & _ & flipped & b1 & _ & _ & _ & _ & _ & _ & om & Hom & Hcase).
    destruct om as [|m om].
    + destruct Hcase as (cm & Hcm & _ & Hcase). destruct cm as [|m cm].
      * destruct Hcase as (-> & _). done.
      * destruct Hcase as (-> & _). by eapply findValidMoves_inBounds.
    + destruct Hcase as (_ & -> & _). by eapply findValidMoves_inBounds.
  - by apply makeMove_false in Hm as [-> _].
Qed.

Lemma newGame_val : newGame = Some initialGame.
Proof. vm_compute. reflexivity. Qed.

Lemma newGame_wf g : newGame = Some g → wfGame g.
Proof.
  rewrite newGame_val. intros [= <-]. split.
  - apply wfBoardb_spec. by vm_compute.
  - apply (bool_decide_unpack _). by vm_compute.
Qed.

Lemma reachable_wfGame g : reachable g → wfGame g.
Proof.
  induction 1 as [g Hg|g r c g' _ IH Hm].
  - by apply newGame_wf.
  - by eapply makeMove_wfGame.
Qed.

(** While the game is not over, the cache holds the legal moves of the
    player to move, and there is at least one. *)
Lemma reachable_cache g :
  reachable g → gameOver g = false →
  findValidMoves (board g) (currentPlayer g) = Some (validMoves g) ∧ validMoves g ≠ [].
Proof.
  induction 1 as [g Hg|g r c g' Hreach IH Hm]; intros Hover.
  - rewrite newGame_val in Hg. injection Hg as <-. by vm_compute.
  - apply makeMove_true in Hm
      as (_ & _ & flipped & b1 & _ & _ & _ & _ & _ & _ & om & Hom & Hcase).
    destruct om as [|m om].
    + destruct Hcase as (cm & Hcm & Hcur & Hcase). destruct cm as [|m cm].
      * destruct Hcase as (_ & Hover' & _). congruence.
      * destruct Hcase as (-> & _). by rewrite Hcur.
    + destruct Hcase as (Hcur & -> & _). by rewrite Hcur.
Qed.

Lemma countCell_total b :
  wfBoard b →
  countCell (Disc BLACK) b + countCell (Disc WHITE) b + countCell EMPTY b = 64.
Proof.
  intros [Hl Hr]. unfold countCell.
  assert (Hlen : length (concat b) = 64%nat).
  { do 9 (destruct b as [|? b]; [try discriminate Hl|]); [|discriminate Hl].
    repeat match goal with
           | H : Forall _ (_ :: _) |- _ => apply Forall_cons in H as [? H]
           end.
    simpl. rewrite !length_app. simpl. lia. }
  assert (Hsum : ∀ l : list Cell,
             Z.of_nat (length (filter (λ y, y = Disc BLACK) l))
             + Z.of_nat (length (filter (λ y, y = Disc WHITE) l))
             + Z.of_nat (length (filter (λ y, y = EMPTY) l)) = Z.of_nat (length l)).
  { clear. intros l. induction l as [|x l IH]; [done|].
    rewrite !filter_cons.
    destruct x as [|[|]]; repeat case_decide; try done; simpl length; lia. }
  rewrite Hsum, Hlen. done.
Qed.

(** [makeMove] off the end of a row of the grid returns [false] and
    leaves the object as it was; nothing is raised. *)
Lemma makeMove_past_row_end g row col :
  wfBoard (board g) → 0 ≤ row < 8 → ¬ 0 ≤ col < 8 → makeMove g row col = Some (false, g).
Proof.
  intros Hwf Hr Hc. unfold makeMove. destruct (gameOver g); [reflexivity|].
  rewrite (isValidMove_past_row_end (board g) row col (currentPlayer g) Hwf Hr Hc).
  reflexivity.
Qed.

(** ** The rules engine: the claims *)

Lemma flipAll_keeps b player flipped b' r c :
  getCell b r c = Some (Disc player) →
  flipAll b player flipped = Some b' →
  getCell b' r c = Some (Disc player).
Proof.
  revert b. induction flipped as [|m flipped IH]; intros b Hrc; cbn [flipAll].
  - by intros [= <-].
  - destruct (setCell b (row m) (col m) (Disc player)) as [b1|] eqn:Hb1; [|done].
    cbn [mbind option_bind]. apply IH.
    rewrite (getCell_setCell b _ _ _ b1) by done. by case_decide.
Qed.

Lemma playFrom_reachable g ms g' :
  reachable g → playFrom g ms = Some g' → reachable g'.
Proof.
  revert g. induction ms as [|[r c] ms IH]; intros g Hg; cbn [playFrom].
  - by intros [= <-].
  - destruct (makeMove g r c) as [[[|] g1]|] eqn:Hm; cbn [mbind option_bind]; [|done|done].
    apply IH. by eapply reachable_move.
Qed.

Lemma play_reachable ms g : play ms = Some g → reachable g.
Proof.
  unfold play. rewrite newGame_val. cbn [mbind option_bind].
  apply playFrom_reachable. apply reachable_new, newGame_val.
Qed.

(** C10. On an 8×8 board and for a cell of the grid, [isValidMove] and
    [getFlippedDiscs] never index outside the grid and always return: each
    walk tests the bounds before it reads a cell, whatever cell it starts
    from, and ends within its fuel. *)
Theorem C10_reads_stay_on_grid (b : Board) (player : Player) (row col : Z) :
  wfBoard b → 0 ≤ row < 8 → 0 ≤ col < 8 →
  is_Some (isValidMove b row col player)
  ∧ is_Some (getFlippedDiscs b row col player)
  ∧ ∀ dr dc r c found line, (dr, dc) ∈ directions →
      is_Some (walkFound walkFuel b (opponentOf player) dr dc r c found)
      ∧ is_Some (walkLine walkFuel b (opponentOf player) dr dc r c line).
Proof.
  intros Hwf Hr Hc. split; [|split].
  - apply isValidMove_total; [done|]. apply inBounds_spec. lia.
  - by apply getFlippedDiscs_total.
  - intros dr dc r c found line Hd. split.
    + apply walkFound_total; try done; [rewrite walkFuel_val; lia|].
      by apply room_walkFuel.
    + apply walkLine_total; try done; [rewrite walkFuel_val; lia|].
      by apply room_walkFuel.
Qed.

Lemma C10_reads_stay_on_grid_witness :
  is_Some (isValidMove (board initialGame) 2 3 BLACK)
  ∧ is_Some (getFlippedDiscs (board initialGame) 2 3 BLACK)
  ∧ ∀ dr dc r c found line, (dr, dc) ∈ directions →
      is_Some (walkFound walkFuel (board initialGame) (opponentOf BLACK) dr dc r c found)
      ∧ is_Some (walkLine walkFuel (board initialGame) (opponentOf BLACK) dr dc r c line).
Proof.
  apply (C10_reads_stay_on_grid (board initialGame) BLACK 2 3).
  - apply wfBoardb_spec. vm_compute. reflexivity.
  - lia.
  - lia.
Defined.

(** C7. On an 8×8 board and for a cell of the grid, [makeMove] returns
    without a fault; it returns [false] and leaves the object as it was
    exactly when the game is over or the move is illegal for the current
    player, and [true] otherwise, in which case the disc is placed, the
    move recorded and the history extended. *)
Theorem C7_makeMove_all_or_nothing (g : OthelloGame) (r c : Z) :
  wfBoard (board g) → 0 ≤ r < 8 → 0 ≤ c < 8 →
  ∃ ok g' legal,
    makeMove g r c = Some (ok, g')
    ∧ isValidMove (board g) r c (currentPlayer g) = Some legal
    ∧ ((ok = false ∧ g' = g) ↔ (gameOver g = true ∨ legal = false))
    ∧ (ok = true ↔ (gameOver g = false ∧ legal = true))
    ∧ (ok = true →
         getCell (board g') r c = Some (Disc (currentPlayer g))
         ∧ lastMove g' = Some (mkMove r c)
         ∧ length (moveHistory g') = S (length (moveHistory g))).
Proof.
  intros Hwf Hr Hc.
  assert (Hin : inBounds r c = true) by (apply inBounds_spec; lia).
  destruct (makeMove_total g r c Hwf Hin) as (ok & g' & Hm).
  destruct (isValidMove_total (board g) r c (currentPlayer g) Hwf Hin) as [legal Hlegal].
  exists ok, g', legal. split; [done|]. split; [done|].
  destruct ok.
  - pose proof (makeMove_true _ _ _ _ Hm)
      as (Hover & Hv & flipped & b1 & _ & Hb1 & Hb2 & Hlast & _ & Hhist & _).
    rewrite Hv in Hlegal. injection Hlegal as <-.
    split; [|split].
    + split; [by intros [? _]|]. intros [?|?]; congruence.
    + done.
    + intros _. split; [|split].
      * eapply flipAll_keeps; [|done].
        rewrite (getCell_setCell (board g) _ _ _ b1) by done. by rewrite decide_True.
      * done.
      * rewrite Hhist, length_app. simpl. lia.
  - pose proof (makeMove_false _ _ _ _ Hm) as [-> Hwhy].
    split; [|split].
    + split; [intros _|done]. destruct Hwhy as [?|Hv]; [by left|right]. congruence.
    + split; [done|]. intros [Hover ->]. destruct Hwhy; congruence.
    + done.
Qed.

Lemma C7_makeMove_all_or_nothing_witness :
  ∃ ok g' legal,
    makeMove initialGame 2 3 = Some (ok, g')
    ∧ isValidMove (board initialGame) 2 3 (currentPlayer initialGame) = Some legal
    ∧ ((ok = false ∧ g' = initialGame) ↔ (gameOver initialGame = true ∨ legal = false))
    ∧ (ok = true ↔ (gameOver initialGame = false ∧ legal = true))
    ∧ (ok = true →
         getCell (board g') 2 3 = Some (Disc (currentPlayer initialGame))
         ∧ lastMove g' = Some (mkMove 2 3)
         ∧ length (moveHistory g') = S (length (moveHistory initialGame))).
Proof.
  apply (C7_makeMove_all_or_nothing initialGame 2 3).
  - apply wfBoardb_spec. vm_compute. reflexivity.
  - lia.
  - lia.
Defined.

(** C2. After a successful [makeMove], on the board after the flips: if the
    opponent has a legal move the turn goes to the opponent; otherwise, if
    the mover has one, the mover plays again; otherwise the game is over
    and the winner is the player with strictly more discs, none on equal
    counts.  The game is over exactly when both have no legal move. *)
Theorem C2_turn_advance (g : OthelloGame) (r c : Z) (g' : OthelloGame) :
  wfBoard (board g) → makeMove g r c = Some (true, g') →
  ∃ opponentMoves moverMoves,
    findValidMoves (board g') (opponentOf (currentPlayer g)) = Some opponentMoves
    ∧ findValidMoves (board g') (currentPlayer g) = Some moverMoves
    ∧ match opponentMoves, moverMoves with
      | _ :: _, _ => currentPlayer g' = opponentOf (currentPlayer g) ∧ gameOver g' = false
      | [], _ :: _ => currentPlayer g' = currentPlayer g ∧ gameOver g' = false
      | [], [] => gameOver g' = true ∧ winner g' = moreDiscs (board g')
      end
    ∧ (gameOver g' = true ↔ (opponentMoves = [] ∧ moverMoves = [])).
Proof.
  intros Hwf Hm.
  pose proof (makeMove_wfBoard _ _ _ _ _ Hwf Hm) as Hwf'.
  apply makeMove_true in Hm
    as (Hover & _ & flipped & b1 & _ & _ & _ & _ & _ & _ & om & Hom & Hcase).
  destruct (findValidMoves_total (board g') (currentPlayer g) Hwf') as [mm Hmm].
  exists om, mm. split; [done|]. split; [done|].
  destruct om as [|m om].
  - destruct Hcase as (cm & Hcm & Hcur & Hcase).
    rewrite Hmm in Hcm. injection Hcm as <-.
    destruct mm as [|m mm].
    + destruct Hcase as (_ & Hover' & Hw). split; [|done]. split; [done|].
      rewrite determineWinner_spec in Hw by done. congruence.
    + destruct Hcase as (_ & Hover' & _). split; [done|].
      rewrite Hover'. split; [done|]. by intros [_ ?].
  - destruct Hcase as (Hcur & _ & Hover' & _). split; [done|].
    rewrite Hover'. split; [done|]. by intros [? _].
Qed.

Lemma C2_turn_advance_witness :
  ∃ opponentMoves moverMoves,
    findValidMoves (board afterOpening) (opponentOf (currentPlayer initialGame))
    = Some opponentMoves
    ∧ findValidMoves (board afterOpening) (currentPlayer initialGame) = Some moverMoves
    ∧ match opponentMoves, moverMoves with
      | _ :: _, _ =>
          currentPlayer afterOpening = opponentOf (currentPlayer initialGame)
          ∧ gameOver afterOpening = false
      | [], _ :: _ =>
          currentPlayer afterOpening = currentPlayer initialGame ∧ gameOver afterOpening = false
      | [], [] => gameOver afterOpening = true ∧ winner afterOpening = moreDiscs (board afterOpening)
      end
    ∧ (gameOver afterOpening = true ↔ (opponentMoves = [] ∧ moverMoves = [])).
Proof.
  apply (C2_turn_advance initialGame 2 3 afterOpening).
  - apply wfBoardb_spec. vm_compute. reflexivity.
  - vm_compute. reflexivity.
Defined.

(** C6. A successful [makeMove] from a reachable state adds to the mover's
    discs one plus the number of cells of [getFlippedDiscs] on the board
    before the move, removes that number from the opponent's, and leaves
    64 cells in all; the counts are those of [getScore]. *)
Theorem C6_disc_counts (g : OthelloGame) (r c : Z) (g' : OthelloGame) (flipped : list Move) :
  reachable g → makeMove g r c = Some (true, g') →
  getFlippedDiscs (board g) r c (currentPlayer g) = Some flipped →
  let mover := currentPlayer g in
  countCell (Disc mover) (board g')
  = countCell (Disc mover) (board g) + 1 + Z.of_nat (length flipped)
  ∧ countCell (Disc (opponentOf mover)) (board g')
    = countCell (Disc (opponentOf mover)) (board g) - Z.of_nat (length flipped)
  ∧ countCell (Disc BLACK) (board g') + countCell (Disc WHITE) (board g')
    + countCell EMPTY (board g') = 64
  ∧ getScore (board g) = Some (countCell (Disc BLACK) (board g), countCell (Disc WHITE) (board g))
  ∧ getScore (board g') = Some (countCell (Disc BLACK) (board g'), countCell (Disc WHITE) (board g')).
Proof.
  intros Hreach Hm Hfl mover.
  pose proof (reachable_wfGame g Hreach) as [Hwf _].
  pose proof (makeMove_wfBoard _ _ _ _ _ Hwf Hm) as Hwf'.
  apply makeMove_true in Hm
    as (_ & Hv & flipped' & b1 & Hfl' & Hb1 & Hb2 & _).
  rewrite Hfl in Hfl'. injection Hfl' as <-.
  destruct (getFlippedDiscs_spec _ _ _ _ _ Hfl) as [Hnd Hcap].
  assert (Hempty : getCell (board g) r c = Some EMPTY).
  { by eapply isValidMove_true_empty. }
  assert (Hopp : ∀ m, m ∈ flipped →
            getCell b1 (row m) (col m) = Some (Disc (opponentOf mover))).
  { intros m Hm. destruct (Hcap m Hm) as [_ Hc].
    rewrite (getCell_setCell (board g) _ _ _ b1) by done.
    case_decide as Heq; [|done]. destruct Heq as [Hr Hc']. rewrite Hr, Hc' in Hc. congruence. }
  destruct (flipAll_count b1 mover flipped (board g') Hnd Hopp Hb2) as (H1 & H2 & H3).
  rewrite H1, H2.
  rewrite !(countCell_setCell (board g) _ _ _ b1 _ _ Hempty Hb1).
  repeat split.
  - unfold indicator. subst mover.
    destruct (currentPlayer g); repeat case_decide; try done; lia.
  - unfold indicator. subst mover.
    destruct (currentPlayer g); repeat case_decide; try done; simpl in *; lia.
  - by apply countCell_total.
  - by apply getScore_spec.
  - by apply getScore_spec.
Qed.

Lemma C6_disc_counts_witness :
  countCell (Disc BLACK) (board afterOpening)
  = countCell (Disc BLACK) (board initialGame) + 1 + Z.of_nat (length [mkMove 3 3])
  ∧ countCell (Disc (opponentOf BLACK)) (board afterOpening)
    = countCell (Disc (opponentOf BLACK)) (board initialGame) - Z.of_nat (length [mkMove 3 3])
  ∧ countCell (Disc BLACK) (board afterOpening) + countCell (Disc WHITE) (board afterOpening)
    + countCell EMPTY (board afterOpening) = 64
  ∧ getScore (board initialGame)
    = Some (countCell (Disc BLACK) (board initialGame), countCell (Disc WHITE) (board initialGame))
  ∧ getScore (board afterOpening)
    = Some (countCell (Disc BLACK) (board afterOpening), countCell (Disc WHITE) (board afterOpening)).
Proof.
  apply (C6_disc_counts initialGame 2 3 afterOpening [mkMove 3 3]).
  - apply reachable_new. vm_compute. reflexivity.
  - vm_compute. reflexivity.
  - vm_compute. reflexivity.
Defined.

(** The final position of the game played by [finishedGame]: nine moves
    after which neither player can move. *)
Lemma play_finishedGame :
  play finishedGame = Some finishedState.
Proof. vm_compute. reflexivity. Qed.

(** While a game lasts the cache is the list of legal moves of the player
    to move; once it is over the cache still holds the moves of the
    position before the last move, so it is never empty. *)
Lemma cache_after_game_over g :
  reachable g → gameOver g = true →
  validMoves g ≠ [] ∧ findValidMoves (board g) (currentPlayer g) = Some [].
Proof.
  induction 1 as [g Hg|g r c g' Hreach IH Hm]; intros Hover.
  - rewrite newGame_val in Hg. by injection Hg as <-.
  - pose proof (makeMove_true _ _ _ _ Hm)
      as (Hover0 & _ & flipped & b1 & _ & _ & _ & _ & _ & _ & om & Hom & Hcase).
    destruct (reachable_cache g Hreach Hover0) as [_ Hne].
    destruct om as [|m om].
    + destruct Hcase as (cm & Hcm & Hcur & Hcase). destruct cm as [|m cm].
      * destruct Hcase as (-> & _ & _). rewrite Hcur. done.
      * destruct Hcase as (_ & ? & _). congruence.
    + destruct Hcase as (_ & _ & ? & _). congruence.
Qed.

(** C1 (failing input). After the nine moves of [finishedGame] the game is
    over and the player to move has no legal move, yet the cache still
    lists five cells. *)
Theorem C1_cache_stale_after_game_over :
  play finishedGame = Some finishedState
  ∧ reachable finishedState
  ∧ gameOver finishedState = true
  ∧ findValidMoves (board finishedState) (currentPlayer finishedState) = Some []
  ∧ validMoves finishedState
    = [mkMove 1 5; mkMove 2 5; mkMove 3 5; mkMove 4 5; mkMove 5 5].
Proof.
  split; [exact play_finishedGame|]. split; [exact (play_reachable _ _ play_finishedGame)|].
  repeat split; vm_compute; reflexivity.
Qed.

(** ** evaluate *)

Lemma weightAt_allCells :
  Forall (λ rc, weightAt rc.1 rc.2 = Some (specWeight rc.1 rc.2)) allCells.
Proof. apply (bool_decide_unpack _). by vm_compute. Qed.

Lemma held_Some p q y :
  held p q (Some y)
  = if decide (y = Disc p) then 1 else if decide (y = Disc q) then -1 else 0.
Proof. unfold held. repeat case_decide; congruence. Qed.

Lemma positionLoop_spec b p q cells evaluation :
  wfBoard b →
  Forall (λ rc, inBounds rc.1 rc.2 = true) cells →
  Forall (λ rc, weightAt rc.1 rc.2 = Some (specWeight rc.1 rc.2)) cells →
  positionLoop b p q cells evaluation
  = Some (evaluation + sumOver cells (λ r c, held p q (getCell b r c) * specWeight r c)).
Proof.
  intros Hwf. revert evaluation.
  induction cells as [|[r c] cells IH]; intros evaluation Hin Hw.
  - simpl. by rewrite Z.add_0_r.
  - apply Forall_cons in Hin as [Hrc Hin]. apply Forall_cons in Hw as [Hwrc Hw].
    simpl in Hrc, Hwrc. cbn [positionLoop].
    destruct (getCell_Some b r c Hwf Hrc) as [y Hy]. rewrite Hy.
    cbn [mbind option_bind]. rewrite Hwrc. cbn [mbind option_bind].
    unfold sumOver. cbn [foldr fst snd]. fold (sumOver cells (λ r c, held p q (getCell b r c) * specWeight r c)).
    rewrite Hy, held_Some.
    destruct (decide (y = Disc p)) as [->|Hp].
    + cbn [mbind option_bind]. rewrite IH by done. f_equal; lia.
    + destruct (decide (y = Disc q)) as [->|Hq].
      * cbn [mbind option_bind]. rewrite IH by done. f_equal; lia.
      * cbn [mbind option_bind]. rewrite IH by done. f_equal; lia.
Qed.

Lemma heldLoop_spec b p q w cells x :
  wfBoard b →
  Forall (λ rc, inBounds rc.1 rc.2 = true) cells →
  heldLoop b p q w cells x
  = Some (x + sumOver cells (λ r c, w * held p q (getCell b r c))).
Proof.
  intros Hwf. revert x. induction cells as [|[r c] cells IH]; intros x Hin.
  - simpl. by rewrite Z.add_0_r.
  - apply Forall_cons in Hin as [Hrc Hin]. simpl in Hrc.
    cbn [heldLoop]. unfold addIfHeld.
    destruct (getCell_Some b r c Hwf Hrc) as [y Hy]. rewrite Hy.
    cbn [mbind option_bind].
    unfold sumOver. cbn [foldr fst snd]. fold (sumOver cells (λ r c, w * held p q (getCell b r c))).
    rewrite Hy, held_Some.
    destruct (decide (y = Disc p)) as [->|Hp].
    + cbn [mbind option_bind]. rewrite IH by done. f_equal; lia.
    + destruct (decide (y = Disc q)) as [->|Hq].
      * cbn [mbind option_bind]. rewrite IH by done. f_equal; lia.
      * cbn [mbind option_bind]. rewrite IH by done. f_equal; lia.
Qed.

Lemma edgeLoop_spec b p q es score :
  wfBoard b →
  Forall (Forall (λ rc, inBounds rc.1 rc.2 = true)) es →
  edgeLoop b p q es score
  = Some (score + sumOver (concat es) (λ r c, 2 * held p q (getCell b r c))).
Proof.
  intros Hwf. revert score. induction es as [|edge es IH]; intros score Hin.
  - simpl. by rewrite Z.add_0_r.
  - apply Forall_cons in Hin as [He Hin]. cbn [edgeLoop].
    rewrite heldLoop_spec by done. cbn [mbind option_bind]. rewrite IH by done.
    f_equal. simpl concat. unfold sumOver. rewrite foldr_app.
    generalize (foldr (λ rc acc, 2 * held p q (getCell b rc.1 rc.2) + acc) 0 (concat es)).
    intros z. induction edge as [|rc edge IHe]; simpl; [lia|].
    apply Forall_cons in He as [_ He]. specialize (IHe He). lia.
Qed.

(** The four explicit edge lists count each border cell once per border
    line through it, hence each corner twice. *)
Lemma edges_borderLines (f : Z → Z → Z) :
  sumOver (concat edges) (λ r c, 2 * f r c)
  = sumOver allCells (λ r c, 2 * borderLines r c * f r c).
Proof.
  let v := eval vm_compute in allCells in change allCells with v.
  unfold sumOver, borderLines. simpl. lia.
Qed.

Lemma corners_isCorner (f : Z → Z → Z) :
  sumOver corners (λ r c, 50 * f r c)
  = sumOver allCells (λ r c, if isCorner r c then 50 * f r c else 0).
Proof.
  let v := eval vm_compute in allCells in change allCells with v.
  unfold sumOver, isCorner. simpl. lia.
Qed.

Lemma edges_inBounds : Forall (Forall (λ rc, inBounds rc.1 rc.2 = true)) edges.
Proof. apply (bool_decide_unpack _). by vm_compute. Qed.

Lemma corners_inBounds : Forall (λ rc, inBounds rc.1 rc.2 = true) corners.
Proof. apply (bool_decide_unpack _). by vm_compute. Qed.

Lemma evaluate_spec (g : OthelloGame) (p : Player) :
  wfBoard (board g) → evaluate g p = Some (evaluateSpec g p).
Proof.
  intros Hwf. unfold evaluate, evaluateSpec.
  rewrite getScore_spec by done. cbn [mbind option_bind].
  assert (Hq : match p with WHITE => BLACK | _ => WHITE end = opponentOf p)
    by (by destruct p).
  rewrite Hq. destruct (gameOver g); [by repeat case_decide|].
  rewrite positionLoop_spec;
    [|done|apply allCells_inBounds|apply weightAt_allCells].
  cbn [mbind option_bind].
  rewrite !findValidMoves_spec by done. cbn [mbind option_bind].
  rewrite heldLoop_spec; [|done|apply corners_inBounds].
  cbn [mbind option_bind]. unfold evaluateEdges.
  rewrite edgeLoop_spec; [|done|apply edges_inBounds].
  cbn [mbind option_bind].
  rewrite !length_fmap.
  rewrite (edges_borderLines (λ r c, held p (opponentOf p) (getCell (board g) r c))).
  rewrite (corners_isCorner (λ r c, held p (opponentOf p) (getCell (board g) r c))).
  f_equal. destruct p; simpl opponentOf.
  - destruct (_ >? 50); lia.
  - rewrite (Z.add_comm (countCell (Disc WHITE) _)). destruct (_ >? 50); lia.
Qed.

(** C4. On an 8×8 board [evaluate(s, p)] is the value the specification
    words: ±10000 or 0 when the game is over; otherwise the sum of the
    disc, positional, mobility, corner and border terms, the border term
    counting every corner twice. *)
Theorem C4_evaluate_formula (s : OthelloGame) (p : Player) :
  wfBoard (board s) →
  evaluate s p = Some (evaluateSpec s p)
  ∧ positionWeights = specWeights
  ∧ (∀ r c, isCorner r c = true → borderLines r c = 2).
Proof.
  intros Hwf. split; [by apply evaluate_spec|]. split; [reflexivity|].
  intros r c. unfold isCorner, borderLines.
  rewrite andb_true_iff, !orb_true_iff, !Z.eqb_eq.
  intros [[->| ->] [->| ->]]; reflexivity.
Qed.

Lemma C4_evaluate_formula_witness :
  evaluate afterOpening WHITE = Some (evaluateSpec afterOpening WHITE)
  ∧ positionWeights = specWeights
  ∧ (∀ r c, isCorner r c = true → borderLines r c = 2).
Proof.
  apply (C4_evaluate_formula afterOpening WHITE).
  apply wfBoardb_spec. vm_compute. reflexivity.
Defined.

(** ** Numbers with infinities *)

Lemma Num_leb_Fin a b : Num_leb (Fin a) (Fin b) = (a <=? b).
Proof. reflexivity. Qed.

Lemma Num_max_Fin a b : Num_max (Fin a) (Fin b) = Fin (Z.max a b).
Proof. unfold Num_max. simpl. destruct (Z.leb_spec a b); f_equal; lia. Qed.

Lemma Num_min_Fin a b : Num_min (Fin a) (Fin b) = Fin (Z.min a b).
Proof. unfold Num_min. simpl. destruct (Z.leb_spec a b); f_equal; lia. Qed.

Lemma Num_max_NegInf x : Num_max NegInf x = x.
Proof. by destruct x. Qed.

Lemma Num_max_NegInf_r x : Num_max x NegInf = x.
Proof. by destruct x. Qed.

Lemma Num_max_PosInf x : Num_max PosInf x = PosInf.
Proof. by destruct x. Qed.

Lemma Num_max_PosInf_r x : Num_max x PosInf = PosInf.
Proof. by destruct x. Qed.

Lemma Num_min_PosInf x : Num_min PosInf x = x.
Proof. by destruct x. Qed.

Lemma Num_min_PosInf_r x : Num_min x PosInf = x.
Proof. by destruct x. Qed.

Lemma Num_min_NegInf x : Num_min NegInf x = NegInf.
Proof. by destruct x. Qed.

Lemma Num_min_NegInf_r x : Num_min x NegInf = NegInf.
Proof. by destruct x. Qed.

Lemma Num_leb_NegInf x : Num_leb NegInf x = true.
Proof. by destruct x. Qed.

Lemma Num_leb_PosInf x : Num_leb x PosInf = true.
Proof. by destruct x. Qed.

Lemma Num_leb_PosInf_Fin a : Num_leb PosInf (Fin a) = false.
Proof. reflexivity. Qed.

Lemma Num_leb_PosInf_NegInf : Num_leb PosInf NegInf = false.
Proof. reflexivity. Qed.

Lemma Num_leb_Fin_NegInf a : Num_leb (Fin a) NegInf = false.
Proof. reflexivity. Qed.

Create Rewrite HintDb num.
#[local] Hint Rewrite Num_leb_Fin Num_max_Fin Num_min_Fin
  Num_max_NegInf Num_max_NegInf_r Num_max_PosInf Num_max_PosInf_r
  Num_min_PosInf Num_min_PosInf_r Num_min_NegInf Num_min_NegInf_r
  Num_leb_NegInf Num_leb_PosInf Num_leb_PosInf_Fin Num_leb_PosInf_NegInf
  Num_leb_Fin_NegInf : num.

(** Case analysis on the numbers in sight; what is left is arithmetic on
    integers with [Z.max] and [Z.min]. *)
Ltac num_cases :=
  unfold clamp, Num_gtb, Num_ltb in *;
  repeat match goal with
         | x : Num |- _ =>
             destruct x; autorewrite with num in *; simpl negb in *;
             try discriminate; try reflexivity
         end;
  repeat match goal with
         | H : Fin _ = Fin _ |- _ => injection H as H
         | H : negb _ = true |- _ => apply negb_true_iff in H
         | H : (_ <=? _) = true |- _ => apply Z.leb_le in H
         | H : (_ <=? _) = false |- _ => apply Z.leb_gt in H
         | |- _ ∧ _ => split
         | |- negb _ = true => apply negb_true_iff
         | |- (_ <=? _) = true => apply Z.leb_le
         | |- (_ <=? _) = false => apply Z.leb_gt
         | |- Fin _ = Fin _ => f_equal
         end;
  try reflexivity; try discriminate; try lia.

Lemma Num_leb_refl x : Num_leb x x = true.
Proof. num_cases. Qed.

Lemma clamp_full v : clamp NegInf PosInf v = v.
Proof. by destruct v. Qed.

Lemma Num_max_ge_l x y : Num_leb x (Num_max x y) = true.
Proof. num_cases. Qed.

Lemma Num_min_le_l x y : Num_leb (Num_min x y) x = true.
Proof. num_cases. Qed.

Lemma Num_leb_trans x y z : Num_leb x y = true → Num_leb y z = true → Num_leb x z = true.
Proof. intros. num_cases. Qed.

Lemma Num_max_ge_r x y : Num_leb y (Num_max x y) = true.
Proof. num_cases. Qed.

Lemma Num_min_le_r x y : Num_leb (Num_min x y) y = true.
Proof. num_cases. Qed.

Lemma Num_max_assoc x y z : Num_max (Num_max x y) z = Num_max x (Num_max y z).
Proof. num_cases. Qed.

Lemma Num_min_assoc x y z : Num_min (Num_min x y) z = Num_min x (Num_min y z).
Proof. num_cases. Qed.

(** A child of a maximizing node did not close the window: its value and
    the unpruned one raise [alpha] alike. *)
Lemma max_child_go a b s v :
  Num_ltb a b = true → clamp a b s = clamp a b v →
  Num_leb b (Num_max a s) = false →
  Num_max a s = Num_max a v ∧ Num_ltb (Num_max a s) b = true.
Proof. intros. num_cases. Qed.

(** A child of a maximizing node closed the window: both values reach [beta]. *)
Lemma max_child_cut a b s v :
  Num_ltb a b = true → clamp a b s = clamp a b v →
  Num_leb b (Num_max a s) = true →
  Num_leb b s = true ∧ Num_leb b v = true.
Proof. intros. num_cases. Qed.

Lemma min_child_go a b s v :
  Num_ltb a b = true → clamp a b s = clamp a b v →
  Num_leb (Num_min b s) a = false →
  Num_min b s = Num_min b v ∧ Num_ltb a (Num_min b s) = true.
Proof. intros. num_cases. Qed.

Lemma min_child_cut a b s v :
  Num_ltb a b = true → clamp a b s = clamp a b v →
  Num_leb (Num_min b s) a = true →
  Num_leb s a = true ∧ Num_leb v a = true.
Proof. intros. num_cases. Qed.

Lemma clamp_above a b x :
  Num_leb b x = true → clamp a b x = Num_max a b.
Proof. intros. num_cases. Qed.

Lemma clamp_below a b x :
  Num_ltb a b = true → Num_leb x a = true → clamp a b x = a.
Proof. intros. num_cases. Qed.

Lemma clamp_max_inside a b m :
  Num_ltb (Num_max a m) b = true → clamp a b m = Num_max a m.
Proof. intros. num_cases. Qed.

Lemma clamp_min_inside a b m :
  Num_ltb a (Num_min b m) = true → clamp a b m = Num_min b m.
Proof. intros. num_cases. Qed.

(** ** clone and the children of a node *)

#[local] Opaque evaluate makeMove.

Lemma clone_val g :
  clone g = Some (mkGame (board g) (currentPlayer g) (gameOver g) (winner g)
                         None [] (validMoves g) []).
Proof.
  unfold clone. rewrite newGame_val. cbn [mbind option_bind]. by rewrite map_id.
Qed.

Lemma applyOnCopy_total g m :
  wfGame g → inBounds (row m) (col m) = true →
  ∃ g', applyOnCopy g m = Some g' ∧ wfGame g'.
Proof.
  intros [Hwf Hvm] Hin. unfold applyOnCopy. rewrite clone_val.
  cbn [mbind option_bind].
  set (copy := mkGame _ _ _ _ _ _ _ _).
  assert (Hcopy : wfGame copy) by done.
  destruct (makeMove_total copy (row m) (col m)) as (ok & g' & Hm); [done|done|].
  rewrite Hm. cbn [mbind option_bind]. exists g'. split; [done|].
  by eapply makeMove_wfGame.
Qed.

(** ** Pruning does not change the value seen through the window *)

Section Pruning.
Variable search : OthelloGame → Num → Num → Z → option (Num * Z).
Variable fsearch : OthelloGame → option Num.
Variable game : OthelloGame.

(** What the recursion provides for the children. *)
Hypothesis Hchild : ∀ gameCopy v,
  fsearch gameCopy = Some v →
  ∀ alpha beta nodes, Num_ltb alpha beta = true →
    ∃ v' nodes', search gameCopy alpha beta nodes = Some (v', nodes')
                 ∧ clamp alpha beta v' = clamp alpha beta v.

Lemma fullMaxLoop_ge moves mF F :
  fullMaxLoop fsearch game moves mF = Some F → Num_leb mF F = true.
Proof.
  revert mF. induction moves as [|move moves IH]; intros mF; cbn [fullMaxLoop].
  - intros [= <-]. apply Num_leb_refl.
  - destruct (applyOnCopy game move) as [gc|]; [|done]. cbn [mbind option_bind].
    destruct (fsearch gc) as [v|]; [|done]. cbn [mbind option_bind].
    intros HF%IH. eapply Num_leb_trans; [|done]. apply Num_max_ge_l.
Qed.

Lemma fullMinLoop_le moves mF F :
  fullMinLoop fsearch game moves mF = Some F → Num_leb F mF = true.
Proof.
  revert mF. induction moves as [|move moves IH]; intros mF; cbn [fullMinLoop].
  - intros [= <-]. apply Num_leb_refl.
  - destruct (applyOnCopy game move) as [gc|]; [|done]. cbn [mbind option_bind].
    destruct (fsearch gc) as [v|]; [|done]. cbn [mbind option_bind].
    intros HF%IH. eapply Num_leb_trans; [done|]. apply Num_min_le_l.
Qed.

Lemma maxLoop_sound moves m mF F alpha0 beta nodes :
  fullMaxLoop fsearch game moves mF = Some F →
  Num_ltb (Num_max alpha0 m) beta = true →
  Num_max alpha0 m = Num_max alpha0 mF →
  ∃ v' nodes',
    maxLoop search game moves m (Num_max alpha0 m) beta nodes = Some (v', nodes')
    ∧ clamp alpha0 beta v' = clamp alpha0 beta F.
Proof.
  revert m mF nodes.
  induction moves as [|move moves IH]; intros m mF nodes; cbn [fullMaxLoop maxLoop].
  - intros [= <-] Hlt Heq. exists m, nodes. split; [done|].
    rewrite !clamp_max_inside; [done| |done]. by rewrite <- Heq.
  - destruct (applyOnCopy game move) as [gc|]; [|done]. cbn [mbind option_bind].
    destruct (fsearch gc) as [v|] eqn:Hv; [|done]. cbn [mbind option_bind].
    intros HF Hlt Heq.
    destruct (Hchild gc v Hv (Num_max alpha0 m) beta nodes Hlt) as (s & nodes' & Hs & Hcl).
    rewrite Hs. cbn [mbind option_bind].
    destruct (Num_leb beta (Num_max (Num_max alpha0 m) s)) eqn:Hcut.
    + exists (Num_max m s), nodes'. split; [done|].
      destruct (max_child_cut _ _ _ _ Hlt Hcl Hcut) as [Hbs Hbv].
      rewrite !clamp_above; [done| |].
      * apply fullMaxLoop_ge in HF.
        eapply Num_leb_trans; [exact Hbv|].
        eapply Num_leb_trans; [|exact HF]. apply Num_max_ge_r.
      * eapply Num_leb_trans; [exact Hbs|]. apply Num_max_ge_r.
    + destruct (max_child_go _ _ _ _ Hlt Hcl Hcut) as [Hsv Hlt'].
      rewrite Num_max_assoc in Hlt'. rewrite Num_max_assoc.
      apply (IH (Num_max m s) (Num_max mF v) nodes' HF Hlt').
      rewrite <- !Num_max_assoc, <- Heq. exact Hsv.
Qed.

Lemma minLoop_sound moves m mF F alpha beta0 nodes :
  fullMinLoop fsearch game moves mF = Some F →
  Num_ltb alpha (Num_min beta0 m) = true →
  Num_min beta0 m = Num_min beta0 mF →
  ∃ v' nodes',
    minLoop search game moves m alpha (Num_min beta0 m) nodes = Some (v', nodes')
    ∧ clamp alpha beta0 v' = clamp alpha beta0 F.
Proof.
  revert m mF nodes.
  induction moves as [|move moves IH]; intros m mF nodes; cbn [fullMinLoop minLoop].
  - intros [= <-] Hlt Heq. exists m, nodes. split; [done|].
    rewrite !clamp_min_inside; [done| |done]. by rewrite <- Heq.
  - destruct (applyOnCopy game move) as [gc|]; [|done]. cbn [mbind option_bind].
    destruct (fsearch gc) as [v|] eqn:Hv; [|done]. cbn [mbind option_bind].
    intros HF Hlt Heq.
    destruct (Hchild gc v Hv alpha (Num_min beta0 m) nodes Hlt) as (s & nodes' & Hs & Hcl).
    rewrite Hs. cbn [mbind option_bind].
    destruct (Num_leb (Num_min (Num_min beta0 m) s) alpha) eqn:Hcut.
    + exists (Num_min m s), nodes'. split; [done|].
      destruct (min_child_cut _ _ _ _ Hlt Hcl Hcut) as [Hsa Hva].
      assert (Hab : Num_ltb alpha beta0 = true).
      { revert Hlt. clear. intros. num_cases. }
      rewrite !clamp_below; [done|done| |done|].
      * apply fullMinLoop_le in HF.
        eapply Num_leb_trans; [exact HF|].
        eapply Num_leb_trans; [|exact Hva]. apply Num_min_le_r.
      * eapply Num_leb_trans; [|exact Hsa]. apply Num_min_le_r.
    + destruct (min_child_go _ _ _ _ Hlt Hcl Hcut) as [Hsv Hlt'].
      rewrite Num_min_assoc in Hlt'. rewrite Num_min_assoc.
      apply (IH (Num_min m s) (Num_min mF v) nodes' HF Hlt').
      rewrite <- !Num_min_assoc, <- Heq. exact Hsv.
Qed.

Lemma rootLoop_sound moves bestMove bestScore nodes best score :
  fullRootLoop fsearch game moves bestMove bestScore = Some (best, score) →
  ∃ nodes', rootLoop search game moves bestMove bestScore nodes = Some (best, score, nodes').
Proof.
  revert bestMove bestScore nodes.
  induction moves as [|move moves IH]; intros bestMove bestScore nodes;
    cbn [fullRootLoop rootLoop].
  - intros [= <- <-]. by exists nodes.
  - destruct (applyOnCopy game move) as [gc|]; [|done]. cbn [mbind option_bind].
    destruct (fsearch gc) as [v|] eqn:Hv; [|done]. cbn [mbind option_bind].
    destruct (Hchild gc v Hv NegInf PosInf nodes eq_refl) as (s & nodes' & Hs & Hcl).
    rewrite !clamp_full in Hcl. subst s. rewrite Hs. cbn [mbind option_bind].
    destruct (Num_gtb v bestScore); apply IH.
Qed.
End Pruning.

Lemma minimax_sound fuel : ∀ game depth isMaximizing aiPlayer v,
  fullMinimax fuel game depth isMaximizing aiPlayer = Some v →
  ∀ alpha beta nodes, Num_ltb alpha beta = true →
    ∃ v' nodes',
      minimax fuel game depth alpha beta isMaximizing aiPlayer nodes = Some (v', nodes')
      ∧ clamp alpha beta v' = clamp alpha beta v.
Proof.
  induction fuel as [|fuel IH]; intros game depth isMaximizing aiPlayer v; [done|].
  cbn [fullMinimax minimax].
  destruct (bool_decide (depth = 0) || gameOver game).
  { destruct (evaluate game aiPlayer) as [e|]; [|done]. cbn [mbind option_bind].
    intros [= <-] alpha beta nodes _. by eauto. }
  destruct (bool_decide (length (validMoves game) = 0%nat)).
  { destruct (evaluate game aiPlayer) as [e|]; [|done]. cbn [mbind option_bind].
    intros [= <-] alpha beta nodes _. by eauto. }
  destruct isMaximizing; intros HF alpha beta nodes Hlt.
  - pose proof (maxLoop_sound
                  (λ gc a b n, minimax fuel gc (depth - 1) a b false aiPlayer n)
                  (λ gc, fullMinimax fuel gc (depth - 1) false aiPlayer) game) as Hloop.
    specialize (Hloop (λ gc w Hw a b n Hab, IH gc _ _ _ w Hw a b n Hab)).
    specialize (Hloop (validMoves game) NegInf NegInf v alpha beta (nodes + 1) HF).
    rewrite Num_max_NegInf_r in Hloop. by apply Hloop.
  - pose proof (minLoop_sound
                  (λ gc a b n, minimax fuel gc (depth - 1) a b true aiPlayer n)
                  (λ gc, fullMinimax fuel gc (depth - 1) true aiPlayer) game) as Hloop.
    specialize (Hloop (λ gc w Hw a b n Hab, IH gc _ _ _ w Hw a b n Hab)).
    specialize (Hloop (validMoves game) PosInf PosInf v alpha beta (nodes + 1) HF).
    rewrite Num_min_PosInf_r in Hloop. by apply Hloop.
Qed.

Lemma searchRoot_sound fuel ai game first nodes best score :
  fullRoot fuel ai game first = Some (best, score) →
  ∃ nodes', searchRoot fuel ai game first nodes = Some (best, score, nodes').
Proof.
  unfold fullRoot, searchRoot. apply rootLoop_sound.
  intros gc w Hw a b n Hab. by apply minimax_sound.
Qed.

Lemma getMove_sound fuel ai game r :
  getMoveFull fuel ai game = Some r →
  ∃ nodes', getMove fuel ai game = Some (r, mkAI (depth ai) nodes').
Proof.
  unfold getMoveFull, getMove.
  destruct (validMoves game) as [|first [|second rest]] eqn:Hvm.
  - intros [= <-]. by eauto.
  - intros [= <-]. by eauto.
  - destruct (fullRoot fuel ai game first) as [[best score]|] eqn:Hroot; [|done].
    cbn [mbind option_bind]. intros [= <-].
    destruct (searchRoot_sound fuel ai game first 0 best score Hroot) as [nodes' Hs].
    rewrite Hs. cbn [mbind option_bind]. by eauto.
Qed.

(** ** The unpruned search returns *)

Lemma evaluate_total g p : wfGame g → is_Some (evaluate g p).
Proof. intros [Hwf _]. by rewrite evaluate_spec. Qed.

Lemma fullLoops_total (fsearch : OthelloGame → option Num) game moves :
  wfGame game →
  Forall (λ m, inBounds (row m) (col m) = true) moves →
  (∀ gc, wfGame gc → is_Some (fsearch gc)) →
  (∀ m, is_Some (fullMaxLoop fsearch game moves m))
  ∧ (∀ m, is_Some (fullMinLoop fsearch game moves m))
  ∧ (∀ bm bs, is_Some (fullRootLoop fsearch game moves bm bs)).
Proof.
  intros Hwf Hall Hs. induction moves as [|move moves IH].
  - by repeat split.
  - apply Forall_cons in Hall as [Hin Hall]. destruct (IH Hall) as (IH1 & IH2 & IH3).
    destruct (applyOnCopy_total game move Hwf Hin) as (gc & Hgc & Hwfgc).
    destruct (Hs gc Hwfgc) as [v Hv].
    repeat split; intros; cbn [fullMaxLoop fullMinLoop fullRootLoop];
      rewrite Hgc; cbn [mbind option_bind]; rewrite Hv; cbn [mbind option_bind].
    + apply IH1.
    + apply IH2.
    + destruct (Num_gtb v bs); apply IH3.
Qed.

Lemma fullMinimax_total fuel : ∀ game depth isMaximizing aiPlayer,
  wfGame game → 0 ≤ depth → (Z.to_nat depth < fuel)%nat →
  is_Some (fullMinimax fuel game depth isMaximizing aiPlayer).
Proof.
  induction fuel as [|fuel IH]; intros game depth isMaximizing aiPlayer Hwf Hd Hfuel; [lia|].
  cbn [fullMinimax].
  destruct (evaluate_total game aiPlayer Hwf) as [e He].
  case_bool_decide as Hd0.
  { rewrite orb_true_l, He. done. }
  rewrite orb_false_l. destruct (gameOver game); [by rewrite He|].
  case_bool_decide; [by rewrite He|].
  destruct (fullLoops_total
              (λ gc, fullMinimax fuel gc (depth - 1) (negb isMaximizing) aiPlayer)
              game (validMoves game) Hwf (proj2 Hwf)) as (H1 & H2 & _).
  { intros gc Hgc. apply IH; [done|lia|lia]. }
  destruct isMaximizing; [apply H1|apply H2].
Qed.

Lemma getMoveFull_total fuel ai game :
  wfGame game → 1 ≤ depth ai → (Z.to_nat (depth ai) ≤ fuel)%nat →
  is_Some (getMoveFull fuel ai game).
Proof.
  intros Hwf Hd Hfuel. unfold getMoveFull, fullRoot.
  destruct (validMoves game) as [|first [|second rest]] eqn:Hvm; [done|done|].
  destruct (fullLoops_total
              (λ gc, fullMinimax fuel gc (depth ai - 1) false WHITE)
              game (validMoves game) Hwf (proj2 Hwf)) as (_ & _ & H3).
  { intros gc Hgc. apply fullMinimax_total; [done|lia|lia]. }
  rewrite Hvm in H3. destruct (H3 first NegInf) as [[best score] ->]. done.
Qed.

(** ** The node counter does not influence the value *)

Section Shift.
Variable search : OthelloGame → Num → Num → Z → option (Num * Z).
Variable game : OthelloGame.
Hypothesis Hshift : ∀ gc a b n, search gc a b n = shiftBy n <$> search gc a b 0.

Lemma shiftBy_shiftBy n k r : shiftBy n (shiftBy k r) = shiftBy (n + k) r.
Proof. destruct r. unfold shiftBy. simpl. f_equal. lia. Qed.

Lemma shiftBy_0 r : shiftBy 0 r = r.
Proof. by destruct r. Qed.

Lemma maxLoop_shift moves m a b n :
  maxLoop search game moves m a b n = shiftBy n <$> maxLoop search game moves m a b 0.
Proof.
  revert m a n. induction moves as [|move moves IH]; intros m a n; cbn [maxLoop].
  - unfold shiftBy; simpl; first [reflexivity | do 2 f_equal; lia].
  - destruct (applyOnCopy game move) as [gc|]; [|done]. cbn [mbind option_bind].
    rewrite (Hshift gc a b n).
    destruct (search gc a b 0) as [[s k]|]; [|done].
    cbn [fmap option_fmap option_map mbind option_bind shiftBy fst snd].
    destruct (Num_leb b (Num_max a s)).
    + unfold shiftBy; simpl; first [reflexivity | do 2 f_equal; lia].
    + rewrite (IH _ _ (n + k)), (IH _ _ k).
      destruct (maxLoop search game moves (Num_max m s) (Num_max a s) b 0); [|done].
      cbn [fmap option_fmap option_map]. by rewrite shiftBy_shiftBy.
Qed.

Lemma minLoop_shift moves m a b n :
  minLoop search game moves m a b n = shiftBy n <$> minLoop search game moves m a b 0.
Proof.
  revert m b n. induction moves as [|move moves IH]; intros m b n; cbn [minLoop].
  - unfold shiftBy; simpl; first [reflexivity | do 2 f_equal; lia].
  - destruct (applyOnCopy game move) as [gc|]; [|done]. cbn [mbind option_bind].
    rewrite (Hshift gc a b n).
    destruct (search gc a b 0) as [[s k]|]; [|done].
    cbn [fmap option_fmap option_map mbind option_bind shiftBy fst snd].
    destruct (Num_leb (Num_min b s) a).
    + unfold shiftBy; simpl; first [reflexivity | do 2 f_equal; lia].
    + rewrite (IH _ _ (n + k)), (IH _ _ k).
      destruct (minLoop search game moves (Num_min m s) a (Num_min b s) 0); [|done].
      cbn [fmap option_fmap option_map]. by rewrite shiftBy_shiftBy.
Qed.
End Shift.

Lemma minimax_shift fuel : ∀ game depth alpha beta isMaximizing aiPlayer nodes,
  minimax fuel game depth alpha beta isMaximizing aiPlayer nodes
  = shiftBy nodes <$> minimax fuel game depth alpha beta isMaximizing aiPlayer 0.
Proof.
  induction fuel as [|fuel IH]; intros game depth alpha beta isMaximizing aiPlayer nodes;
    [done|].
  cbn [minimax].
  destruct (bool_decide (depth = 0) || gameOver game).
  { destruct (evaluate game aiPlayer); [|done]. unfold shiftBy; simpl; first [reflexivity | do 2 f_equal; lia]. }
  destruct (bool_decide (length (validMoves game) = 0%nat)).
  { destruct (evaluate game aiPlayer); [|done]. unfold shiftBy; simpl; first [reflexivity | do 2 f_equal; lia]. }
  assert (Hs : ∀ isM gc a b n,
            minimax fuel gc (depth - 1) a b isM aiPlayer n
            = shiftBy n <$> minimax fuel gc (depth - 1) a b isM aiPlayer 0)
    by (intros; apply IH).
  destruct isMaximizing.
  - rewrite (maxLoop_shift _ game (Hs false) _ _ _ _ (nodes + 1)).
    rewrite (maxLoop_shift _ game (Hs false) _ _ _ _ (0 + 1)).
    destruct (maxLoop _ game (validMoves game) NegInf alpha beta 0) as [r|]; [|done].
    cbn [fmap option_fmap option_map]. rewrite shiftBy_shiftBy. first [reflexivity | do 2 f_equal; lia].
  - rewrite (minLoop_shift _ game (Hs true) _ _ _ _ (nodes + 1)).
    rewrite (minLoop_shift _ game (Hs true) _ _ _ _ (0 + 1)).
    destruct (minLoop _ game (validMoves game) PosInf alpha beta 0) as [r|]; [|done].
    cbn [fmap option_fmap option_map]. rewrite shiftBy_shiftBy. first [reflexivity | do 2 f_equal; lia].
Qed.

(** ** The root loop keeps the first best candidate *)

Lemma Num_ltb_leb_trans x y z :
  Num_leb x y = true → Num_ltb y z = true → Num_ltb x z = true.
Proof. intros. num_cases. Qed.

Lemma Num_ltb_trans x y z :
  Num_ltb x y = true → Num_ltb y z = true → Num_ltb x z = true.
Proof. intros. num_cases. Qed.

Lemma Num_gtb_false x y : Num_gtb x y = false → Num_leb x y = true.
Proof. unfold Num_gtb. by intros ?%negb_false_iff. Qed.

Lemma Num_gtb_true x y : Num_gtb x y = true → Num_ltb y x = true.
Proof. done. Qed.

Lemma Num_not_gtb_NegInf x : Num_gtb x NegInf = false → x = NegInf.
Proof. by destruct x. Qed.

Lemma scoreOf_search fuel ai game move s :
  scoreOf fuel ai game move = Some s →
  ∃ gc, applyOnCopy game move = Some gc
        ∧ ∀ n, ∃ n', minimax fuel gc (depth ai - 1) NegInf PosInf false WHITE n = Some (s, n').
Proof.
  unfold scoreOf, scoreFor. destruct (applyOnCopy game move) as [gc|]; [|done].
  cbn [mbind option_bind].
  destruct (minimax fuel gc (depth ai - 1) NegInf PosInf false WHITE 0)
    as [[s0 k]|] eqn:Hm; [|done].
  cbn [mbind option_bind]. intros [= <-]. exists gc. split; [done|].
  intros n. rewrite minimax_shift, Hm. by eexists.
Qed.

Lemma retained_next pre spre bm bs m s :
  length pre = length spre → retained pre spre bm bs →
  retained (pre ++ [m]) (spre ++ [s])
           (if Num_gtb s bs then m else bm) (if Num_gtb s bs then s else bs).
Proof.
  intros Hlen (i & Hm & Hs & Hbefore & Hafter).
  pose proof (lookup_lt_Some _ _ _ Hs) as Hi.
  destruct (Num_gtb s bs) eqn:Hgt.
  - apply Num_gtb_true in Hgt. exists (length pre). repeat split.
    + by rewrite lookup_app_r, Nat.sub_diag.
    + by rewrite Hlen, lookup_app_r, Nat.sub_diag.
    + intros j sj Hj. rewrite lookup_app_l by lia. intros Hsj.
      destruct (lt_eq_lt_dec j i) as [[Hlt|Heq]|Hgt'].
      * eapply Num_ltb_trans; [|exact Hgt]. by eapply Hbefore.
      * subst j. rewrite Hs in Hsj. by injection Hsj as <-.
      * eapply Num_ltb_leb_trans; [|exact Hgt]. by eapply Hafter.
    + intros k sk Hk Hsk. apply lookup_lt_Some in Hsk.
      rewrite length_app in Hsk. simpl in Hsk. lia.
  - apply Num_gtb_false in Hgt. exists i. repeat split.
    + by rewrite lookup_app_l by (apply lookup_lt_Some in Hm; done).
    + by rewrite lookup_app_l.
    + intros j sj Hj. rewrite lookup_app_l by lia. by apply Hbefore.
    + intros k sk Hk.
      destruct (decide (k < length spre)%nat) as [Hlt|Hge].
      * rewrite lookup_app_l by done. by apply Hafter.
      * rewrite lookup_app_r by lia. intros Hsk.
        destruct (k - length spre)%nat; [|by destruct n].
        by injection Hsk as <-.
Qed.

Lemma retained_single m s : retained [m] [s] m s.
Proof.
  exists 0%nat. repeat split; try done; intros ? ? ?; try lia.
  intros Hk%lookup_lt_Some. simpl in Hk. lia.
Qed.

Lemma rootLoop_retained fuel ai game rest srest :
  Forall2 (λ m s, scoreOf fuel ai game m = Some s) rest srest →
  ∀ pre spre bm bs n,
    length pre = length spre → retained pre spre bm bs →
    ∃ best s n',
      rootLoop (λ gc a b k, minimax fuel gc (depth ai - 1) a b false WHITE k)
               game rest bm bs n = Some (best, s, n')
      ∧ retained (pre ++ rest) (spre ++ srest) best s.
Proof.
  induction 1 as [|m s rest srest Hs _ IH]; intros pre spre bm bs n Hlen Hret.
  - exists bm, bs, n. by rewrite !app_nil_r.
  - cbn [rootLoop].
    destruct (scoreOf_search _ _ _ _ _ Hs) as (gc & Hgc & Hmm).
    destruct (Hmm n) as [n' Hn']. rewrite Hgc. cbn [mbind option_bind].
    rewrite Hn'. cbn [mbind option_bind].
    pose proof (retained_next pre spre bm bs m s Hlen Hret) as Hnext.
    rewrite (cons_middle m pre rest), (cons_middle s spre srest), !app_assoc.
    assert (Hlen' : length (pre ++ [m]) = length (spre ++ [s]))
      by (rewrite !length_app; simpl; lia).
    destruct (Num_gtb s bs).
    + exact (IH (pre ++ [m]) (spre ++ [s]) m s n' Hlen' Hnext).
    + exact (IH (pre ++ [m]) (spre ++ [s]) bm bs n' Hlen' Hnext).
Qed.

Lemma searchRoot_retained fuel ai game first rest scores n :
  validMoves game = first :: rest →
  Forall2 (λ m s, scoreOf fuel ai game m = Some s) (validMoves game) scores →
  ∃ best s n',
    searchRoot fuel ai game first n = Some (best, s, n')
    ∧ retained (validMoves game) scores best s.
Proof.
  intros Hvm Hsc. unfold searchRoot. rewrite Hvm in *.
  destruct scores as [|s0 srest]; [by apply Forall2_length in Hsc|].
  apply Forall2_cons in Hsc as [Hs0 Hsc]. cbn [rootLoop].
  destruct (scoreOf_search _ _ _ _ _ Hs0) as (gc & Hgc & Hmm).
  destruct (Hmm n) as [n' Hn']. rewrite Hgc. cbn [mbind option_bind].
  rewrite Hn'. cbn [mbind option_bind].
  pose proof (retained_single first s0) as Hfirst.
  destruct (Num_gtb s0 NegInf) eqn:Hgt.
  - exact (rootLoop_retained fuel ai game rest srest Hsc [first] [s0] first s0 n'
             eq_refl Hfirst).
  - apply Num_not_gtb_NegInf in Hgt. subst s0.
    exact (rootLoop_retained fuel ai game rest srest Hsc [first] [NegInf] first NegInf n'
             eq_refl Hfirst).
Qed.

(** Every candidate of a well-formed position gets a score. *)
Lemma scores_exist fuel ai game :
  wfGame game → 1 ≤ depth ai → (Z.to_nat (depth ai) ≤ fuel)%nat →
  ∃ scores, Forall2 (λ m s, scoreOf fuel ai game m = Some s) (validMoves game) scores.
Proof.
  intros Hwf Hd Hfuel. destruct Hwf as [Hwfb Hvm].
  assert (Hwf : wfGame game) by done.
  revert Hvm. generalize (validMoves game) as moves.
  induction moves as [|m moves IH]; intros Hall.
  - exists []. constructor.
  - apply Forall_cons in Hall as [Hin Hall]. destruct (IH Hall) as [scores Hsc].
    destruct (applyOnCopy_total game m Hwf Hin) as (gc & Hgc & Hwfgc).
    destruct (fullMinimax_total fuel gc (depth ai - 1) false WHITE Hwfgc) as [v Hv];
      [lia|lia|].
    destruct (minimax_sound fuel gc (depth ai - 1) false WHITE v Hv NegInf PosInf 0 eq_refl)
      as (s & k & Hs & _).
    exists (s :: scores). constructor; [|done].
    unfold scoreOf, scoreFor. rewrite Hgc. cbn [mbind option_bind]. rewrite Hs. done.
Qed.

(** ** The search: the claims *)

(** C3. Whatever the position, the depth and the fuel: when the unpruned
    search returns a root move and score, [getMove] with alpha-beta pruning
    returns the same move and the same score; and on a well-formed position
    with a depth of at least one ply the unpruned search does return. *)
Theorem C3_pruning_keeps_root_choice (fuel : nat) (ai : OthelloAI) (game : OthelloGame) :
  wfGame game →
  (∀ r, getMoveFull fuel ai game = Some r →
        ∃ nodes, getMove fuel ai game = Some (r, mkAI (depth ai) nodes))
  ∧ (∀ first best score nodes,
        fullRoot fuel ai game first = Some (best, score) →
        ∃ nodes', searchRoot fuel ai game first nodes = Some (best, score, nodes'))
  ∧ (1 ≤ depth ai → (Z.to_nat (depth ai) ≤ fuel)%nat →
     is_Some (getMoveFull fuel ai game)).
Proof.
  intros Hwf. split; [|split].
  - intros r. apply getMove_sound.
  - intros first best score nodes. apply searchRoot_sound.
  - intros Hd Hfuel. by apply getMoveFull_total.
Qed.

Lemma C3_pruning_keeps_root_choice_witness :
  (∀ r, getMoveFull 4 (mkAI 4 0) afterOpening = Some r →
        ∃ nodes, getMove 4 (mkAI 4 0) afterOpening = Some (r, mkAI (depth (mkAI 4 0)) nodes))
  ∧ (∀ first best score nodes,
        fullRoot 4 (mkAI 4 0) afterOpening first = Some (best, score) →
        ∃ nodes', searchRoot 4 (mkAI 4 0) afterOpening first nodes = Some (best, score, nodes'))
  ∧ (1 ≤ depth (mkAI 4 0) → (Z.to_nat (depth (mkAI 4 0)) ≤ 4)%nat →
     is_Some (getMoveFull 4 (mkAI 4 0) afterOpening)).
Proof.
  apply (C3_pruning_keeps_root_choice 4 (mkAI 4 0) afterOpening).
  split.
  - apply wfBoardb_spec. vm_compute. reflexivity.
  - apply (bool_decide_unpack _). vm_compute. reflexivity.
Defined.


Lemma getMove_chosen fuel ai game :
  wfGame game → 1 ≤ depth ai → (Z.to_nat (depth ai) ≤ fuel)%nat →
  ∃ r nodes,
    getMove fuel ai game = Some (r, mkAI (depth ai) nodes)
    ∧ chosenFrom fuel (depth ai) WHITE game (validMoves game) r
    ∧ ((length (validMoves game) ≤ 1)%nat → nodes = 0).
Proof.
  intros Hwf Hd Hfuel.
  destruct (scores_exist fuel ai game Hwf Hd Hfuel) as [scores Hsc].
  unfold getMove, chosenFrom.
  destruct (validMoves game) as [|first [|second rest]] eqn:Hvm.
  - exists None, 0. by repeat split.
  - exists (Some first), 0. by repeat split.
  - rewrite <- Hvm in Hsc.
    destruct (searchRoot_retained fuel ai game first (second :: rest) scores 0 Hvm Hsc)
      as (best & s & n' & Hroot & Hret).
    rewrite Hroot. cbn [mbind option_bind].
    exists (Some best), n'. split; [reflexivity|]. split.
    + exists scores, best. rewrite Hvm in Hsc, Hret. split; [exact Hsc|].
      split; [by exists s|reflexivity].
    + simpl. lia.
Qed.

(** C5 (amended). [getMove] chooses among the cached [validMoves] and
    always scores for WHITE: none when the cache is empty; the single
    cached move, with no node searched, when there is exactly one;
    otherwise the first move of the cache whose score is strictly greater
    than every earlier one, later equal scores not replacing it.  In a
    reachable state that is not over the cache is the row-major list of
    the legal moves of the player to move, so there the choice is the one
    the specification words, taken for WHITE. *)
Theorem C5_getMove_first_best_for_white (fuel : nat) (ai : OthelloAI) (game : OthelloGame) :
  wfGame game → 1 ≤ depth ai → (Z.to_nat (depth ai) ≤ fuel)%nat →
  ∃ r nodes,
    getMove fuel ai game = Some (r, mkAI (depth ai) nodes)
    ∧ chosenFrom fuel (depth ai) WHITE game (validMoves game) r
    ∧ ((length (validMoves game) ≤ 1)%nat → nodes = 0)
    ∧ (reachable game → gameOver game = false →
       validMoves game = toMove <$> legalCells (board game) (currentPlayer game)
       ∧ getMoveSpec fuel (depth ai) game WHITE r).
Proof.
  intros Hwf Hd Hfuel.
  destruct (getMove_chosen fuel ai game Hwf Hd Hfuel) as (r & nodes & Hg & Hch & Hn).
  exists r, nodes. repeat split; try assumption.
  - destruct (reachable_cache game H H0) as [Hc _].
    rewrite findValidMoves_spec in Hc by apply Hwf. by injection Hc as <-.
  - exists (validMoves game). split; [|exact Hch].
    by destruct (reachable_cache game H H0) as [Hc _].
Qed.

Lemma C5_getMove_first_best_for_white_witness :
  ∃ r nodes,
    getMove 4 (mkAI 4 0) afterOpening = Some (r, mkAI (depth (mkAI 4 0)) nodes)
    ∧ chosenFrom 4 (depth (mkAI 4 0)) WHITE afterOpening (validMoves afterOpening) r
    ∧ ((length (validMoves afterOpening) ≤ 1)%nat → nodes = 0)
    ∧ (reachable afterOpening → gameOver afterOpening = false →
       validMoves afterOpening
       = toMove <$> legalCells (board afterOpening) (currentPlayer afterOpening)
       ∧ getMoveSpec 4 (depth (mkAI 4 0)) afterOpening WHITE r).
Proof.
  apply (C5_getMove_first_best_for_white 4 (mkAI 4 0) afterOpening).
  - split.
    + apply wfBoardb_spec. vm_compute. reflexivity.
    + apply (bool_decide_unpack _). vm_compute. reflexivity.
  - simpl. lia.
  - simpl. lia.
Defined.

Lemma play_afterTwoMoves : play [(2, 3); (2, 2)] = Some afterTwoMoves.
Proof. vm_compute. reflexivity. Qed.

(** C5 (counterexample). Black to move after (2,3), (2,2), search depth 1.
    For Black the four candidates score -7, 24, -6, -6, so the claim asks
    for (3,2); [getMove] scores them for WHITE (7, -24, 6, 6) and returns
    (2,1), which the specification's choice for Black excludes. *)
Lemma C5_counterexample_black_to_move :
  reachable afterTwoMoves
  ∧ gameOver afterTwoMoves = false
  ∧ currentPlayer afterTwoMoves = BLACK
  ∧ getMove 1 (mkAI 1 0) afterTwoMoves = Some (Some (mkMove 2 1), mkAI 1 4)
  ∧ getMoveSpec 1 1 afterTwoMoves BLACK (Some (mkMove 3 2))
  ∧ ¬ getMoveSpec 1 1 afterTwoMoves BLACK (Some (mkMove 2 1)).
Proof.
  split; [exact (play_reachable _ _ play_afterTwoMoves)|].
  split; [reflexivity|]. split; [reflexivity|].
  split; [vm_compute; reflexivity|].
  assert (Hmoves : findValidMoves (board afterTwoMoves) (currentPlayer afterTwoMoves)
                   = Some [mkMove 2 1; mkMove 3 2; mkMove 4 5; mkMove 5 4])
    by (vm_compute; reflexivity).
  assert (Hscores :
            Forall2 (λ m s, scoreFor 1 1 BLACK afterTwoMoves m = Some s)
                    [mkMove 2 1; mkMove 3 2; mkMove 4 5; mkMove 5 4]
                    [Fin (-7); Fin 24; Fin (-6); Fin (-6)]).
  { repeat constructor; vm_compute; reflexivity. }
  split.
  - eexists. split; [exact Hmoves|]. cbn [chosenFrom].
    eexists _, _. split; [exact Hscores|]. split; [|reflexivity].
    exists (Fin 24), 1%nat. split; [reflexivity|]. split; [reflexivity|]. split.
    + intros j sj Hj. assert (j = 0%nat) as -> by lia. by intros [= <-].
    + intros k sk Hk Hsk.
      destruct k as [|[|[|[|k]]]]; try lia; simpl in Hsk; try discriminate Hsk;
        by injection Hsk as <-.
  - intros (moves & Hf & Hch). rewrite Hmoves in Hf. injection Hf as <-.
    cbn [chosenFrom] in Hch. destruct Hch as (scores & best & Hsc & Hfb & Hbest).
    injection Hbest as <-.
    assert (scores = [Fin (-7); Fin 24; Fin (-6); Fin (-6)]) as ->.
    { clear Hfb. revert Hsc Hscores.
      generalize [mkMove 2 1; mkMove 3 2; mkMove 4 5; mkMove 5 4].
      generalize [Fin (-7); Fin 24; Fin (-6); Fin (-6)].
      intros l2 l1 H1. revert l2. induction H1 as [|m s l1 l1' Hs _ IH]; intros l2 H2.
      - by inversion H2.
      - inversion H2 as [|m' s' ? l2' Hs' H2']; subst. f_equal; [congruence|by apply IH]. }
    destruct Hfb as (s & i & Hm & Hs & _ & Hafter).
    destruct i as [|[|[|[|i]]]]; simpl in Hm; try discriminate Hm.
    simpl in Hs. injection Hs as <-.
    specialize (Hafter 1%nat (Fin 24)). simpl in Hafter.
    assert (false = true) by (apply Hafter; [lia|reflexivity]). discriminate.
Qed.

Lemma play_finishedGameWhite : play finishedGameWhite = Some finishedStateWhite.
Proof. vm_compute. reflexivity. Qed.

(** The stale cache reaches [getMove]: after a game that White ends, White
    is still the player to move and has no legal move, yet [getMove]
    returns a cell of the stale list. *)
Lemma getMove_after_game_over :
  reachable finishedStateWhite
  ∧ gameOver finishedStateWhite = true
  ∧ currentPlayer finishedStateWhite = WHITE
  ∧ findValidMoves (board finishedStateWhite) WHITE = Some []
  ∧ getMove 4 (mkAI 4 0) finishedStateWhite = Some (Some (mkMove 2 5), mkAI 4 6)
  ∧ isValidMove (board finishedStateWhite) 2 5 WHITE = Some false.
Proof.
  split; [exact (play_reachable _ _ play_finishedGameWhite)|].
  repeat split; vm_compute; reflexivity.
Qed.

(** ** The store: allocation, reads and in-place writes *)

#[local] Opaque isValidMove getFlippedDiscs findValidMoves determineWinner.

Lemma store_alloc (h : Store.Heap) x l h' :
  Store.alloc h x = (l, h') → h !! l = None ∧ h' = <[l := x]> h.
Proof.
  unfold Store.alloc. intros [= <- <-]. split; [|done].
  apply not_elem_of_dom, is_fresh.
Qed.

Lemma store_allocRows b : ∀ (h : Store.Heap) ls h',
  Store.allocRows h b = (ls, h') →
  h ⊆ h' ∧ NoDup ls ∧ (∀ l, l ∈ ls → h !! l = None)
  ∧ Forall2 (λ l cells, h' !! l = Some (Store.Row cells)) ls b.
Proof.
  induction b as [|cells b IH]; intros h ls h'; cbn [Store.allocRows].
  - intros [= <- <-]. split; [done|]. split; [constructor|].
    split; [by intros l ?%elem_of_nil|constructor].
  - destruct (Store.alloc h (Store.Row cells)) as [l h1] eqn:Ha.
    destruct (Store.allocRows h1 b) as [ls' h2] eqn:Hr. intros [= <- <-].
    apply store_alloc in Ha as [Hfresh ->].
    destruct (IH _ _ _ Hr) as (Hsub & Hnd & Hnew & Hall).
    assert (Hl : h2 !! l = Some (Store.Row cells)).
    { eapply lookup_weaken; [|exact Hsub]. apply lookup_insert_eq. }
    split; [|split; [|split]].
    + etrans; [|exact Hsub]. by apply insert_subseteq.
    + constructor; [|done]. intros Hin. apply Hnew in Hin.
      by rewrite lookup_insert_eq in Hin.
    + intros l' [->|Hin]%elem_of_cons; [done|].
      apply Hnew in Hin. apply lookup_insert_None in Hin. tauto.
    + by constructor.
Qed.

Lemma store_getRow_mapM (h : Store.Heap) ls b :
  Forall2 (λ l cells, h !! l = Some (Store.Row cells)) ls b →
  mapM (Store.getRow h) ls = Some b.
Proof.
  intros H. apply mapM_Some_2. eapply Forall2_impl; [exact H|].
  intros l cells Hl. unfold Store.getRow. by rewrite Hl.
Qed.

Lemma store_getRow_Some (h : Store.Heap) l cells :
  Store.getRow h l = Some cells ↔ h !! l = Some (Store.Row cells).
Proof.
  unfold Store.getRow. destruct (h !! l) as [[]|]; split; congruence.
Qed.

Lemma store_getRows_Some (h : Store.Heap) l rows :
  Store.getRows h l = Some rows ↔ h !! l = Some (Store.Rows rows).
Proof.
  unfold Store.getRows. destruct (h !! l) as [[]|]; split; congruence.
Qed.

Lemma store_getHistory_Some (h : Store.Heap) l entries :
  Store.getHistory h l = Some entries ↔ h !! l = Some (Store.History entries).
Proof.
  unfold Store.getHistory. destruct (h !! l) as [[]|]; split; congruence.
Qed.

Lemma store_getGame_Some (h : Store.Heap) l o :
  Store.getGame h l = Some o ↔ h !! l = Some (Store.Game o).
Proof.
  unfold Store.getGame. destruct (h !! l) as [[]|]; split; congruence.
Qed.

Lemma store_allocBoard (h : Store.Heap) b bl h' :
  Store.allocBoard h b = (bl, h') →
  h ⊆ h' ∧ h !! bl = None
  ∧ ∃ rows, Store.getRows h' bl = Some rows ∧ NoDup rows
            ∧ (∀ l, l ∈ rows → h !! l = None)
            ∧ mapM (Store.getRow h') rows = Some b.
Proof.
  unfold Store.allocBoard. destruct (Store.allocRows h b) as [ls h1] eqn:Hr.
  intros [Hfresh ->]%store_alloc.
  destruct (store_allocRows _ _ _ _ Hr) as (Hsub & Hnd & Hnew & Hall).
  assert (Hsub1 : h1 ⊆ <[bl := Store.Rows ls]> h1) by (by apply insert_subseteq).
  split; [|split].
  - by etrans.
  - destruct (h !! bl) eqn:Hb; [|done].
    eapply lookup_weaken in Hb; [|exact Hsub]. congruence.
  - exists ls. split; [|split; [done|split; [done|]]].
    + apply store_getRows_Some, lookup_insert_eq.
    + apply store_getRow_mapM. eapply Forall2_impl; [exact Hall|].
      intros l cells Hl. eapply lookup_weaken; [exact Hl|exact Hsub1].
Qed.

(** *** Writes that touch rows only *)

Lemma rowWrites_refl rows (h : Store.Heap) : Store.rowWrites rows h h.
Proof. intros l. by left. Qed.

Lemma rowWrites_trans rows (h1 h2 h3 : Store.Heap) :
  Store.rowWrites rows h1 h2 → Store.rowWrites rows h2 h3 → Store.rowWrites rows h1 h3.
Proof.
  intros H12 H23 l. destruct (H12 l) as [E12|(Hin & c & c' & Hc & Hc')],
    (H23 l) as [E23|(Hin' & d & d' & Hd & Hd')].
  - left. congruence.
  - right. split; [done|]. exists d, d'. split; congruence.
  - right. split; [done|]. exists c, c'. split; congruence.
  - right. split; [done|]. exists c, d'. split; congruence.
Qed.

Lemma rowWrites_outside rows (h h' : Store.Heap) l :
  Store.rowWrites rows h h' → l ∉ rows → h' !! l = h !! l.
Proof. intros H Hl. destruct (H l) as [?|[? _]]; done. Qed.

Lemma rowWrites_getRows rows (h h' : Store.Heap) l :
  Store.rowWrites rows h h' → Store.getRows h' l = Store.getRows h l.
Proof.
  intros H. unfold Store.getRows.
  destruct (H l) as [->|(_ & c & c' & -> & ->)]; done.
Qed.

Lemma rowWrites_getGame rows (h h' : Store.Heap) l :
  Store.rowWrites rows h h' → Store.getGame h' l = Store.getGame h l.
Proof.
  intros H. unfold Store.getGame.
  destruct (H l) as [->|(_ & c & c' & -> & ->)]; done.
Qed.

Lemma rowWrites_getHistory rows (h h' : Store.Heap) l :
  Store.rowWrites rows h h' → Store.getHistory h' l = Store.getHistory h l.
Proof.
  intros H. unfold Store.getHistory.
  destruct (H l) as [->|(_ & c & c' & -> & ->)]; done.
Qed.

Lemma rowWrites_subseteq rows (h0 h h' : Store.Heap) :
  h0 ⊆ h → Store.rowWrites rows h h' → (∀ l, l ∈ rows → h0 !! l = None) → h0 ⊆ h'.
Proof.
  intros Hsub Hw Hnew. apply map_subseteq_spec. intros l x Hl.
  destruct (Hw l) as [->|(Hin & _)].
  - by eapply lookup_weaken.
  - apply Hnew in Hin. congruence.
Qed.

Lemma store_writeCell_inv (h : Store.Heap) bl r c v h' :
  Store.writeCell h bl r c v = Some h' →
  ∃ rows rl cells,
    Store.getRows h bl = Some rows ∧ 0 ≤ r ∧ 0 ≤ c
    ∧ rows !! Z.to_nat r = Some rl ∧ h !! rl = Some (Store.Row cells)
    ∧ (Z.to_nat c < length cells)%nat
    ∧ h' = <[rl := Store.Row (<[Z.to_nat c := v]> cells)]> h.
Proof.
  unfold Store.writeCell. destruct (_ && _) eqn:E; [|done].
  apply andb_true_iff in E as [H1%Z.leb_le H2%Z.leb_le].
  destruct (Store.getRows h bl) as [rows|]; [|done]. cbn [mbind option_bind].
  destruct (rows !! Z.to_nat r) as [rl|] eqn:Hrl; [|done]. cbn [mbind option_bind].
  destruct (Store.getRow h rl) as [cells|] eqn:Hcells; [|done]. cbn [mbind option_bind].
  case_decide; [|done]. intros [= <-].
  exists rows, rl, cells. repeat split; try done. by apply store_getRow_Some.
Qed.

Lemma store_writeCell_rowWrites (h : Store.Heap) bl r c v h' rows :
  Store.getRows h bl = Some rows →
  Store.writeCell h bl r c v = Some h' → Store.rowWrites rows h h'.
Proof.
  intros Hrows (rows' & rl & cells & Hrows' & _ & _ & Hrl & Hcells & _ & ->)%store_writeCell_inv.
  rewrite Hrows in Hrows'. injection Hrows' as <-.
  intros l. destruct (decide (l = rl)) as [->|Hne].
  - right. split; [by eapply list_elem_of_lookup_2|].
    exists cells, (<[Z.to_nat c := v]> cells). split; [done|apply lookup_insert_eq].
  - left. by apply lookup_insert_ne.
Qed.

Lemma store_flipAll_rowWrites fl : ∀ (h : Store.Heap) bl p h' rows,
  Store.getRows h bl = Some rows →
  Store.flipAll h bl p fl = Some h' → Store.rowWrites rows h h'.
Proof.
  induction fl as [|m fl IH]; intros h bl p h' rows Hrows; cbn [Store.flipAll].
  - intros [= <-]. apply rowWrites_refl.
  - destruct (Store.writeCell h bl (row m) (col m) (Disc p)) as [h1|] eqn:Hw; [|done].
    cbn [mbind option_bind]. intros Hf.
    pose proof (store_writeCell_rowWrites _ _ _ _ _ _ _ Hrows Hw) as H1.
    eapply rowWrites_trans; [exact H1|]. eapply IH; [|exact Hf].
    by rewrite (rowWrites_getRows _ _ _ _ H1).
Qed.

(** A write through distinct row references is the write on the board read. *)
Lemma store_writeCell_sim (h : Store.Heap) bl rows b r c v b' :
  Store.getRows h bl = Some rows → NoDup rows →
  mapM (Store.getRow h) rows = Some b →
  setCell b r c v = Some b' →
  ∃ h', Store.writeCell h bl r c v = Some h'
        ∧ mapM (Store.getRow h') rows = Some b'.
Proof.
  intros Hrows Hnd Hb (Hr & Hc & cells & Hcells & Hlt & ->)%setCell_inv.
  apply mapM_Some_1 in Hb.
  destruct (Forall2_lookup_r _ _ _ _ _ Hb Hcells) as (rl & Hrl & Hget).
  unfold Store.writeCell.
  rewrite (proj2 (andb_true_iff _ _)) by (rewrite !Z.leb_le; lia).
  rewrite Hrows. cbn [mbind option_bind]. rewrite Hrl. cbn [mbind option_bind].
  rewrite Hget. cbn [mbind option_bind]. rewrite decide_True by done.
  eexists. split; [reflexivity|]. apply mapM_Some_2.
  apply Forall2_lookup. intros i.
  destruct (decide (i = Z.to_nat r)) as [->|Hne].
  - rewrite Hrl, list_lookup_insert_eq by (by eapply lookup_lt_Some).
    constructor. apply store_getRow_Some, lookup_insert_eq.
  - rewrite list_lookup_insert_ne by done.
    pose proof (proj1 (Forall2_lookup _ _ _) Hb i) as Hi.
    destruct (rows !! i) as [l|] eqn:Hli; destruct (b !! i) as [cs|] eqn:Hbi;
      inversion Hi as [? ? Hl|]; subst; constructor.
    apply store_getRow_Some. rewrite lookup_insert_ne; [by apply store_getRow_Some|].
    intros <-. apply Hne. by eapply NoDup_lookup.
Qed.

Lemma store_flipAll_sim fl : ∀ (h : Store.Heap) bl rows b p b',
  Store.getRows h bl = Some rows → NoDup rows →
  mapM (Store.getRow h) rows = Some b →
  flipAll b p fl = Some b' →
  ∃ h', Store.flipAll h bl p fl = Some h'
        ∧ mapM (Store.getRow h') rows = Some b'.
Proof.
  induction fl as [|m fl IH]; intros h bl rows b p b' Hrows Hnd Hb; cbn [flipAll Store.flipAll].
  - intros [= <-]. by exists h.
  - destruct (setCell b (row m) (col m) (Disc p)) as [b1|] eqn:Hs; [|done].
    cbn [mbind option_bind]. intros Hf.
    destruct (store_writeCell_sim h bl rows b _ _ _ b1 Hrows Hnd Hb Hs) as (h1 & Hw & Hb1).
    rewrite Hw. cbn [mbind option_bind].
    eapply IH; try done.
    rewrite (rowWrites_getRows rows h h1); [done|].
    by eapply store_writeCell_rowWrites.
Qed.

(** ** Game objects in the store *)

Lemma store_weaken_None (h h' : Store.Heap) l : h ⊆ h' → h' !! l = None → h !! l = None.
Proof.
  intros Hsub Hl. destruct (h !! l) eqn:E; [|done].
  eapply lookup_weaken in E; [|exact Hsub]. congruence.
Qed.

Lemma store_rows_weaken (h h' : Store.Heap) rows b :
  h ⊆ h' → mapM (Store.getRow h) rows = Some b → mapM (Store.getRow h') rows = Some b.
Proof.
  intros Hsub Hb%mapM_Some_1. apply mapM_Some_2.
  eapply Forall2_impl; [exact Hb|]. intros l cells Hl%store_getRow_Some.
  apply store_getRow_Some. by eapply lookup_weaken.
Qed.

Lemma store_rows_agree (h h' : Store.Heap) rows b :
  (∀ l, l ∈ rows → h' !! l = h !! l) →
  mapM (Store.getRow h) rows = Some b → mapM (Store.getRow h') rows = Some b.
Proof.
  intros Hag Hb%mapM_Some_1. apply mapM_Some_2.
  induction Hb as [|l cells rows b Hl _ IH]; constructor.
  - unfold Store.getRow in *. rewrite Hag; [done|by left].
  - apply IH. intros l' Hl'. apply Hag. by right.
Qed.

Lemma store_view_inv (h : Store.Heap) g s :
  Store.view h g = Some s →
  ∃ o rows,
    Store.getGame h g = Some o
    ∧ Store.getRows h (Store.o_board o) = Some rows
    ∧ mapM (Store.getRow h) rows = Some (board s)
    ∧ Store.getHistory h (Store.o_moveHistory o) = Some (moveHistory s)
    ∧ s = mkGame (board s) (Store.o_currentPlayer o) (Store.o_gameOver o) (Store.o_winner o)
                 (Store.o_lastMove o) (Store.o_flippedDiscs o) (Store.o_validMoves o)
                 (moveHistory s).
Proof.
  unfold Store.view, Store.readBoard.
  destruct (Store.getGame h g) as [o|] eqn:Hg; [|done]. cbn [mbind option_bind].
  destruct (Store.getRows h (Store.o_board o)) as [rows|] eqn:Hrows; [|done].
  cbn [mbind option_bind].
  destruct (mapM (Store.getRow h) rows) as [b|] eqn:Hb; [|done]. cbn [mbind option_bind].
  destruct (Store.getHistory h (Store.o_moveHistory o)) as [entries|] eqn:Hh; [|done].
  cbn [mbind option_bind]. intros [= <-]. by exists o, rows.
Qed.

Lemma store_view_intro (h : Store.Heap) g o rows b entries :
  Store.getGame h g = Some o →
  Store.getRows h (Store.o_board o) = Some rows →
  mapM (Store.getRow h) rows = Some b →
  Store.getHistory h (Store.o_moveHistory o) = Some entries →
  Store.view h g
  = Some (mkGame b (Store.o_currentPlayer o) (Store.o_gameOver o) (Store.o_winner o)
                 (Store.o_lastMove o) (Store.o_flippedDiscs o) (Store.o_validMoves o) entries).
Proof.
  intros Hg Hrows Hb Hh. unfold Store.view, Store.readBoard.
  rewrite Hg. cbn [mbind option_bind]. rewrite Hrows. cbn [mbind option_bind].
  rewrite Hb. cbn [mbind option_bind]. rewrite Hh. done.
Qed.

Lemma store_storage_elem (h : Store.Heap) g o rows l :
  Store.getGame h g = Some o → Store.getRows h (Store.o_board o) = Some rows →
  l ∈ Store.storage h g
  ↔ (l = g ∨ l = Store.o_board o ∨ l = Store.o_moveHistory o ∨ l ∈ rows).
Proof.
  intros Hg Hrows. unfold Store.storage. rewrite Hg, Hrows.
  rewrite elem_of_union, !elem_of_union, !elem_of_singleton, elem_of_list_to_set. tauto.
Qed.

Lemma store_storage_allocated (h : Store.Heap) g s l :
  Store.view h g = Some s → l ∈ Store.storage h g → is_Some (h !! l).
Proof.
  intros (o & rows & Hg & Hrows & Hb & Hh & _)%store_view_inv Hl.
  apply (store_storage_elem h g o rows l Hg Hrows) in Hl as [->|[->|[->|Hl]]].
  - apply store_getGame_Some in Hg. by eexists.
  - apply store_getRows_Some in Hrows. by eexists.
  - apply store_getHistory_Some in Hh. by eexists.
  - apply mapM_Some_1 in Hb.
    apply list_elem_of_lookup in Hl as [i Hi].
    destruct (Forall2_lookup_l _ _ _ _ _ Hb Hi) as (cells & _ & Hc).
    apply store_getRow_Some in Hc. by eexists.
Qed.

(** An object reads the same in any store that agrees on its storage. *)
Lemma store_view_agree (h h' : Store.Heap) g s :
  Store.view h g = Some s →
  (∀ l, l ∈ Store.storage h g → h' !! l = h !! l) →
  Store.view h' g = Some s ∧ Store.storage h' g = Store.storage h g.
Proof.
  intros Hv Hag.
  pose proof Hv as (o & rows & Hg & Hrows & Hb & Hh & Hs)%store_view_inv.
  assert (Hin : ∀ l, (l = g ∨ l = Store.o_board o ∨ l = Store.o_moveHistory o ∨ l ∈ rows)
                     → h' !! l = h !! l).
  { intros l Hl. apply Hag. by apply (store_storage_elem h g o rows l Hg Hrows). }
  assert (Hg' : Store.getGame h' g = Some o).
  { unfold Store.getGame in *. rewrite Hin; [done|by left]. }
  assert (Hrows' : Store.getRows h' (Store.o_board o) = Some rows).
  { unfold Store.getRows in *. rewrite Hin; [done|by right; left]. }
  assert (Hh' : Store.getHistory h' (Store.o_moveHistory o) = Some (moveHistory s)).
  { unfold Store.getHistory in *. rewrite Hin; [done|by right; right; left]. }
  split.
  - rewrite (store_view_intro h' g o rows (board s) (moveHistory s)); try done.
    + by rewrite <- Hs.
    + eapply store_rows_agree; [|exact Hb]. intros l Hl. apply Hin. tauto.
  - unfold Store.storage. by rewrite Hg, Hg', Hrows, Hrows'.
Qed.

(** [new OthelloGame()] returns in every store, builds the initial
    position out of fresh locations and leaves the rest as it was. *)
Lemma store_newGame (h : Store.Heap) :
  ∃ this h',
    Store.newGame h = Some (this, h')
    ∧ h ⊆ h'
    ∧ Store.view h' this = Some initialGame
    ∧ (∀ l, l ∈ Store.storage h' this → h !! l = None)
    ∧ Store.separate h' this.
Proof.
  unfold Store.newGame.
  destruct (Store.allocBoard h emptyBoard) as [bl h1] eqn:Hab.
  apply store_allocBoard in Hab as (Hsub1 & Hbl & rows & Hrows1 & Hnd & Hnew & Hb1).
  destruct (store_writeCell_sim h1 bl rows emptyBoard 3 3 (Disc WHITE) _ Hrows1 Hnd Hb1 eq_refl)
    as (h2 & Hw2 & Hb2).
  pose proof (store_writeCell_rowWrites _ _ _ _ _ _ _ Hrows1 Hw2) as Hrw2.
  assert (Hrows2 : Store.getRows h2 bl = Some rows)
    by (by rewrite (rowWrites_getRows _ _ _ _ Hrw2)).
  destruct (store_writeCell_sim h2 bl rows _ 3 4 (Disc BLACK) _ Hrows2 Hnd Hb2 eq_refl)
    as (h3 & Hw3 & Hb3).
  pose proof (store_writeCell_rowWrites _ _ _ _ _ _ _ Hrows2 Hw3) as Hrw3.
  assert (Hrows3 : Store.getRows h3 bl = Some rows)
    by (by rewrite (rowWrites_getRows _ _ _ _ Hrw3)).
  destruct (store_writeCell_sim h3 bl rows _ 4 3 (Disc BLACK) _ Hrows3 Hnd Hb3 eq_refl)
    as (h4 & Hw4 & Hb4).
  pose proof (store_writeCell_rowWrites _ _ _ _ _ _ _ Hrows3 Hw4) as Hrw4.
  assert (Hrows4 : Store.getRows h4 bl = Some rows)
    by (by rewrite (rowWrites_getRows _ _ _ _ Hrw4)).
  destruct (store_writeCell_sim h4 bl rows _ 4 4 (Disc WHITE) _ Hrows4 Hnd Hb4 eq_refl)
    as (h5 & Hw5 & Hb5).
  pose proof (store_writeCell_rowWrites _ _ _ _ _ _ _ Hrows4 Hw5) as Hrw5.
  assert (Hrows5 : Store.getRows h5 bl = Some rows)
    by (by rewrite (rowWrites_getRows _ _ _ _ Hrw5)).
  rewrite Hw2. cbn [mbind option_bind]. rewrite Hw3. cbn [mbind option_bind].
  rewrite Hw4. cbn [mbind option_bind]. rewrite Hw5. cbn [mbind option_bind].
  assert (Hb : mapM (Store.getRow h5) rows = Some (board initialGame)) by exact Hb5.
  clear Hb1 Hb2 Hb3 Hb4 Hb5 Hw2 Hw3 Hw4 Hw5.
  assert (Hsub5 : h ⊆ h5).
  { eapply rowWrites_subseteq; [|exact Hrw5|exact Hnew].
    eapply rowWrites_subseteq; [|exact Hrw4|exact Hnew].
    eapply rowWrites_subseteq; [|exact Hrw3|exact Hnew].
    eapply rowWrites_subseteq; [|exact Hrw2|exact Hnew]. exact Hsub1. }
  destruct (Store.alloc h5 (Store.History [])) as [hist h6] eqn:Hah.
  apply store_alloc in Hah as [Hhist ->].
  set (h6 := <[hist := Store.History []]> h5).
  assert (Hsub56 : h5 ⊆ h6) by (by apply insert_subseteq).
  assert (Hrows6 : Store.getRows h6 bl = Some rows).
  { apply store_getRows_Some. eapply lookup_weaken; [|exact Hsub56].
    by apply store_getRows_Some. }
  pose proof (store_rows_weaken _ _ _ _ Hsub56 Hb) as Hb6.
  unfold Store.readBoard. rewrite Hrows6. cbn [mbind option_bind].
  rewrite Hb6. cbn [mbind option_bind].
  assert (Hmoves : findValidMoves (board initialGame) BLACK = Some (validMoves initialGame))
    by (vm_compute; reflexivity).
  rewrite Hmoves. cbn [mbind option_bind].
  destruct (Store.alloc h6 _) as [this h7] eqn:Hag.
  apply store_alloc in Hag as [Hthis ->].
  set (o := Store.mkObj bl BLACK false None None [] (validMoves initialGame) hist).
  set (h7 := <[this := Store.Game o]> h6).
  assert (Hsub67 : h6 ⊆ h7) by (by apply insert_subseteq).
  assert (Hg7 : Store.getGame h7 this = Some o)
    by (apply store_getGame_Some, lookup_insert_eq).
  assert (Hrows7 : Store.getRows h7 (Store.o_board o) = Some rows).
  { apply store_getRows_Some. eapply lookup_weaken; [|exact Hsub67].
    by apply store_getRows_Some. }
  exists this, h7. split; [reflexivity|]. split; [|split; [|split]].
  - etrans; [exact Hsub5|]. by etrans.
  - rewrite (store_view_intro h7 this o rows (board initialGame) []);
      [reflexivity|exact Hg7|exact Hrows7| |].
    + eapply store_rows_weaken; [exact Hsub67|exact Hb6].
    + apply store_getHistory_Some. eapply lookup_weaken; [|exact Hsub67].
      apply lookup_insert_eq.
  - intros l Hl.
    apply (store_storage_elem h7 this o rows l Hg7 Hrows7) in Hl as [->|[->|[->|Hl]]].
    + eapply store_weaken_None; [|exact Hthis]. by etrans.
    + exact Hbl.
    + by eapply store_weaken_None.
    + by apply Hnew.
  - exists o, rows. split; [exact Hg7|]. split; [exact Hrows7|exact Hnd].
Qed.

(** ** clone in the store *)

Lemma store_kind_ne (h : Store.Heap) l1 l2 x1 x2 :
  h !! l1 = Some x1 → h !! l2 = Some x2 → x1 ≠ x2 → l1 ≠ l2.
Proof. intros H1 H2 Hne ->. congruence. Qed.

Lemma store_clone (h : Store.Heap) src s :
  Store.view h src = Some s →
  ∃ cp h1 c,
    Store.clone src h = Some (cp, h1)
    ∧ clone s = Some c
    ∧ Store.view h1 cp = Some c
    ∧ Store.view h1 src = Some s
    ∧ Store.storage h1 src = Store.storage h src
    ∧ (∀ l, l ∈ Store.storage h1 cp → h !! l = None)
    ∧ Store.separate h1 cp
    ∧ h ⊆ h1.
Proof.
  intros Hv.
  pose proof Hv as (o & rows & Hg & Hrows & Hb & Hh & Hs)%store_view_inv.
  destruct (store_newGame h) as (copy & h' & Hnew & Hsub & Hv' & Hfresh' & _).
  pose proof Hv' as (c0 & rows0 & Hg0 & Hrows0 & _ & Hh0 & Hs0)%store_view_inv.
  pose proof (f_equal lastMove Hs0) as Hlast. cbn [lastMove] in Hlast.
  pose proof (f_equal flippedDiscs Hs0) as Hflip. cbn [flippedDiscs] in Hflip.
  change (moveHistory initialGame) with (@nil HistoryEntry) in Hh0.
  change (lastMove initialGame) with (@None Move) in Hlast.
  change (flippedDiscs initialGame) with (@nil Move) in Hflip.
  clear Hs0.
  assert (Hrows' : Store.getRows h' (Store.o_board o) = Some rows).
  { apply store_getRows_Some. eapply lookup_weaken; [|exact Hsub].
    by apply store_getRows_Some. }
  pose proof (store_rows_weaken _ _ _ _ Hsub Hb) as Hb'.
  unfold Store.clone. rewrite Hg. cbn [mbind option_bind].
  rewrite Hnew. cbn [mbind option_bind]. rewrite Hg0. cbn [mbind option_bind].
  unfold Store.readBoard. rewrite Hrows'. cbn [mbind option_bind].
  rewrite Hb'. cbn [mbind option_bind].
  destruct (Store.allocBoard h' (board s)) as [bl h''] eqn:Hab.
  apply store_allocBoard in Hab as (Hsub' & Hbl & rows2 & Hrows2 & Hnd2 & Hnew2 & Hb2).
  set (oc := Store.mkObj bl (Store.o_currentPlayer o) (Store.o_gameOver o) (Store.o_winner o)
                         (Store.o_lastMove c0) (Store.o_flippedDiscs c0)
                         (Store.o_validMoves o) (Store.o_moveHistory c0)).
  set (hf := <[copy := Store.Game oc]> h'').
  assert (Hcopy' : h' !! copy = Some (Store.Game c0)) by (by apply store_getGame_Some).
  assert (Hcopy : h !! copy = None).
  { apply Hfresh'. apply (store_storage_elem h' copy c0 rows0 copy Hg0 Hrows0). by left. }
  assert (Hhist0 : h !! Store.o_moveHistory c0 = None).
  { apply Hfresh'.
    apply (store_storage_elem h' copy c0 rows0 (Store.o_moveHistory c0) Hg0 Hrows0). tauto. }
  assert (Hout : ∀ l, l ≠ copy → hf !! l = h'' !! l)
    by (intros l Hl; by apply lookup_insert_ne).
  assert (Hgf : Store.getGame hf copy = Some oc)
    by (apply store_getGame_Some, lookup_insert_eq).
  assert (Hblne : bl ≠ copy) by (intros ->; congruence).
  assert (Hrowsf : Store.getRows hf (Store.o_board oc) = Some rows2).
  { unfold Store.getRows in *. cbn [Store.o_board oc]. by rewrite Hout. }
  assert (Hbf : mapM (Store.getRow hf) rows2 = Some (board s)).
  { eapply store_rows_agree; [|exact Hb2]. intros l Hl. apply Hout.
    intros ->. apply Hnew2 in Hl. congruence. }
  assert (Hhf : Store.getHistory hf (Store.o_moveHistory oc) = Some []).
  { cbn [Store.o_moveHistory oc]. apply store_getHistory_Some. rewrite Hout.
    - eapply lookup_weaken; [|exact Hsub']. by apply store_getHistory_Some.
    - apply store_getHistory_Some in Hh0. intros E. rewrite E in Hh0. congruence. }
  pose proof (f_equal currentPlayer Hs) as Hcur. cbn [currentPlayer] in Hcur.
  pose proof (f_equal gameOver Hs) as Hover. cbn [gameOver] in Hover.
  pose proof (f_equal winner Hs) as Hwin. cbn [winner] in Hwin.
  pose proof (f_equal validMoves Hs) as Hvm. cbn [validMoves] in Hvm.
  exists copy, hf, (mkGame (board s) (currentPlayer s) (gameOver s) (winner s)
                          None [] (validMoves s) []).
  split; [reflexivity|]. split; [apply clone_val|].
  split; [|split; [|split; [|split; [|split]]]].
  - rewrite (store_view_intro hf copy oc rows2 (board s) [] Hgf Hrowsf Hbf Hhf).
    cbn [Store.o_currentPlayer Store.o_gameOver Store.o_winner Store.o_lastMove
         Store.o_flippedDiscs Store.o_validMoves oc].
    by rewrite Hlast, Hflip, Hcur, Hover, Hwin, Hvm.
  - apply (store_view_agree h hf src s Hv). intros l Hl.
    destruct (store_storage_allocated h src s l Hv Hl) as [x Hx].
    rewrite Hout by (intros ->; congruence).
    rewrite Hx. eapply lookup_weaken; [exact Hx|]. by etrans.
  - apply (store_view_agree h hf src s Hv). intros l Hl.
    destruct (store_storage_allocated h src s l Hv Hl) as [x Hx].
    rewrite Hout by (intros ->; congruence).
    rewrite Hx. eapply lookup_weaken; [exact Hx|]. by etrans.
  - intros l Hl.
    apply (store_storage_elem hf copy oc rows2 l Hgf Hrowsf) in Hl as [->|[->|[->|Hl]]].
    + exact Hcopy.
    + by eapply store_weaken_None.
    + exact Hhist0.
    + eapply store_weaken_None; [exact Hsub|]. by apply Hnew2.
  - exists oc, rows2. split; [exact Hgf|]. split; [exact Hrowsf|exact Hnd2].
  - apply map_subseteq_spec. intros l x Hx.
    rewrite Hout by (intros ->; congruence).
    eapply lookup_weaken; [exact Hx|]. by etrans.
Qed.

(** ** makeMove in the store writes its own object only *)

Lemma store_fields_frame (h h2 : Store.Heap) this o rows entries entries' o' :
  Store.getGame h this = Some o →
  Store.getRows h (Store.o_board o) = Some rows →
  Store.rowWrites rows h h2 →
  Store.getHistory h2 (Store.o_moveHistory o) = Some entries →
  Store.o_board o' = Store.o_board o →
  Store.o_moveHistory o' = Store.o_moveHistory o →
  let hf := <[this := Store.Game o']> (<[Store.o_moveHistory o := Store.History entries']> h2) in
  (∀ l, l ∉ Store.storage h this → hf !! l = h !! l)
  ∧ Store.storage hf this = Store.storage h this
  ∧ Store.getGame hf this = Some o'
  ∧ Store.getRows hf (Store.o_board o) = Some rows
  ∧ (∀ b, mapM (Store.getRow h2) rows = Some b → mapM (Store.getRow hf) rows = Some b)
  ∧ Store.getHistory hf (Store.o_moveHistory o) = Some entries'.
Proof.
  intros Hg Hrows Hrw Hh Hbo Hho hf.
  assert (Hg2 : h2 !! this = Some (Store.Game o)).
  { apply store_getGame_Some. rewrite (rowWrites_getGame _ _ _ _ Hrw). exact Hg. }
  assert (Hrows2 : h2 !! Store.o_board o = Some (Store.Rows rows)).
  { apply store_getRows_Some. rewrite (rowWrites_getRows _ _ _ _ Hrw). exact Hrows. }
  apply store_getHistory_Some in Hh.
  assert (Hne1 : Store.o_moveHistory o ≠ this)
    by (eapply store_kind_ne; [exact Hh|exact Hg2|done]).
  assert (Hne2 : Store.o_board o ≠ this)
    by (eapply store_kind_ne; [exact Hrows2|exact Hg2|done]).
  assert (Hne3 : Store.o_board o ≠ Store.o_moveHistory o)
    by (eapply store_kind_ne; [exact Hrows2|exact Hh|done]).
  assert (Hgf : Store.getGame hf this = Some o')
    by (apply store_getGame_Some, lookup_insert_eq).
  assert (Hrowsf : Store.getRows hf (Store.o_board o) = Some rows).
  { apply store_getRows_Some. unfold hf.
    rewrite lookup_insert_ne by done. rewrite lookup_insert_ne by done. exact Hrows2. }
  assert (Hout : ∀ l, l ≠ this → l ≠ Store.o_moveHistory o → hf !! l = h2 !! l).
  { intros l H1 H2. unfold hf. rewrite lookup_insert_ne by done.
    by rewrite lookup_insert_ne. }
  split; [|split; [|split; [exact Hgf|split; [exact Hrowsf|split]]]].
  - intros l Hl.
    assert (Hl' : ¬ (l = this ∨ l = Store.o_board o ∨ l = Store.o_moveHistory o ∨ l ∈ rows)).
    { intros H. apply Hl. by apply (store_storage_elem h this o rows l Hg Hrows). }
    rewrite Hout by tauto. apply (rowWrites_outside rows); [exact Hrw|tauto].
  - unfold Store.storage. rewrite Hg, Hgf, Hbo, Hho, Hrows, Hrowsf. reflexivity.
  - intros b Hb. eapply store_rows_agree; [|exact Hb]. intros l Hl. apply Hout.
    + apply mapM_Some_1 in Hb. apply list_elem_of_lookup in Hl as [i Hi].
      destruct (Forall2_lookup_l _ _ _ _ _ Hb Hi) as (cells & _ & Hc%store_getRow_Some).
      eapply store_kind_ne; [exact Hc|exact Hg2|done].
    + apply mapM_Some_1 in Hb. apply list_elem_of_lookup in Hl as [i Hi].
      destruct (Forall2_lookup_l _ _ _ _ _ Hb Hi) as (cells & _ & Hc%store_getRow_Some).
      eapply store_kind_ne; [exact Hc|exact Hh|done].
  - apply store_getHistory_Some. unfold hf. rewrite lookup_insert_ne by done.
    apply lookup_insert_eq.
Qed.

Lemma store_makeMove_frame (h : Store.Heap) this r c ok h' :
  Store.makeMove this r c h = Some (ok, h') →
  (∀ l, l ∉ Store.storage h this → h' !! l = h !! l)
  ∧ Store.storage h' this = Store.storage h this.
Proof.
  unfold Store.makeMove, Store.readBoard.
  destruct (Store.getGame h this) as [o|] eqn:Hg; [|done]. cbn [mbind option_bind].
  destruct (Store.o_gameOver o); [by intros [= <- <-]|].
  destruct (Store.getRows h (Store.o_board o)) as [rows|] eqn:Hrows; [|done].
  cbn [mbind option_bind].
  destruct (mapM (Store.getRow h) rows) as [b|]; [|done]. cbn [mbind option_bind].
  destruct (isValidMove b r c (Store.o_currentPlayer o)) as [[|]|]; [|by intros [= <- <-]|done].
  cbn [mbind option_bind negb].
  destruct (getFlippedDiscs b r c (Store.o_currentPlayer o)) as [flipped|]; [|done].
  cbn [mbind option_bind].
  destruct (Store.writeCell h _ r c _) as [h1|] eqn:Hw; [|done]. cbn [mbind option_bind].
  destruct (Store.flipAll h1 _ _ flipped) as [h2|] eqn:Hf; [|done]. cbn [mbind option_bind].
  destruct (Store.getHistory h2 _) as [entries|] eqn:Hh; [|done]. cbn [mbind option_bind].
  pose proof (store_writeCell_rowWrites _ _ _ _ _ _ _ Hrows Hw) as Hrw1.
  assert (Hrows1 : Store.getRows h1 (Store.o_board o) = Some rows)
    by (by rewrite (rowWrites_getRows _ _ _ _ Hrw1)).
  pose proof (store_flipAll_rowWrites _ _ _ _ _ _ Hrows1 Hf) as Hrw2.
  pose proof (rowWrites_trans _ _ _ _ Hrw1 Hrw2) as Hrw.
  set (h3 := <[Store.o_moveHistory o := _]> h2).
  assert (Hfinal : ∀ o', Store.o_board o' = Store.o_board o →
            Store.o_moveHistory o' = Store.o_moveHistory o →
            (∀ l, l ∉ Store.storage h this → <[this := Store.Game o']> h3 !! l = h !! l)
            ∧ Store.storage (<[this := Store.Game o']> h3) this = Store.storage h this).
  { intros o' Hbo Hho.
    destruct (store_fields_frame h h2 this o rows entries
                (entries ++ [mkEntry r c (Store.o_currentPlayer o) flipped]) o'
                Hg Hrows Hrw Hh Hbo Hho) as (H1 & H2 & _). by split. }
  destruct (Store.getRows h3 (Store.o_board o)) as [rows3|];
    [|cbn [mbind option_bind]; discriminate].
  cbn [mbind option_bind].
  destruct (mapM (Store.getRow h3) rows3) as [b'|];
    [|cbn [mbind option_bind]; discriminate].
  cbn [mbind option_bind].
  destruct (findValidMoves b' (opponentOf (Store.o_currentPlayer o))) as [om|];
    [|cbn [mbind option_bind]; discriminate].
  cbn [mbind option_bind].
  destruct (bool_decide (0 < length om)%nat).
  { intros [= <- <-]. apply Hfinal; reflexivity. }
  destruct (findValidMoves b' (Store.o_currentPlayer o)) as [cm|];
    [|cbn [mbind option_bind]; discriminate].
  cbn [mbind option_bind].
  destruct (bool_decide (0 < length cm)%nat).
  { intros [= <- <-]. apply Hfinal; reflexivity. }
  destruct (determineWinner b') as [w|]; [|cbn [mbind option_bind]; discriminate].
  cbn [mbind option_bind].
  intros [= <- <-]. apply Hfinal; reflexivity.
Qed.

Lemma store_makeMoves_frame ms : ∀ (h : Store.Heap) this h',
  Store.makeMoves this ms h = Some h' →
  (∀ l, l ∉ Store.storage h this → h' !! l = h !! l)
  ∧ Store.storage h' this = Store.storage h this.
Proof.
  induction ms as [|[r c] ms IH]; intros h this h'; cbn [Store.makeMoves].
  - by intros [= <-].
  - destruct (Store.makeMove this r c h) as [[ok h1]|] eqn:Hm; [|done].
    cbn [mbind option_bind]. intros Hms.
    destruct (store_makeMove_frame _ _ _ _ _ _ Hm) as [H1 H1s].
    destruct (IH _ _ _ Hms) as [H2 H2s]. split.
    + intros l Hl. rewrite H2 by (by rewrite H1s). by apply H1.
    + by rewrite H2s.
Qed.

(** Moves on one object leave another object as it is when the two share
    no location. *)
Lemma store_makeMoves_other (h : Store.Heap) this other s ms h' :
  Store.view h other = Some s →
  Store.storage h other ## Store.storage h this →
  Store.makeMoves this ms h = Some h' →
  Store.view h' other = Some s
  ∧ Store.storage h' other = Store.storage h other
  ∧ Store.storage h' this = Store.storage h this.
Proof.
  intros Hv Hdisj Hms.
  destruct (store_makeMoves_frame _ _ _ _ Hms) as [Hout Hst].
  destruct (store_view_agree h h' other s Hv) as [Hv' Hst'].
  - intros l Hl. apply Hout. intros Hl'. by apply (Hdisj l).
  - done.
Qed.

(** ** makeMove in the store and makeMove by value *)

Lemma store_makeMove_sim (h : Store.Heap) this s r c ok s' :
  Store.view h this = Some s → Store.separate h this →
  makeMove s r c = Some (ok, s') →
  ∃ h', Store.makeMove this r c h = Some (ok, h')
        ∧ Store.view h' this = Some s'
        ∧ Store.separate h' this.
Proof.
  intros Hv (o0 & rows0 & Hg0 & Hrows0 & Hnd) Hm.
  pose proof Hv as (o & rows & Hg & Hrows & Hb & Hh & Hs)%store_view_inv.
  rewrite Hg in Hg0. injection Hg0 as <-. rewrite Hrows in Hrows0. injection Hrows0 as <-.
  pose proof (f_equal currentPlayer Hs) as Hcur. cbn [currentPlayer] in Hcur.
  pose proof (f_equal gameOver Hs) as Hover. cbn [gameOver] in Hover.
  pose proof (f_equal winner Hs) as Hwin. cbn [winner] in Hwin.
  pose proof (f_equal validMoves Hs) as Hvm. cbn [validMoves] in Hvm.
  clear Hs.
  unfold Store.makeMove, Store.readBoard. rewrite Hg. cbn [mbind option_bind].
  rewrite <- Hover, <- Hcur.
  destruct ok.
  - apply makeMove_true in Hm
      as (Hov & Hlegal & flipped & b1 & Hfl & Hb1 & Hb2 & Hlast & Hflip & Hhist
          & om & Hom & Hcase).
    rewrite Hov, Hrows. cbn [mbind option_bind]. rewrite Hb. cbn [mbind option_bind].
    rewrite Hlegal. cbn [mbind option_bind negb]. rewrite Hfl. cbn [mbind option_bind].
    destruct (store_writeCell_sim h _ rows _ _ _ _ b1 Hrows Hnd Hb Hb1) as (h1 & Hw1 & Hr1).
    pose proof (store_writeCell_rowWrites _ _ _ _ _ _ _ Hrows Hw1) as Hrw1.
    assert (Hrows1 : Store.getRows h1 (Store.o_board o) = Some rows)
      by (by rewrite (rowWrites_getRows _ _ _ _ Hrw1)).
    destruct (store_flipAll_sim flipped h1 _ rows b1 _ _ Hrows1 Hnd Hr1 Hb2)
      as (h2 & Hw2 & Hr2).
    pose proof (store_flipAll_rowWrites _ _ _ _ _ _ Hrows1 Hw2) as Hrw2.
    pose proof (rowWrites_trans _ _ _ _ Hrw1 Hrw2) as Hrw.
    rewrite Hw1. cbn [mbind option_bind]. rewrite Hw2. cbn [mbind option_bind].
    assert (Hh2 : Store.getHistory h2 (Store.o_moveHistory o) = Some (moveHistory s))
      by (by rewrite (rowWrites_getHistory _ _ _ _ Hrw)).
    rewrite Hh2. cbn [mbind option_bind].
    set (entries' := moveHistory s ++ [mkEntry r c (currentPlayer s) flipped]) in *.
    assert (Hfinal : ∀ o', Store.o_board o' = Store.o_board o →
              Store.o_moveHistory o' = Store.o_moveHistory o →
              let hf := <[this := Store.Game o']>
                          (<[Store.o_moveHistory o := Store.History entries']> h2) in
              Store.view hf this
              = Some (mkGame (board s') (Store.o_currentPlayer o') (Store.o_gameOver o')
                             (Store.o_winner o') (Store.o_lastMove o')
                             (Store.o_flippedDiscs o') (Store.o_validMoves o') entries')
              ∧ Store.separate hf this).
    { intros o' Hbo Hho hf.
      destruct (store_fields_frame h h2 this o rows (moveHistory s) entries' o'
                  Hg Hrows Hrw Hh2 Hbo Hho) as (_ & _ & Hgf & Hrowsf & Hbf & Hhf).
      fold hf in Hgf, Hrowsf, Hbf, Hhf. split.
      - apply store_view_intro with (rows := rows); try assumption.
        + by rewrite Hbo.
        + by apply Hbf.
        + by rewrite Hho.
      - exists o', rows. split; [exact Hgf|]. split; [by rewrite Hbo|exact Hnd]. }
    pose proof (store_fields_frame h h2 this o rows (moveHistory s) entries' o
                  Hg Hrows Hrw Hh2 eq_refl eq_refl) as (_ & _ & _ & _ & Hb3 & _).
    assert (Hrows3 : Store.getRows (<[Store.o_moveHistory o := Store.History entries']> h2)
                                   (Store.o_board o) = Some rows).
    { apply store_getRows_Some. rewrite lookup_insert_ne.
      - apply store_getRows_Some. by rewrite (rowWrites_getRows _ _ _ _ Hrw).
      - apply store_getHistory_Some in Hh2.
        assert (Hr : h2 !! Store.o_board o = Some (Store.Rows rows)).
        { apply store_getRows_Some. by rewrite (rowWrites_getRows _ _ _ _ Hrw). }
        intros E. rewrite E in Hh2. congruence. }
    assert (Hb3' : mapM (Store.getRow (<[Store.o_moveHistory o := Store.History entries']> h2))
                        rows = Some (board s')).
    { eapply store_rows_agree; [|exact Hr2]. intros l Hl. apply lookup_insert_ne.
      apply store_getHistory_Some in Hh2. apply mapM_Some_1 in Hr2.
      apply list_elem_of_lookup in Hl as [i Hi].
      destruct (Forall2_lookup_l _ _ _ _ _ Hr2 Hi) as (cells & _ & Hc%store_getRow_Some).
      intros E. rewrite E in Hh2. congruence. }
    rewrite Hrows3. cbn [mbind option_bind]. rewrite Hb3'. cbn [mbind option_bind].
    rewrite Hom. cbn [mbind option_bind].
    assert (Hs' : ∀ cp vm ov w,
              currentPlayer s' = cp → validMoves s' = vm → gameOver s' = ov → winner s' = w →
              mkGame (board s') cp ov w (Some (mkMove r c)) flipped vm entries' = s').
    { intros cp vm ov w <- <- <- <-. destruct s'. cbn in *. by subst. }
    destruct om as [|m om].
    + rewrite bool_decide_eq_false_2 by (simpl; lia).
      destruct Hcase as (cm & Hcm & Hcur' & Hcase).
      rewrite Hcm. cbn [mbind option_bind].
      destruct cm as [|m cm].
      * rewrite bool_decide_eq_false_2 by (simpl; lia).
        destruct Hcase as (Hvm' & Hov' & Hw). rewrite Hw. cbn [mbind option_bind].
        eexists. split; [reflexivity|].
        match goal with |- context [Store.Game ?x] => destruct (Hfinal x eq_refl eq_refl) as [Hvf Hsf] end.
        split; [|exact Hsf]. rewrite Hvf. f_equal.
        cbn [Store.o_currentPlayer Store.o_gameOver Store.o_winner Store.o_lastMove
             Store.o_flippedDiscs Store.o_validMoves].
        apply Hs'; congruence.
      * rewrite bool_decide_eq_true_2 by (simpl; lia).
        destruct Hcase as (Hvm' & Hov' & Hw).
        eexists. split; [reflexivity|].
        match goal with |- context [Store.Game ?x] => destruct (Hfinal x eq_refl eq_refl) as [Hvf Hsf] end.
        split; [|exact Hsf]. rewrite Hvf. f_equal.
        cbn [Store.o_currentPlayer Store.o_gameOver Store.o_winner Store.o_lastMove
             Store.o_flippedDiscs Store.o_validMoves].
        apply Hs'; congruence.
    + rewrite bool_decide_eq_true_2 by (simpl; lia).
      destruct Hcase as (Hcur' & Hvm' & Hov' & Hw).
      eexists. split; [reflexivity|].
      match goal with |- context [Store.Game ?x] => destruct (Hfinal x eq_refl eq_refl) as [Hvf Hsf] end.
      split; [|exact Hsf]. rewrite Hvf. f_equal.
      cbn [Store.o_currentPlayer Store.o_gameOver Store.o_winner Store.o_lastMove
           Store.o_flippedDiscs Store.o_validMoves].
      apply Hs'; congruence.
  - apply makeMove_false in Hm as [-> Hwhy].
    assert (Hsep : Store.separate h this) by (exists o, rows; done).
    destruct Hwhy as [Hov|Hlegal].
    + rewrite Hov. by exists h.
    + destruct (gameOver s); [by exists h|].
      rewrite Hrows. cbn [mbind option_bind]. rewrite Hb. cbn [mbind option_bind].
      rewrite Hlegal. cbn [mbind option_bind negb]. by exists h.
Qed.

(** ** clone and its source: the theorems *)

(** [clone()] returns in every store where [this] is a game object.  The
    copy has the board, player to move, result and cached moves of the
    source, while [lastMove], [flippedDiscs] and [moveHistory] are those of
    a new game; it is the by-value [clone].  The copy is made of locations
    that were free, so it shares none with the source, and every object
    that was in the store is unchanged. *)
Theorem store_clone_copies (h : Store.Heap) (src : Store.loc) (s : OthelloGame) :
  Store.view h src = Some s →
  ∃ cp h1,
    Store.clone src h = Some (cp, h1)
    ∧ Store.view h1 cp
      = Some (mkGame (board s) (currentPlayer s) (gameOver s) (winner s)
                     None [] (validMoves s) [])
    ∧ Store.view h1 cp = clone s
    ∧ Store.view h1 src = Some s
    ∧ Store.storage h1 cp ## Store.storage h1 src
    ∧ (∀ l, l ∈ Store.storage h1 cp → h !! l = None)
    ∧ h ⊆ h1.
Proof.
  intros Hv.
  destruct (store_clone h src s Hv)
    as (cp & h1 & c & Hc & Hcv & Hvc & Hvs & Hst & Hfresh & _ & Hsub).
  rewrite clone_val in Hcv. injection Hcv as <-.
  exists cp, h1. split; [exact Hc|]. split; [exact Hvc|].
  split; [by rewrite clone_val|]. split; [exact Hvs|].
  split; [|split; [exact Hfresh|exact Hsub]].
  intros l Hl1 Hl2. apply Hfresh in Hl1. rewrite Hst in Hl2.
  destruct (store_storage_allocated h src s l Hv Hl2) as [x Hx]. congruence.
Qed.

Lemma store_clone_copies_witness :
  ∃ cp h1,
    Store.clone storeNew.1 storeNew.2 = Some (cp, h1)
    ∧ Store.view h1 cp
      = Some (mkGame (board initialGame) (currentPlayer initialGame) (gameOver initialGame)
                     (winner initialGame) None [] (validMoves initialGame) [])
    ∧ Store.view h1 cp = clone initialGame
    ∧ Store.view h1 storeNew.1 = Some initialGame
    ∧ Store.storage h1 cp ## Store.storage h1 storeNew.1
    ∧ (∀ l, l ∈ Store.storage h1 cp → storeNew.2 !! l = None)
    ∧ storeNew.2 ⊆ h1.
Proof.
  apply (store_clone_copies storeNew.2 storeNew.1 initialGame).
  vm_compute. reflexivity.
Defined.

(** After [clone()], whatever moves are then made on the copy, the source
    reads as before; and whatever moves are made on the source, the copy
    reads as before. *)
Theorem store_clone_independent (h : Store.Heap) (src cp : Store.loc) (s : OthelloGame)
    (h1 h2 : Store.Heap) (ms : list (Z * Z)) :
  Store.view h src = Some s →
  Store.clone src h = Some (cp, h1) →
  (Store.makeMoves cp ms h1 = Some h2 → Store.view h2 src = Some s)
  ∧ (Store.makeMoves src ms h1 = Some h2 → Store.view h2 cp = Store.view h1 cp).
Proof.
  intros Hv Hc.
  destruct (store_clone h src s Hv)
    as (cp' & h1' & c & Hc' & _ & Hvc & Hvs & Hst & Hfresh & _ & _).
  rewrite Hc in Hc'. injection Hc' as <- <-.
  assert (Hdisj : Store.storage h1 src ## Store.storage h1 cp).
  { intros l Hl2 Hl1. apply Hfresh in Hl1. rewrite Hst in Hl2.
    destruct (store_storage_allocated h src s l Hv Hl2) as [x Hx]. congruence. }
  split; intros Hms.
  - by destruct (store_makeMoves_other h1 cp src s ms h2 Hvs Hdisj Hms) as [? _].
  - rewrite Hvc.
    by destruct (store_makeMoves_other h1 src cp c ms h2 Hvc (symmetry Hdisj) Hms) as [? _].
Qed.

Lemma store_clone_independent_on_copy_witness :
  (Store.makeMoves storeCloned.1 [(2, 3); (2, 2)] storeCloned.2 = Some storeCloneMoved →
   Store.view storeCloneMoved storeNew.1 = Some initialGame)
  ∧ (Store.makeMoves storeNew.1 [(2, 3); (2, 2)] storeCloned.2 = Some storeCloneMoved →
     Store.view storeCloneMoved storeCloned.1 = Store.view storeCloned.2 storeCloned.1).
Proof.
  apply (store_clone_independent storeNew.2 storeNew.1 storeCloned.1 initialGame
           storeCloned.2 storeCloneMoved [(2, 3); (2, 2)]).
  - vm_compute. reflexivity.
  - vm_compute. reflexivity.
Defined.

(** On an object whose rows are distinct arrays, [makeMove] in the store
    does what [makeMove] by value does on the object read from the store:
    same returned boolean, same object afterwards. *)
Theorem store_makeMove_agrees (h : Store.Heap) (this : Store.loc) (s : OthelloGame)
    (r c : Z) (ok : bool) (s' : OthelloGame) :
  Store.view h this = Some s → Store.separate h this →
  makeMove s r c = Some (ok, s') →
  ∃ h', Store.makeMove this r c h = Some (ok, h')
        ∧ Store.view h' this = Some s'
        ∧ Store.separate h' this
        ∧ (∀ l, l ∉ Store.storage h this → h' !! l = h !! l).
Proof.
  intros Hv Hsep Hm.
  destruct (store_makeMove_sim h this s r c ok s' Hv Hsep Hm) as (h' & Hm' & Hv' & Hsep').
  exists h'. split; [exact Hm'|]. split; [exact Hv'|]. split; [exact Hsep'|].
  by destruct (store_makeMove_frame _ _ _ _ _ _ Hm') as [? _].
Qed.

Lemma store_makeMove_agrees_witness :
  ∃ h', Store.makeMove storeNew.1 2 3 storeNew.2 = Some (true, h')
        ∧ Store.view h' storeNew.1 = Some afterOpening
        ∧ Store.separate h' storeNew.1
        ∧ (∀ l, l ∉ Store.storage storeNew.2 storeNew.1 → h' !! l = storeNew.2 !! l).
Proof.
  apply (store_makeMove_agrees storeNew.2 storeNew.1 initialGame 2 3 true afterOpening).
  - vm_compute. reflexivity.
  - destruct (store_newGame ∅) as (this & h' & Hn & _ & _ & _ & Hsep).
    assert (Store.newGame ∅ = Some storeNew) as E by (vm_compute; reflexivity).
    rewrite E in Hn. injection Hn as <- <-. exact Hsep.
  - vm_compute. reflexivity.
Defined.

(** ** clone() and the moves made afterwards *)

(** C9. [clone()] returns an object with the board, [currentPlayer],
    [gameOver], [winner] and [validMoves] of the source.  The arrays of
    the copy were not in the store before, so that the copy shares no
    board storage (nor any other array) with the source.  Whatever
    sequence of [makeMove] calls is then applied to the copy, the source
    reads as before, board and fields; and whatever sequence is applied
    to the source, the copy reads as before. *)
Theorem C9_clone_is_independent (h : Store.Heap) (src : Store.loc) (s : OthelloGame) :
  Store.view h src = Some s →
  ∃ cp h1 c,
    Store.clone src h = Some (cp, h1)
    ∧ Store.view h1 cp = Some c
    ∧ board c = board s ∧ currentPlayer c = currentPlayer s ∧ gameOver c = gameOver s
    ∧ winner c = winner s ∧ validMoves c = validMoves s
    ∧ Store.view h1 src = Some s
    ∧ Store.storage h1 cp ## Store.storage h1 src
    ∧ (∀ ms h2, Store.makeMoves cp ms h1 = Some h2 → Store.view h2 src = Some s)
    ∧ (∀ ms h2, Store.makeMoves src ms h1 = Some h2 → Store.view h2 cp = Some c).
Proof.
  intros Hview.
  destruct (store_clone h src s Hview)
    as (cp & h1 & c & Hclone & Hc & Hvc & Hvs & Hst & Hfresh & _ & _).
  assert (Hdisj : Store.storage h1 cp ## Store.storage h1 src).
  { intros l Hl1 Hl2. apply Hfresh in Hl1. rewrite Hst in Hl2.
    destruct (store_storage_allocated h src s l Hview Hl2) as [x Hx]. congruence. }
  rewrite clone_val in Hc. injection Hc as <-.
  eexists cp, h1, _. split; [exact Hclone|]. split; [exact Hvc|].
  cbn [board currentPlayer gameOver winner validMoves].
  do 5 (split; [reflexivity|]). split; [exact Hvs|]. split; [exact Hdisj|]. split.
  - intros ms h2 Hms.
    exact (proj1 (store_makeMoves_other h1 cp src s ms h2 Hvs (symmetry Hdisj) Hms)).
  - intros ms h2 Hms.
    exact (proj1 (store_makeMoves_other h1 src cp _ ms h2 Hvc Hdisj Hms)).
Qed.

Lemma C9_clone_is_independent_witness :
  ∃ cp h1 c,
    Store.clone storeNew.1 storeNew.2 = Some (cp, h1)
    ∧ Store.view h1 cp = Some c
    ∧ board c = board initialGame ∧ currentPlayer c = currentPlayer initialGame
    ∧ gameOver c = gameOver initialGame
    ∧ winner c = winner initialGame ∧ validMoves c = validMoves initialGame
    ∧ Store.view h1 storeNew.1 = Some initialGame
    ∧ Store.storage h1 cp ## Store.storage h1 storeNew.1
    ∧ (∀ ms h2, Store.makeMoves cp ms h1 = Some h2 →
                Store.view h2 storeNew.1 = Some initialGame)
    ∧ (∀ ms h2, Store.makeMoves storeNew.1 ms h1 = Some h2 → Store.view h2 cp = Some c).
Proof.
  apply (C9_clone_is_independent storeNew.2 storeNew.1 initialGame).
  vm_compute. reflexivity.
Defined.

(** ** isValidMove and getFlippedDiscs walk alike *)

#[local] Transparent isValidMove getFlippedDiscs findValidMoves.

Lemma walkLine_length fuel b opponent dr dc r c line line' r' c' :
  walkLine fuel b opponent dr dc r c line = Some (line', r', c') →
  (length line ≤ length line')%nat.
Proof.
  intros (k & -> & _)%walkLine_spec. rewrite length_app. lia.
Qed.

(** The loop of [isValidMove] stops where the loop of [getFlippedDiscs]
    stops, and has found an opponent exactly when the line has grown. *)
Lemma walkFound_walkLine fuel b opponent dr dc : ∀ r c found line,
  walkFound fuel b opponent dr dc r c found
  = '(line', r', c') ← walkLine fuel b opponent dr dc r c line;
    Some (found || bool_decide (length line < length line')%nat, r', c').
Proof.
  induction fuel as [|fuel IH]; intros r c found line; [done|].
  cbn [walkFound walkLine].
  destruct (inBounds r c).
  - destruct (getCell b r c) as [x|]; [|done]. cbn [mbind option_bind].
    case_decide.
    + rewrite (IH _ _ true (line ++ [mkMove r c])).
      destruct (walkLine fuel b opponent dr dc (r + dr) (c + dc) (line ++ [mkMove r c]))
        as [[[line' r'] c']|] eqn:Hw; [|done].
      cbn [mbind option_bind]. apply walkLine_length in Hw.
      rewrite length_app in Hw. simpl in Hw.
      cbn [orb]. rewrite (bool_decide_eq_true_2 (length line < length line')%nat) by lia.
      by rewrite orb_true_r.
    + cbn [mbind option_bind]. rewrite bool_decide_eq_false_2 by lia.
      by rewrite orb_false_r.
  - cbn [mbind option_bind]. rewrite bool_decide_eq_false_2 by lia.
    by rewrite orb_false_r.
Qed.

Lemma flipLoop_length b player r c dirs : ∀ flipped res,
  flipLoop b player r c dirs flipped = Some res → (length flipped ≤ length res)%nat.
Proof.
  induction dirs as [|[dr dc] dirs IH]; intros flipped res; cbn [flipLoop].
  - by intros [= <-].
  - destruct (walkLine walkFuel b (opponentOf player) dr dc (r + dr) (c + dc) [])
      as [[[line r'] c']|]; [|done].
    cbn [mbind option_bind].
    destruct (if bool_decide (0 < length line)%nat then closedBy b player r' c' else Some false)
      as [closed|]; [|done].
    cbn [mbind option_bind]. intros Hres%IH.
    destruct closed; [rewrite length_app in Hres|]; lia.
Qed.

Lemma validInSome_flipLoop b player r c dirs : ∀ flipped res,
  flipLoop b player r c dirs flipped = Some res →
  validInSome b player r c dirs = Some (bool_decide (length flipped < length res)%nat).
Proof.
  induction dirs as [|[dr dc] dirs IH]; intros flipped res; cbn [flipLoop validInSome].
  - intros [= <-]. by rewrite bool_decide_eq_false_2 by lia.
  - rewrite (walkFound_walkLine walkFuel b (opponentOf player) dr dc _ _ false []).
    destruct (walkLine walkFuel b (opponentOf player) dr dc (r + dr) (c + dc) [])
      as [[[line r'] c']|]; [|done].
    cbn [mbind option_bind orb length].
    destruct (bool_decide (0 < length line)%nat) eqn:Hline.
    + destruct (closedBy b player r' c') as [[|]|]; cbn [mbind option_bind]; [| |done].
      * intros Hres%flipLoop_length. rewrite length_app in Hres.
        apply bool_decide_eq_true in Hline.
        by rewrite bool_decide_eq_true_2 by lia.
      * apply IH.
    + cbn [mbind option_bind]. apply IH.
Qed.

Lemma isValidMove_flipped b r c player flipped x :
  getFlippedDiscs b r c player = Some flipped → getCell b r c = Some x →
  isValidMove b r c player = Some (bool_decide (x = EMPTY ∧ flipped ≠ [])).
Proof.
  intros Hfl Hcell. unfold isValidMove.
  rewrite (proj2 (readCell_getCell b r c x) Hcell). cbn [mbind option_bind].
  case_decide as Hx.
  - rewrite bool_decide_eq_false_2; [reflexivity|]. intros [-> _]. by apply Hx.
  - rewrite (validInSome_flipLoop b player r c directions [] flipped Hfl).
    f_equal. simpl length.
    assert (x = EMPTY) as -> by congruence.
    destruct flipped; simpl; reflexivity.
Qed.

#[local] Opaque isValidMove getFlippedDiscs findValidMoves.

(** A move is legal exactly when the cell is empty and the move would flip
    at least one disc: the two functions, which walk the eight directions
    separately, never disagree. *)
Theorem isValidMove_iff_flips (b : Board) (r c : Z) (player : Player) :
  wfBoard b → 0 ≤ r < 8 → 0 ≤ c < 8 →
  ∃ x flipped,
    getCell b r c = Some x
    ∧ getFlippedDiscs b r c player = Some flipped
    ∧ isValidMove b r c player = Some (bool_decide (x = EMPTY ∧ flipped ≠ [])).
Proof.
  intros Hwf Hr Hc.
  assert (Hin : inBounds r c = true) by (apply inBounds_spec; lia).
  destruct (getCell_Some b r c Hwf Hin) as [x Hx].
  destruct (getFlippedDiscs_total b r c player Hwf) as [flipped Hfl].
  exists x, flipped. split; [exact Hx|]. split; [exact Hfl|].
  exact (isValidMove_flipped b r c player flipped x Hfl Hx).
Qed.

Lemma isValidMove_iff_flips_witness :
  ∃ x flipped,
    getCell (board initialGame) 2 3 = Some x
    ∧ getFlippedDiscs (board initialGame) 2 3 BLACK = Some flipped
    ∧ isValidMove (board initialGame) 2 3 BLACK = Some (bool_decide (x = EMPTY ∧ flipped ≠ [])).
Proof.
  apply (isValidMove_iff_flips (board initialGame) 2 3 BLACK).
  - apply wfBoardb_spec. vm_compute. reflexivity.
  - lia.
  - lia.
Defined.

(** ** findValidMoves lists the legal cells once, in scan order *)

Lemma ascending_weaken k k' moves : k' ≤ k → ascending k moves → ascending k' moves.
Proof. destruct moves as [|m moves]; [done|]. simpl. intros ? [? ?]. split; [lia|done]. Qed.

Lemma ascending_filter (P : Z * Z → Prop) `{∀ x, Decision (P x)} cells : ∀ k,
  ascending k (toMove <$> cells) → ascending k (toMove <$> filter P cells).
Proof.
  induction cells as [|rc cells IH]; intros k; [done|].
  rewrite filter_cons. cbn [fmap list_fmap ascending]. intros [Hk Hrest].
  destruct (decide (P rc)).
  - cbn [fmap list_fmap ascending]. split; [done|]. by apply IH.
  - apply IH. eapply ascending_weaken; [|exact Hrest]. lia.
Qed.

Lemma ascending_allCells : ascending (-1) (toMove <$> allCells).
Proof. vm_compute. repeat split. Qed.

Lemma ascending_lookup moves : ∀ k i j mi mj,
  ascending k moves → (i < j)%nat →
  moves !! i = Some mi → moves !! j = Some mj →
  k < cellIndex mi ∧ cellIndex mi < cellIndex mj.
Proof.
  induction moves as [|m moves IH]; intros k i j mi mj Hasc Hij Hi Hj; [done|].
  destruct Hasc as [Hk Hrest]. destruct j as [|j]; [lia|]. simpl in Hj.
  destruct i as [|i]; simpl in Hi.
  - injection Hi as <-. split; [done|].
    destruct moves as [|m' moves]; [done|].
    destruct j as [|j]; simpl in Hj.
    + injection Hj as <-. by destruct Hrest.
    + destruct (IH (cellIndex m) 0%nat (S j) m' mj Hrest) as [? ?]; [lia|done|done|]. lia.
  - destruct (IH (cellIndex m) i j mi mj Hrest) as [? ?]; [lia|done|done|].
    split; [lia|done].
Qed.

(** [findValidMoves] returns exactly the cells of the grid where
    [isValidMove] answers true, each once, in row-major order. *)
Theorem findValidMoves_lists_legal_cells (b : Board) (player : Player) :
  wfBoard b →
  ∃ moves,
    findValidMoves b player = Some moves
    ∧ (∀ m, m ∈ moves ↔ (0 ≤ row m < 8 ∧ 0 ≤ col m < 8
                          ∧ isValidMove b (row m) (col m) player = Some true))
    ∧ (∀ i j mi mj, (i < j)%nat → moves !! i = Some mi → moves !! j = Some mj →
                    cellIndex mi < cellIndex mj)
    ∧ NoDup moves.
Proof.
  intros Hwf. exists (toMove <$> legalCells b player).
  pose proof (findValidMoves_spec b player Hwf) as Hf.
  assert (Hasc : ascending (-1) (toMove <$> legalCells b player))
    by (apply ascending_filter, ascending_allCells).
  split; [exact Hf|]. split; [|split].
  - intros m. rewrite (findValidMoves_elem b player _ m Hwf Hf), inBounds_spec. tauto.
  - intros i j mi mj Hij Hi Hj.
    by destruct (ascending_lookup _ _ _ _ _ _ Hasc Hij Hi Hj).
  - apply NoDup_alt. intros i j m Hi Hj.
    destruct (lt_eq_lt_dec i j) as [[Hlt|Heq]|Hgt]; [|done|].
    + destruct (ascending_lookup _ _ _ _ _ _ Hasc Hlt Hi Hj). lia.
    + destruct (ascending_lookup _ _ _ _ _ _ Hasc Hgt Hj Hi). lia.
Qed.

Lemma findValidMoves_lists_legal_cells_witness :
  ∃ moves,
    findValidMoves (board initialGame) BLACK = Some moves
    ∧ (∀ m, m ∈ moves ↔ (0 ≤ row m < 8 ∧ 0 ≤ col m < 8
                          ∧ isValidMove (board initialGame) (row m) (col m) BLACK = Some true))
    ∧ (∀ i j mi mj, (i < j)%nat → moves !! i = Some mi → moves !! j = Some mj →
                    cellIndex mi < cellIndex mj)
    ∧ NoDup moves.
Proof.
  apply (findValidMoves_lists_legal_cells (board initialGame) BLACK).
  apply wfBoardb_spec. vm_compute. reflexivity.
Defined.

(** ** The board after a move *)

Lemma flipAll_getCell player flipped r c : ∀ b b',
  flipAll b player flipped = Some b' →
  getCell b' r c = if decide (mkMove r c ∈ flipped) then Some (Disc player) else getCell b r c.
Proof.
  induction flipped as [|m flipped IH]; intros b b'; cbn [flipAll].
  - intros [= <-]. rewrite decide_False; [done|]. by intros ?%elem_of_nil.
  - destruct (setCell b (row m) (col m) (Disc player)) as [b1|] eqn:Hb1; [|done].
    cbn [mbind option_bind]. intros Hb'. rewrite (IH b1 b' Hb').
    rewrite (getCell_setCell b _ _ _ b1 r c Hb1).
    destruct (decide (mkMove r c ∈ flipped)) as [Hin|Hin].
    + rewrite decide_True; [done|]. by apply list_elem_of_further.
    + destruct (decide (r = row m ∧ c = col m)) as [[-> ->]|Hne].
      * rewrite decide_True; [done|]. destruct m. apply list_elem_of_here.
      * rewrite decide_False; [done|].
        intros [Heq|?]%elem_of_cons; [|done]. subst m. simpl in Hne. tauto.
Qed.

Lemma makeMove_flips_some g r c g' :
  makeMove g r c = Some (true, g') → flippedDiscs g' ≠ [].
Proof.
  intros (_ & Hv & flipped & b1 & Hfl & _ & _ & _ & Hf & _)%makeMove_true.
  pose proof (isValidMove_true_empty _ _ _ _ Hv) as Hempty.
  rewrite (isValidMove_flipped _ _ _ _ _ EMPTY Hfl Hempty) in Hv.
  injection Hv as Hv. apply bool_decide_eq_true in Hv. rewrite Hf. tauto.
Qed.

(** The empty cells go down by one and the history grows by one at each
    accepted move. *)
Lemma makeMove_counts g r c g' :
  makeMove g r c = Some (true, g') →
  countCell EMPTY (board g') = countCell EMPTY (board g) - 1
  ∧ length (moveHistory g') = S (length (moveHistory g)).
Proof.
  intros (_ & Hv & flipped & b1 & Hfl & Hb1 & Hb2 & _ & _ & Hh & _)%makeMove_true.
  split; [|rewrite Hh, length_app; simpl; lia].
  destruct (getFlippedDiscs_spec _ _ _ _ _ Hfl) as [Hnd Hcap].
  pose proof (isValidMove_true_empty _ _ _ _ Hv) as Hempty.
  assert (Hopp : ∀ m, m ∈ flipped →
            getCell b1 (row m) (col m) = Some (Disc (opponentOf (currentPlayer g)))).
  { intros m Hm. destruct (Hcap m Hm) as [_ Hc].
    rewrite (getCell_setCell (board g) _ _ _ b1) by done.
    case_decide as Heq; [|done]. destruct Heq as [Hr Hc']. rewrite Hr, Hc' in Hc. congruence. }
  destruct (flipAll_count b1 (currentPlayer g) flipped (board g') Hnd Hopp Hb2) as (_ & _ & H3).
  rewrite H3, (countCell_setCell (board g) _ _ _ b1 _ _ Hempty Hb1).
  unfold indicator. rewrite decide_True by done. rewrite decide_False by done. lia.
Qed.

Lemma countCell_nonneg x b : 0 ≤ countCell x b.
Proof. unfold countCell. lia. Qed.

Lemma makeMove_board g r c g' r' c' :
  makeMove g r c = Some (true, g') →
  getCell (board g') r' c'
  = if decide ((r' = r ∧ c' = c) ∨ mkMove r' c' ∈ flippedDiscs g')
    then Some (Disc (currentPlayer g)) else getCell (board g) r' c'.
Proof.
  intros (_ & _ & flipped & b1 & _ & Hb1 & Hb2 & _ & -> & _)%makeMove_true.
  rewrite (flipAll_getCell _ _ r' c' _ _ Hb2), (getCell_setCell (board g) _ _ _ b1 r' c' Hb1).
  destruct (decide (mkMove r' c' ∈ flipped)).
  - rewrite decide_True; [done|tauto].
  - destruct (decide (r' = r ∧ c' = c)).
    + rewrite decide_True; [done|tauto].
    + rewrite decide_False; [done|tauto].
Qed.

Lemma makeMove_occupied g r c g' m :
  makeMove g r c = Some (true, g') → occupied (board g) m → occupied (board g') m.
Proof.
  intros Hm [p Hp]. unfold occupied. rewrite (makeMove_board g r c g' _ _ Hm).
  case_decide; [by eexists|by exists p].
Qed.

(** A move that [makeMove] accepts lands on an empty cell and flips at
    least one disc; afterwards the played cell and the cells of
    [flippedDiscs] hold the mover's colour and every other cell is as before. *)
Theorem makeMove_places_and_flips (g : OthelloGame) (r c : Z) (g' : OthelloGame) :
  makeMove g r c = Some (true, g') →
  getCell (board g) r c = Some EMPTY
  ∧ getFlippedDiscs (board g) r c (currentPlayer g) = Some (flippedDiscs g')
  ∧ flippedDiscs g' ≠ []
  ∧ ∀ r' c',
      getCell (board g') r' c'
      = if decide ((r' = r ∧ c' = c) ∨ mkMove r' c' ∈ flippedDiscs g')
        then Some (Disc (currentPlayer g)) else getCell (board g) r' c'.
Proof.
  intros Hm. split; [|split; [|split]].
  - apply makeMove_true in Hm as (_ & Hv & _). by eapply isValidMove_true_empty.
  - apply makeMove_true in Hm as (_ & _ & flipped & b1 & Hfl & _ & _ & _ & -> & _). exact Hfl.
  - by eapply makeMove_flips_some.
  - intros r' c'. by apply makeMove_board.
Qed.

Lemma makeMove_places_and_flips_witness :
  getCell (board initialGame) 2 3 = Some EMPTY
  ∧ getFlippedDiscs (board initialGame) 2 3 (currentPlayer initialGame)
    = Some (flippedDiscs afterOpening)
  ∧ flippedDiscs afterOpening ≠ []
  ∧ ∀ r' c',
      getCell (board afterOpening) r' c'
      = if decide ((r' = 2 ∧ c' = 3) ∨ mkMove r' c' ∈ flippedDiscs afterOpening)
        then Some (Disc (currentPlayer initialGame)) else getCell (board initialGame) r' c'.
Proof.
  apply (makeMove_places_and_flips initialGame 2 3 afterOpening).
  vm_compute. reflexivity.
Defined.

(** ** Invariants of the states of a game *)

Lemma reachable_empties g :
  reachable g → countCell EMPTY (board g) = 60 - Z.of_nat (length (moveHistory g)).
Proof.
  induction 1 as [g Hnew|g r c g' Hreach IH Hm].
  - rewrite newGame_val in Hnew. injection Hnew as <-. vm_compute. reflexivity.
  - destruct (makeMove_counts g r c g' Hm) as [-> ->]. lia.
Qed.

(** After [n] accepted moves the board holds [4 + n] discs and [60 - n]
    empty cells, so that a game has at most sixty moves. *)
Theorem reachable_disc_total (g : OthelloGame) :
  reachable g →
  countCell (Disc BLACK) (board g) + countCell (Disc WHITE) (board g)
  = 4 + Z.of_nat (length (moveHistory g))
  ∧ countCell EMPTY (board g) = 60 - Z.of_nat (length (moveHistory g))
  ∧ (length (moveHistory g) ≤ 60)%nat.
Proof.
  intros Hreach.
  pose proof (reachable_empties g Hreach) as He.
  pose proof (reachable_wfGame g Hreach) as [Hwf _].
  pose proof (countCell_total (board g) Hwf).
  pose proof (countCell_nonneg EMPTY (board g)).
  split; [lia|]. split; [exact He|lia].
Qed.

Lemma reachable_disc_total_witness :
  countCell (Disc BLACK) (board afterOpening) + countCell (Disc WHITE) (board afterOpening)
  = 4 + Z.of_nat (length (moveHistory afterOpening))
  ∧ countCell EMPTY (board afterOpening) = 60 - Z.of_nat (length (moveHistory afterOpening))
  ∧ (length (moveHistory afterOpening) ≤ 60)%nat.
Proof.
  apply (reachable_disc_total afterOpening).
  apply (reachable_move initialGame 2 3).
  - apply reachable_new. vm_compute. reflexivity.
  - vm_compute. reflexivity.
Defined.

Lemma cached_move_accepted g m :
  wfBoard (board g) → gameOver g = false →
  findValidMoves (board g) (currentPlayer g) = Some (validMoves g) →
  m ∈ validMoves g → ∃ g', makeMove g (row m) (col m) = Some (true, g').
Proof.
  intros Hwf Hlive Hcache [Hin Hv]%(findValidMoves_elem _ _ _ m Hwf Hcache).
  destruct (makeMove_total g (row m) (col m) Hwf Hin) as (ok & g' & Hm).
  destruct ok; [by exists g'|].
  apply makeMove_false in Hm as [_ [Hover|Hv']]; congruence.
Qed.

(** While a game lasts, the cells of the cache are exactly the cells on
    which [makeMove] returns [true], and there is at least one. *)
Theorem cache_is_accepted_moves (g : OthelloGame) :
  reachable g → gameOver g = false →
  validMoves g ≠ []
  ∧ ∀ r c, mkMove r c ∈ validMoves g ↔ ∃ g', makeMove g r c = Some (true, g').
Proof.
  intros Hreach Hlive.
  destruct (reachable_cache g Hreach Hlive) as [Hcache Hne].
  pose proof (reachable_wfGame g Hreach) as [Hwf _].
  split; [exact Hne|]. intros r c. split.
  - intros Hin. exact (cached_move_accepted g (mkMove r c) Hwf Hlive Hcache Hin).
  - intros [g' Hm]. apply makeMove_true in Hm as (_ & Hv & _).
    apply (findValidMoves_elem _ _ _ (mkMove r c) Hwf Hcache). cbn [row col].
    split; [|exact Hv].
    eapply getCell_in_range; [exact Hwf|]. by eapply isValidMove_true_empty.
Qed.

Lemma cache_is_accepted_moves_witness :
  validMoves afterOpening ≠ []
  ∧ ∀ r c, mkMove r c ∈ validMoves afterOpening ↔ ∃ g', makeMove afterOpening r c = Some (true, g').
Proof.
  apply (cache_is_accepted_moves afterOpening).
  - apply (reachable_move initialGame 2 3).
    + apply reachable_new. vm_compute. reflexivity.
    + vm_compute. reflexivity.
  - vm_compute. reflexivity.
Defined.

Lemma reachable_winner (g : OthelloGame) :
  reachable g →
  if gameOver g
  then winner g = moreDiscs (board g)
       ∧ findValidMoves (board g) BLACK = Some []
       ∧ findValidMoves (board g) WHITE = Some []
  else winner g = None.
Proof.
  induction 1 as [g Hnew|g r c g' Hreach IH Hm].
  - rewrite newGame_val in Hnew. injection Hnew as <-. reflexivity.
  - pose proof (reachable_wfGame g' (reachable_move _ _ _ _ Hreach Hm)) as [Hwf' _].
    apply makeMove_true in Hm
      as (Hlive & _ & flipped & b1 & _ & _ & _ & _ & _ & _ & om & Hom & Hcase).
    rewrite Hlive in IH.
    destruct om as [|m om].
    + destruct Hcase as (cm & Hcm & Hp & Hcase). destruct cm as [|m cm].
      * destruct Hcase as (_ & -> & Hw).
        rewrite (determineWinner_spec _ Hwf') in Hw. injection Hw as Hw.
        split; [exact (eq_sym Hw)|].
        destruct (currentPlayer g); cbn [opponentOf] in Hom; split; assumption.
      * destruct Hcase as (_ & -> & ->). exact IH.
    + destruct Hcase as (_ & _ & -> & ->). exact IH.
Qed.

(** [winner] stays [null] while a game lasts; once [gameOver] is set,
    neither colour has a legal move and [winner] is what
    [determineWinner] gives on the final board: the colour with more
    discs, [null] on a tie. *)
Theorem winner_set_at_game_over (g : OthelloGame) :
  reachable g →
  if gameOver g
  then determineWinner (board g) = Some (winner g)
       ∧ winner g = moreDiscs (board g)
       ∧ findValidMoves (board g) BLACK = Some []
       ∧ findValidMoves (board g) WHITE = Some []
  else winner g = None.
Proof.
  intros Hreach.
  pose proof (reachable_winner g Hreach) as Hw.
  pose proof (reachable_wfGame g Hreach) as [Hwf _].
  destruct (gameOver g); [|exact Hw].
  destruct Hw as (Hw & Hb & Hwh).
  split; [|split; [exact Hw|split; [exact Hb|exact Hwh]]].
  rewrite (determineWinner_spec _ Hwf). by rewrite Hw.
Qed.

Lemma winner_set_at_game_over_witness :
  if gameOver finishedState
  then determineWinner (board finishedState) = Some (winner finishedState)
       ∧ winner finishedState = moreDiscs (board finishedState)
       ∧ findValidMoves (board finishedState) BLACK = Some []
       ∧ findValidMoves (board finishedState) WHITE = Some []
  else winner finishedState = None.
Proof.
  apply (winner_set_at_game_over finishedState).
  apply (play_reachable finishedGame). vm_compute. reflexivity.
Defined.

(** [lastMove] and [flippedDiscs] describe the last entry of
    [moveHistory]; every entry flipped at least one disc, its cell holds
    a disc ever after, and no cell is played twice. *)
Theorem history_records_moves (g : OthelloGame) :
  reachable g →
  match last (moveHistory g) with
  | None => lastMove g = None ∧ flippedDiscs g = []
  | Some e => lastMove g = Some (entryCell e) ∧ flippedDiscs g = h_flipped e
  end
  ∧ Forall (λ e, h_flipped e ≠ [] ∧ occupied (board g) (entryCell e)) (moveHistory g)
  ∧ NoDup (entryCell <$> moveHistory g).
Proof.
  induction 1 as [g Hnew|g r c g' Hreach IH Hm].
  - rewrite newGame_val in Hnew. injection Hnew as <-. simpl.
    split; [done|]. split; [constructor|constructor].
  - destruct IH as (_ & Hall & Hnd).
    pose proof (makeMove_flips_some g r c g' Hm) as Hsome.
    pose proof (makeMove_board g r c g' r c Hm) as Hboard.
    pose proof (makeMove_true g r c g' Hm)
      as (_ & Hv & flipped & b1 & _ & _ & _ & Hlast & Hf & Hh & _).
    pose proof (isValidMove_true_empty _ _ _ _ Hv) as Hempty.
    rewrite Hh, last_snoc. cbn [entryCell h_row h_col h_flipped].
    split; [by split|]. split.
    + apply Forall_app. split.
      * eapply Forall_impl; [exact Hall|]. intros e [Hne Hocc].
        split; [exact Hne|]. by eapply makeMove_occupied.
      * apply Forall_singleton. cbn [entryCell h_row h_col h_flipped].
        split; [by rewrite <- Hf|].
        exists (currentPlayer g). change (getCell (board g') r c = Some (Disc (currentPlayer g))).
        rewrite Hboard.
        rewrite decide_True; [done|tauto].
    + rewrite fmap_app. apply NoDup_app. split; [exact Hnd|]. split.
      * intros m (e & -> & He)%list_elem_of_fmap [= Hr Hc]%list_elem_of_singleton.
        rewrite Forall_forall in Hall. destruct (Hall e He) as [_ [p Hp]].
        cbn [entryCell row col] in Hp. rewrite Hr, Hc in Hp. congruence.
      * apply NoDup_singleton.
Qed.

Lemma history_records_moves_witness :
  match last (moveHistory afterOpening) with
  | None => lastMove afterOpening = None ∧ flippedDiscs afterOpening = []
  | Some e => lastMove afterOpening = Some (entryCell e) ∧ flippedDiscs afterOpening = h_flipped e
  end
  ∧ Forall (λ e, h_flipped e ≠ [] ∧ occupied (board afterOpening) (entryCell e))
           (moveHistory afterOpening)
  ∧ NoDup (entryCell <$> moveHistory afterOpening).
Proof.
  apply (history_records_moves afterOpening).
  apply (reachable_move initialGame 2 3).
  - apply reachable_new. vm_compute. reflexivity.
  - vm_compute. reflexivity.
Defined.

(** ** The evaluation: symmetry and range *)

Lemma opponentOf_involutive p : opponentOf (opponentOf p) = p.
Proof. by destruct p. Qed.

Lemma opponentOf_ne p : opponentOf p ≠ p.
Proof. by destruct p. Qed.

Lemma sumOver_opp cells (f f' : Z → Z → Z) :
  (∀ r c, f' r c = - f r c) → sumOver cells f' = - sumOver cells f.
Proof.
  intros Hf. induction cells as [|rc cells IH]; [done|].
  unfold sumOver in *. cbn [foldr]. rewrite IH, Hf. lia.
Qed.

Lemma sumOver_abs cells (f bound : Z → Z → Z) :
  (∀ r c, Z.abs (f r c) ≤ bound r c) → Z.abs (sumOver cells f) ≤ sumOver cells bound.
Proof.
  intros Hf. induction cells as [|rc cells IH]; [done|].
  unfold sumOver in *. cbn [foldr]. pose proof (Hf rc.1 rc.2). lia.
Qed.

Lemma held_opp p x : held (opponentOf p) p x = - held p (opponentOf p) x.
Proof.
  unfold held. pose proof (opponentOf_ne p).
  repeat case_decide; try lia; congruence.
Qed.

Lemma held_abs p q x : Z.abs (held p q x) ≤ 1.
Proof. unfold held. repeat case_decide; lia. Qed.

Lemma evaluateSpec_opp g p : evaluateSpec g (opponentOf p) = - evaluateSpec g p.
Proof.
  unfold evaluateSpec. rewrite opponentOf_involutive.
  pose proof (opponentOf_ne p) as Hne.
  destruct (gameOver g).
  - repeat case_decide; try lia; congruence.
  - cbv zeta.
    rewrite (sumOver_opp allCells
               (λ r c, held p (opponentOf p) (getCell (board g) r c) * specWeight r c)
               (λ r c, held (opponentOf p) p (getCell (board g) r c) * specWeight r c))
      by (intros r c; rewrite held_opp; lia).
    rewrite (sumOver_opp allCells
               (λ r c, if isCorner r c
                       then 50 * held p (opponentOf p) (getCell (board g) r c) else 0)
               (λ r c, if isCorner r c
                       then 50 * held (opponentOf p) p (getCell (board g) r c) else 0))
      by (intros r c; rewrite held_opp; destruct (isCorner r c); lia).
    rewrite (sumOver_opp allCells
               (λ r c, 2 * borderLines r c * held p (opponentOf p) (getCell (board g) r c))
               (λ r c, 2 * borderLines r c * held (opponentOf p) p (getCell (board g) r c)))
      by (intros r c; rewrite held_opp; lia).
    rewrite (Z.add_comm (countCell (Disc (opponentOf p)) (board g))).
    destruct (_ >? 50); lia.
Qed.

Lemma borderLines_nonneg r c : 0 ≤ borderLines r c.
Proof. unfold borderLines. repeat destruct (_ =? _); lia. Qed.

Lemma evaluateSpec_range g p :
  wfBoard (board g) →
  if gameOver g
  then evaluateSpec g p = 10000 ∨ evaluateSpec g p = -10000 ∨ evaluateSpec g p = 0
  else -2148 ≤ evaluateSpec g p ≤ 2148.
Proof.
  intros Hwf. unfold evaluateSpec. destruct (gameOver g).
  - repeat case_decide; tauto.
  - cbv zeta.
    pose proof (sumOver_abs allCells
      (λ r c, held p (opponentOf p) (getCell (board g) r c) * specWeight r c)
      (λ r c, Z.abs (specWeight r c))) as H1.
    pose proof (sumOver_abs allCells
      (λ r c, if isCorner r c
              then 50 * held p (opponentOf p) (getCell (board g) r c) else 0)
      (λ r c, if isCorner r c then 50 else 0)) as H2.
    pose proof (sumOver_abs allCells
      (λ r c, 2 * borderLines r c * held p (opponentOf p) (getCell (board g) r c))
      (λ r c, 2 * borderLines r c)) as H3.
    assert (E1 : sumOver allCells (λ r c, Z.abs (specWeight r c)) = 924)
      by (vm_compute; reflexivity).
    assert (E2 : sumOver allCells (λ r c, if isCorner r c then 50 else 0) = 200)
      by (vm_compute; reflexivity).
    assert (E3 : sumOver allCells (λ r c, 2 * borderLines r c) = 64)
      by (vm_compute; reflexivity).
    rewrite E1 in H1. rewrite E2 in H2. rewrite E3 in H3.
    assert (H1' := H1 ltac:(intros r c; pose proof (held_abs p (opponentOf p) (getCell (board g) r c)); nia)).
    assert (H2' := H2 ltac:(intros r c; pose proof (held_abs p (opponentOf p) (getCell (board g) r c));
                            destruct (isCorner r c); lia)).
    assert (H3' := H3 ltac:(intros r c; pose proof (held_abs p (opponentOf p) (getCell (board g) r c));
                            pose proof (borderLines_nonneg r c); nia)).
    clear H1 H2 H3.
    pose proof (length_filter (λ rc, isValidMove (board g) rc.1 rc.2 p = Some true) allCells) as L1.
    pose proof (length_filter (λ rc, isValidMove (board g) rc.1 rc.2 (opponentOf p) = Some true)
                  allCells) as L2.
    change (length allCells) with 64%nat in L1, L2.
    fold (legalCells (board g) p) in L1. fold (legalCells (board g) (opponentOf p)) in L2.
    pose proof (countCell_total (board g) Hwf) as Ht.
    pose proof (countCell_nonneg (Disc BLACK) (board g)).
    pose proof (countCell_nonneg (Disc WHITE) (board g)).
    pose proof (countCell_nonneg EMPTY (board g)).
    assert (Hd : -64 ≤ countCell (Disc p) (board g) - countCell (Disc (opponentOf p)) (board g) ≤ 64)
      by (destruct p; cbn [opponentOf]; lia).
    destruct (_ >? 50); lia.
Qed.

(** [evaluate] is antisymmetric in the side it scores: the value for one
    colour is the opposite of the value for the other. *)
Theorem evaluate_antisymmetric (g : OthelloGame) (p : Player) :
  wfBoard (board g) →
  ∃ v, evaluate g p = Some v ∧ evaluate g (opponentOf p) = Some (- v).
Proof.
  intros Hwf. exists (evaluateSpec g p).
  rewrite !evaluate_spec by exact Hwf. by rewrite evaluateSpec_opp.
Qed.

Lemma evaluate_antisymmetric_witness :
  ∃ v, evaluate afterOpening BLACK = Some v ∧ evaluate afterOpening (opponentOf BLACK) = Some (- v).
Proof.
  apply (evaluate_antisymmetric afterOpening BLACK).
  apply wfBoardb_spec. vm_compute. reflexivity.
Defined.

(** [evaluate] returns on every 8x8 board.  For a finished game the value
    is 10000, -10000 or 0; for a game that is not over it lies within
    2148 of zero, so a heuristic score never reaches the score of a win
    or of a loss. *)
Theorem evaluate_range (g : OthelloGame) (p : Player) :
  wfBoard (board g) →
  ∃ v, evaluate g p = Some v
       ∧ if gameOver g then v = 10000 ∨ v = -10000 ∨ v = 0 else -2148 ≤ v ≤ 2148.
Proof.
  intros Hwf. exists (evaluateSpec g p). split; [by apply evaluate_spec|].
  by apply evaluateSpec_range.
Qed.

Lemma evaluate_range_witness :
  ∃ v, evaluate afterOpening WHITE = Some v
       ∧ if gameOver afterOpening then v = 10000 ∨ v = -10000 ∨ v = 0 else -2148 ≤ v ≤ 2148.
Proof.
  apply (evaluate_range afterOpening WHITE).
  apply wfBoardb_spec. vm_compute. reflexivity.
Defined.

(** ** The search: range of the scores, termination *)

Lemma scoreBound_max m s : m = NegInf ∨ scoreBound m → scoreBound s → scoreBound (Num_max m s).
Proof.
  intros [->|(a & -> & Ha)] (z & -> & Hz); unfold Num_max; simpl.
  - by exists z.
  - destruct (a <=? z); [by exists z|by exists a].
Qed.

Lemma scoreBound_min m s : m = PosInf ∨ scoreBound m → scoreBound s → scoreBound (Num_min m s).
Proof.
  intros [->|(a & -> & Ha)] (z & -> & Hz); unfold Num_min; simpl.
  - by exists z.
  - destruct (a <=? z); [by exists a|by exists z].
Qed.

Lemma evaluate_bound g p :
  wfBoard (board g) → ∃ z, evaluate g p = Some z ∧ -10000 ≤ z ≤ 10000.
Proof.
  intros Hwf. exists (evaluateSpec g p). split; [by apply evaluate_spec|].
  pose proof (evaluateSpec_range g p Hwf) as Hr. destruct (gameOver g); lia.
Qed.

Section Bounded.
(** Positions on which the recursive call is known to return a score. *)
Variable good : OthelloGame → Prop.
Variable search : OthelloGame → Num → Num → Z → option (Num * Z).
Variable game : OthelloGame.
Hypothesis search_bound : ∀ gc alpha beta nodes,
  good gc → ∃ v nodes', search gc alpha beta nodes = Some (v, nodes') ∧ scoreBound v ∧ nodes < nodes'.

Lemma maxLoop_bound moves :
  Forall (λ m, ∃ gc, applyOnCopy game m = Some gc ∧ good gc) moves →
  ∀ maxScore alpha beta nodes, maxScore = NegInf ∨ scoreBound maxScore →
  ∃ v nodes',
    maxLoop search game moves maxScore alpha beta nodes = Some (v, nodes')
    ∧ match moves with [] => v = maxScore ∧ nodes' = nodes | _ => scoreBound v ∧ nodes < nodes' end.
Proof.
  induction 1 as [|m moves (gc & Hgc & Hgood) _ IH]; intros maxScore alpha beta nodes Hm.
  - exists maxScore, nodes. split; [reflexivity|]. split; reflexivity.
  - cbn [maxLoop]. rewrite Hgc. cbn [mbind option_bind].
    destruct (search_bound gc alpha beta nodes Hgood) as (s & n1 & -> & Hs & Hn1).
    cbn [mbind option_bind].
    pose proof (scoreBound_max maxScore s Hm Hs) as Hmax.
    destruct (Num_leb beta (Num_max alpha s)).
    { eexists _, _. split; [reflexivity|]. split; [exact Hmax|exact Hn1]. }
    destruct (IH (Num_max maxScore s) (Num_max alpha s) beta n1 (or_intror Hmax))
      as (v & n2 & -> & Hres).
    exists v, n2. split; [reflexivity|].
    destruct moves as [|m' moves'].
    + destruct Hres as [-> ->]. split; assumption.
    + destruct Hres as [Hv Hn2]. split; [exact Hv|lia].
Qed.

Lemma minLoop_bound moves :
  Forall (λ m, ∃ gc, applyOnCopy game m = Some gc ∧ good gc) moves →
  ∀ minScore alpha beta nodes, minScore = PosInf ∨ scoreBound minScore →
  ∃ v nodes',
    minLoop search game moves minScore alpha beta nodes = Some (v, nodes')
    ∧ match moves with [] => v = minScore ∧ nodes' = nodes | _ => scoreBound v ∧ nodes < nodes' end.
Proof.
  induction 1 as [|m moves (gc & Hgc & Hgood) _ IH]; intros minScore alpha beta nodes Hm.
  - exists minScore, nodes. split; [reflexivity|]. split; reflexivity.
  - cbn [minLoop]. rewrite Hgc. cbn [mbind option_bind].
    destruct (search_bound gc alpha beta nodes Hgood) as (s & n1 & -> & Hs & Hn1).
    cbn [mbind option_bind].
    pose proof (scoreBound_min minScore s Hm Hs) as Hmin.
    destruct (Num_leb (Num_min beta s) alpha).
    { eexists _, _. split; [reflexivity|]. split; [exact Hmin|exact Hn1]. }
    destruct (IH (Num_min minScore s) alpha (Num_min beta s) n1 (or_intror Hmin))
      as (v & n2 & -> & Hres).
    exists v, n2. split; [reflexivity|].
    destruct moves as [|m' moves'].
    + destruct Hres as [-> ->]. split; assumption.
    + destruct Hres as [Hv Hn2]. split; [exact Hv|lia].
Qed.
End Bounded.

Lemma minimax_leaf fuel game depth alpha beta isMaximizing aiPlayer nodes :
  wfBoard (board game) →
  bool_decide (depth = 0) || gameOver game || bool_decide (length (validMoves game) = 0%nat) = true →
  ∃ z, evaluate game aiPlayer = Some z ∧ -10000 ≤ z ≤ 10000
       ∧ minimax (S fuel) game depth alpha beta isMaximizing aiPlayer nodes
         = Some (Fin z, nodes + 1).
Proof.
  intros Hwf Hleaf. destruct (evaluate_bound game aiPlayer Hwf) as (z & Hz & Hb).
  exists z. split; [exact Hz|]. split; [exact Hb|]. cbn [minimax].
  destruct (bool_decide (depth = 0) || gameOver game); [by rewrite Hz|].
  cbn [orb] in Hleaf. rewrite Hleaf. by rewrite Hz.
Qed.

Lemma minimax_node fuel game depth alpha beta isMaximizing aiPlayer nodes
    (good : OthelloGame → Prop) :
  (∀ gc a b n, good gc →
     ∃ v n', minimax fuel gc (depth - 1) a b (negb isMaximizing) aiPlayer n = Some (v, n')
             ∧ scoreBound v ∧ n < n') →
  Forall (λ m, ∃ gc, applyOnCopy game m = Some gc ∧ good gc) (validMoves game) →
  bool_decide (depth = 0) || gameOver game || bool_decide (length (validMoves game) = 0%nat) = false →
  ∃ v nodes', minimax (S fuel) game depth alpha beta isMaximizing aiPlayer nodes = Some (v, nodes')
              ∧ scoreBound v ∧ nodes < nodes'.
Proof.
  intros Hrec Hmoves Hnode. cbn [minimax].
  apply orb_false_iff in Hnode as [-> Hlen]. rewrite Hlen.
  apply bool_decide_eq_false in Hlen.
  destruct isMaximizing.
  - destruct (maxLoop_bound good
                (λ gc a b n, minimax fuel gc (depth - 1) a b false aiPlayer n) game Hrec
                (validMoves game) Hmoves NegInf alpha beta (nodes + 1) (or_introl eq_refl))
      as (v & n' & -> & Hres).
    exists v, n'. split; [reflexivity|].
    destruct (validMoves game) as [|m ms]; [by destruct Hlen|].
    destruct Hres as [Hv Hn]. split; [exact Hv|lia].
  - destruct (minLoop_bound good
                (λ gc a b n, minimax fuel gc (depth - 1) a b true aiPlayer n) game Hrec
                (validMoves game) Hmoves PosInf alpha beta (nodes + 1) (or_introl eq_refl))
      as (v & n' & -> & Hres).
    exists v, n'. split; [reflexivity|].
    destruct (validMoves game) as [|m ms]; [by destruct Hlen|].
    destruct Hres as [Hv Hn]. split; [exact Hv|lia].
Qed.

Lemma minimax_bound fuel : ∀ game depth alpha beta isMaximizing aiPlayer nodes,
  wfGame game → 0 ≤ depth → (Z.to_nat depth < fuel)%nat →
  ∃ v nodes', minimax fuel game depth alpha beta isMaximizing aiPlayer nodes = Some (v, nodes')
              ∧ scoreBound v ∧ nodes < nodes'.
Proof.
  induction fuel as [|fuel IH]; intros game depth alpha beta isMaximizing aiPlayer nodes
    Hwf Hd Hfuel; [lia|].
  destruct (bool_decide (depth = 0) || gameOver game
            || bool_decide (length (validMoves game) = 0%nat)) eqn:Hleaf.
  - destruct (minimax_leaf fuel game depth alpha beta isMaximizing aiPlayer nodes
                (proj1 Hwf) Hleaf) as (z & _ & Hb & ->).
    exists (Fin z), (nodes + 1). split; [reflexivity|].
    split; [exists z; split; [reflexivity|exact Hb]|lia].
  - assert (Hd0 : depth ≠ 0).
    { apply orb_false_iff in Hleaf as [[Hd0 _]%orb_false_iff _].
      by apply bool_decide_eq_false in Hd0. }
    apply (minimax_node fuel game depth alpha beta isMaximizing aiPlayer nodes wfGame);
      [| |exact Hleaf].
    + intros gc a b n Hgc. apply IH; [exact Hgc|lia|lia].
    + destruct Hwf as [Hb Hvm]. eapply Forall_impl; [exact Hvm|].
      intros m Hin. exact (applyOnCopy_total game m (conj Hb Hvm) Hin).
Qed.

(** The child reached by a cached move of a live position: the move is
    accepted, the cache of the child is live, one empty cell is gone. *)
Lemma applyOnCopy_live g m :
  liveCache g → gameOver g = false → m ∈ validMoves g →
  ∃ gc, applyOnCopy g m = Some gc ∧ liveCache gc
        ∧ countCell EMPTY (board gc) = countCell EMPTY (board g) - 1.
Proof.
  intros [Hwf Hcache] Hlive Hin. specialize (Hcache Hlive).
  unfold applyOnCopy. rewrite clone_val. cbn [mbind option_bind].
  set (c := mkGame (board g) (currentPlayer g) (gameOver g) (winner g) None [] (validMoves g) []).
  destruct (cached_move_accepted c m Hwf Hlive Hcache Hin) as [gc Hm].
  rewrite Hm. cbn [mbind option_bind]. exists gc. split; [done|].
  pose proof (makeMove_wfBoard c _ _ _ _ Hwf Hm) as Hwf'.
  destruct (makeMove_counts c _ _ gc Hm) as [He _].
  split; [|exact He]. split; [exact Hwf'|].
  apply makeMove_true in Hm
    as (_ & _ & flipped & b1 & _ & _ & _ & _ & _ & _ & om & Hom & Hcase).
  destruct om as [|m1 om].
  - destruct Hcase as (cm & Hcm & Hp & Hcase). destruct cm as [|m2 cm].
    + destruct Hcase as (_ & -> & _). discriminate.
    + destruct Hcase as (-> & _). intros _. rewrite Hp. exact Hcm.
  - destruct Hcase as (-> & -> & _). intros _. exact Hom.
Qed.

Lemma liveCache_no_room g :
  liveCache g → gameOver g = false → countCell EMPTY (board g) = 0 → validMoves g = [].
Proof.
  intros Hlc Hlive He.
  destruct (validMoves g) as [|m ms] eqn:Hvm; [done|].
  destruct (applyOnCopy_live g m Hlc Hlive) as (gc & _ & _ & Hc).
  { rewrite Hvm. apply list_elem_of_here. }
  pose proof (countCell_nonneg EMPTY (board gc)). lia.
Qed.

Lemma minimax_terminates fuel : ∀ game depth alpha beta isMaximizing aiPlayer nodes,
  liveCache game → (Z.to_nat (countCell EMPTY (board game)) < fuel)%nat →
  ∃ v nodes', minimax fuel game depth alpha beta isMaximizing aiPlayer nodes = Some (v, nodes')
              ∧ scoreBound v ∧ nodes < nodes'.
Proof.
  induction fuel as [|fuel IH]; intros game depth alpha beta isMaximizing aiPlayer nodes
    Hlc Hfuel; [lia|].
  destruct (bool_decide (depth = 0) || gameOver game
            || bool_decide (length (validMoves game) = 0%nat)) eqn:Hleaf.
  - destruct (minimax_leaf fuel game depth alpha beta isMaximizing aiPlayer nodes
                (proj1 Hlc) Hleaf) as (z & _ & Hb & ->).
    exists (Fin z), (nodes + 1). split; [reflexivity|].
    split; [exists z; split; [reflexivity|exact Hb]|lia].
  - pose proof Hleaf as Hleaf'.
    apply orb_false_iff in Hleaf' as [[_ Hlive]%orb_false_iff Hlen].
    apply bool_decide_eq_false in Hlen.
    pose proof (countCell_nonneg EMPTY (board game)) as Hnn.
    assert (Hroom : 0 < countCell EMPTY (board game)).
    { destruct (decide (countCell EMPTY (board game) = 0)) as [H0|]; [|lia].
      rewrite (liveCache_no_room game Hlc Hlive H0) in Hlen. by destruct Hlen. }
    apply (minimax_node fuel game depth alpha beta isMaximizing aiPlayer nodes
             (λ gc, liveCache gc
                    ∧ countCell EMPTY (board gc) = countCell EMPTY (board game) - 1));
      [| |exact Hleaf].
    + intros gc a b n [Hgc Hc]. apply IH; [exact Hgc|]. rewrite Hc. lia.
    + apply Forall_forall. intros m Hin.
      destruct (applyOnCopy_live game m Hlc Hlive Hin) as (gc & Hgc & Hl & He).
      exists gc. split; [exact Hgc|]. split; [exact Hl|exact He].
Qed.

(** With a depth of at least zero and enough fuel for it, [minimax]
    returns on every well-formed object; the score is a finite number
    between -10000 and 10000, whatever the window, and the node counter
    has grown. *)
Theorem minimax_score_in_range (fuel : nat) (game : OthelloGame) (depth : Z)
    (alpha beta : Num) (isMaximizing : bool) (aiPlayer : Player) (nodes : Z) :
  wfGame game → 0 ≤ depth → (Z.to_nat depth < fuel)%nat →
  ∃ z nodes',
    minimax fuel game depth alpha beta isMaximizing aiPlayer nodes = Some (Fin z, nodes')
    ∧ -10000 ≤ z ≤ 10000 ∧ nodes < nodes'.
Proof.
  intros Hwf Hd Hfuel.
  destruct (minimax_bound fuel game depth alpha beta isMaximizing aiPlayer nodes Hwf Hd Hfuel)
    as (v & n' & Hm & (z & -> & Hz) & Hn).
  exists z, n'. split; [exact Hm|]. split; [exact Hz|exact Hn].
Qed.

Lemma minimax_score_in_range_witness :
  ∃ z nodes',
    minimax 3 afterOpening 2 NegInf PosInf false WHITE 0 = Some (Fin z, nodes')
    ∧ -10000 ≤ z ≤ 10000 ∧ 0 < nodes'.
Proof.
  apply (minimax_score_in_range 3 afterOpening 2 NegInf PosInf false WHITE 0).
  - split; [apply wfBoardb_spec; vm_compute; reflexivity|].
    apply Forall_forall. intros m Hm. vm_compute in Hm.
    repeat (apply elem_of_cons in Hm as [->|Hm]; [reflexivity|]).
    by apply elem_of_nil in Hm.
  - lia.
  - simpl. lia.
Defined.

(** Whatever the depth, negative ones included (for which [depth === 0]
    never holds), [minimax] returns on a position whose cache is live:
    every level of the recursion fills one empty cell, so one more level
    than there are empty cells is enough. *)
Theorem minimax_terminates_any_depth (fuel : nat) (game : OthelloGame) (depth : Z)
    (alpha beta : Num) (isMaximizing : bool) (aiPlayer : Player) (nodes : Z) :
  liveCache game → (Z.to_nat (countCell EMPTY (board game)) < fuel)%nat →
  ∃ z nodes',
    minimax fuel game depth alpha beta isMaximizing aiPlayer nodes = Some (Fin z, nodes')
    ∧ -10000 ≤ z ≤ 10000 ∧ nodes < nodes'.
Proof.
  intros Hlc Hfuel.
  destruct (minimax_terminates fuel game depth alpha beta isMaximizing aiPlayer nodes Hlc Hfuel)
    as (v & n' & Hm & (z & -> & Hz) & Hn).
  exists z, n'. split; [exact Hm|]. split; [exact Hz|exact Hn].
Qed.

Lemma minimax_terminates_any_depth_witness :
  ∃ z nodes',
    minimax 61 initialGame (-1) NegInf PosInf true WHITE 0 = Some (Fin z, nodes')
    ∧ -10000 ≤ z ≤ 10000 ∧ 0 < nodes'.
Proof.
  apply (minimax_terminates_any_depth 61 initialGame (-1) NegInf PosInf true WHITE 0).
  - split; [apply wfBoardb_spec; vm_compute; reflexivity|].
    intros _. vm_compute. reflexivity.
  - vm_compute. lia.
Defined.

(** ** The window of a node, the move returned at the root *)

Lemma clamp_inside alpha beta v vF :
  Num_ltb alpha beta = true → clamp alpha beta v = clamp alpha beta vF →
  Num_ltb alpha vF = true → Num_ltb vF beta = true → v = vF.
Proof. intros. num_cases. Qed.

Lemma clamp_fail_low alpha beta v vF :
  Num_ltb alpha beta = true → clamp alpha beta v = clamp alpha beta vF →
  Num_leb vF alpha = true → Num_leb v alpha = true.
Proof. intros. num_cases. Qed.

Lemma clamp_fail_high alpha beta v vF :
  Num_ltb alpha beta = true → clamp alpha beta v = clamp alpha beta vF →
  Num_leb beta vF = true → Num_leb beta v = true.
Proof. intros. num_cases. Qed.

(** What a window promises at any node.  With [alpha < beta], the value
    [minimax] returns is the value of the search without pruning when
    that value lies strictly inside the window; it is at most [alpha]
    when that value is at most [alpha], and at least [beta] when that
    value is at least [beta]. *)
Theorem minimax_window_contract (fuel : nat) (game : OthelloGame) (depth : Z)
    (alpha beta : Num) (isMaximizing : bool) (aiPlayer : Player) (nodes : Z) :
  wfGame game → 0 ≤ depth → (Z.to_nat depth < fuel)%nat → Num_ltb alpha beta = true →
  ∃ v vF nodes',
    minimax fuel game depth alpha beta isMaximizing aiPlayer nodes = Some (v, nodes')
    ∧ fullMinimax fuel game depth isMaximizing aiPlayer = Some vF
    ∧ (Num_ltb alpha vF = true → Num_ltb vF beta = true → v = vF)
    ∧ (Num_leb vF alpha = true → Num_leb v alpha = true)
    ∧ (Num_leb beta vF = true → Num_leb beta v = true).
Proof.
  intros Hwf Hd Hfuel Hwin.
  destruct (fullMinimax_total fuel game depth isMaximizing aiPlayer Hwf Hd Hfuel) as [vF HvF].
  destruct (minimax_sound fuel game depth isMaximizing aiPlayer vF HvF alpha beta nodes Hwin)
    as (v & nodes' & Hv & Hclamp).
  exists v, vF, nodes'. split; [exact Hv|]. split; [exact HvF|].
  split; [|split].
  - exact (clamp_inside alpha beta v vF Hwin Hclamp).
  - exact (clamp_fail_low alpha beta v vF Hwin Hclamp).
  - exact (clamp_fail_high alpha beta v vF Hwin Hclamp).
Qed.

Lemma minimax_window_contract_witness :
  ∃ v vF nodes',
    minimax 3 afterOpening 2 (Fin (-5)) (Fin 5) false WHITE 0 = Some (v, nodes')
    ∧ fullMinimax 3 afterOpening 2 false WHITE = Some vF
    ∧ (Num_ltb (Fin (-5)) vF = true → Num_ltb vF (Fin 5) = true → v = vF)
    ∧ (Num_leb vF (Fin (-5)) = true → Num_leb v (Fin (-5)) = true)
    ∧ (Num_leb (Fin 5) vF = true → Num_leb (Fin 5) v = true).
Proof.
  apply (minimax_window_contract 3 afterOpening 2 (Fin (-5)) (Fin 5) false WHITE 0).
  - split; [apply wfBoardb_spec; vm_compute; reflexivity|].
    apply Forall_forall. intros m Hm. vm_compute in Hm.
    repeat (apply elem_of_cons in Hm as [->|Hm]; [reflexivity|]).
    by apply elem_of_nil in Hm.
  - lia.
  - simpl. lia.
  - reflexivity.
Defined.

Lemma rootLoop_member (good : OthelloGame → Prop)
    (search : OthelloGame → Num → Num → Z → option (Num * Z)) (game : OthelloGame) moves :
  (∀ gc alpha beta nodes, good gc →
     ∃ v nodes', search gc alpha beta nodes = Some (v, nodes') ∧ scoreBound v ∧ nodes < nodes') →
  Forall (λ m, ∃ gc, applyOnCopy game m = Some gc ∧ good gc) moves →
  ∀ bestMove bestScore nodes,
  ∃ best score nodes',
    rootLoop search game moves bestMove bestScore nodes = Some (best, score, nodes')
    ∧ (best = bestMove ∨ best ∈ moves) ∧ nodes ≤ nodes'.
Proof.
  intros Hs. induction 1 as [|m moves (gc & Hgc & Hgood) _ IH]; intros bestMove bestScore nodes.
  - exists bestMove, bestScore, nodes. split; [reflexivity|]. split; [by left|lia].
  - cbn [rootLoop]. rewrite Hgc. cbn [mbind option_bind].
    destruct (Hs gc NegInf PosInf nodes Hgood) as (s & n1 & -> & _ & Hn1).
    cbn [mbind option_bind].
    destruct (Num_gtb s bestScore).
    + destruct (IH m s n1) as (best & score & n2 & -> & Hb & Hn2).
      exists best, score, n2. split; [reflexivity|]. split; [|lia].
      right. destruct Hb as [->|Hb]; [apply list_elem_of_here|by apply list_elem_of_further].
    + destruct (IH bestMove bestScore n1) as (best & score & n2 & -> & Hb & Hn2).
      exists best, score, n2. split; [reflexivity|]. split; [|lia].
      destruct Hb as [->|Hb]; [by left|right; by apply list_elem_of_further].
Qed.

(** While a game lasts, [getMove] returns, whatever the depth of the AI;
    it never returns [null], the move it returns is one of the cache, and
    [makeMove] accepts that move.  Sixty levels of recursion are enough. *)
Theorem getMove_returns_accepted_move (fuel : nat) (ai : OthelloAI) (g : OthelloGame) :
  reachable g → gameOver g = false → (60 ≤ fuel)%nat →
  ∃ m nodes g',
    getMove fuel ai g = Some (Some m, mkAI (depth ai) nodes)
    ∧ 0 ≤ nodes
    ∧ m ∈ validMoves g
    ∧ makeMove g (row m) (col m) = Some (true, g').
Proof.
  intros Hreach Hlive Hfuel.
  destruct (reachable_cache g Hreach Hlive) as [Hcache Hne].
  pose proof (reachable_wfGame g Hreach) as [Hwf _].
  pose proof (reachable_empties g Hreach) as He.
  assert (Hlc : liveCache g) by (split; [exact Hwf|intros _; exact Hcache]).
  assert (Hsome : ∃ m nodes, getMove fuel ai g = Some (Some m, mkAI (depth ai) nodes)
                             ∧ 0 ≤ nodes ∧ m ∈ validMoves g).
  { unfold getMove, searchRoot.
    destruct (validMoves g) as [|first [|second rest]] eqn:Hvm; [done| |].
    - exists first, 0. split; [reflexivity|]. split; [lia|apply list_elem_of_here].
    - rewrite <- Hvm.
      destruct (rootLoop_member
                  (λ gc, liveCache gc
                         ∧ countCell EMPTY (board gc) = countCell EMPTY (board g) - 1)
                  (λ gameCopy alpha beta nodes,
                     minimax fuel gameCopy (depth ai - 1) alpha beta false WHITE nodes)
                  g (validMoves g)) with (bestMove := first) (bestScore := NegInf) (nodes := 0)
        as (best & score & n' & Hroot & Hb & Hn).
      + intros gc a b n [Hgc Hc]. apply minimax_terminates; [exact Hgc|].
        rewrite Hc, He. lia.
      + apply Forall_forall. intros m Hin.
        destruct (applyOnCopy_live g m Hlc Hlive Hin) as (gc & Hgc & Hl & Hc).
        exists gc. split; [exact Hgc|]. split; [exact Hl|exact Hc].
      + rewrite Hroot. cbn [mbind option_bind]. exists best, n'.
        split; [reflexivity|]. split; [exact Hn|].
        destruct Hb as [->|Hb]; [rewrite Hvm; apply list_elem_of_here|exact Hb]. }
  destruct Hsome as (m & nodes & Hg & Hn & Hin).
  destruct (cached_move_accepted g m Hwf Hlive Hcache Hin) as [g' Hm].
  exists m, nodes, g'. split; [exact Hg|]. split; [exact Hn|]. split; [exact Hin|exact Hm].
Qed.

Lemma getMove_returns_accepted_move_witness :
  ∃ m nodes g',
    getMove 60 (mkAI 0 0) afterOpening = Some (Some m, mkAI (depth (mkAI 0 0)) nodes)
    ∧ 0 ≤ nodes
    ∧ m ∈ validMoves afterOpening
    ∧ makeMove afterOpening (row m) (col m) = Some (true, g').
Proof.
  apply (getMove_returns_accepted_move 60 (mkAI 0 0) afterOpening).
  - apply (reachable_move initialGame 2 3).
    + apply reachable_new. vm_compute. reflexivity.
    + vm_compute. reflexivity.
  - vm_compute. reflexivity.
  - lia.
Defined.

(** ** getFlippedDiscs implements the capture rule *)

#[local] Transparent getFlippedDiscs.

Lemma walkLine_stop fuel b opponent dr dc : ∀ r c line line' r' c',
  walkLine fuel b opponent dr dc r c line = Some (line', r', c') →
  ¬ (inBounds r' c' = true ∧ getCell b r' c' = Some (Disc opponent)).
Proof.
  induction fuel as [|fuel IH]; intros r c line line' r' c'; cbn [walkLine]; [done|].
  destruct (inBounds r c) eqn:Hin.
  - destruct (getCell b r c) as [x|] eqn:Hx; [|done]. cbn [mbind option_bind].
    case_decide as Hopp.
    + apply IH.
    + intros [= <- <- <-] [_ Hc]. rewrite Hx in Hc. congruence.
  - intros [= <- <- <-] [Hc _]. congruence.
Qed.

Lemma ray_elem dr dc k : ∀ r c m,
  m ∈ ray dr dc r c k ↔ ∃ i, 0 ≤ i < Z.of_nat k ∧ m = mkMove (r + i * dr) (c + i * dc).
Proof.
  induction k as [|k IH]; intros r c m; cbn [ray].
  - split; [by intros ?%elem_of_nil|intros (i & Hi & _); lia].
  - rewrite elem_of_cons, IH. split.
    + intros [->|(i & Hi & ->)].
      * exists 0. split; [lia|]. f_equal; lia.
      * exists (i + 1). split; [lia|]. f_equal; lia.
    + intros (i & Hi & ->). destruct (decide (i = 0)) as [->|Hne].
      * left. f_equal; lia.
      * right. exists (i - 1). split; [lia|]. f_equal; lia.
Qed.

Lemma closedBy_true b player r c :
  closedBy b player r c = Some true
  ↔ inBounds r c = true ∧ getCell b r c = Some (Disc player).
Proof.
  unfold closedBy. destruct (inBounds r c); [|split; [done|by intros [? _]]].
  destruct (getCell b r c) as [x|]; cbn [mbind option_bind]; [|split; [done|by intros [_ ?]]].
  split.
  - intros [= Hx%bool_decide_eq_true]. by subst x.
  - intros [_ [= ->]]. by rewrite bool_decide_eq_true_2.
Qed.

(** One direction: the line kept by the loop is the bracketed run. *)
Lemma direction_rule b player row0 col0 dr dc line r c closed m :
  walkLine walkFuel b (opponentOf player) dr dc (row0 + dr) (col0 + dc) [] = Some (line, r, c) →
  (if bool_decide (0 < length line)%nat then closedBy b player r c else Some false) = Some closed →
  m ∈ (if (closed : bool) then line else [])
  ↔ ∃ k j, bracketed b player row0 col0 (dr, dc) k ∧ 1 ≤ j ≤ k ∧ m = stepFrom row0 col0 (dr, dc) j.
Proof.
  intros Hw Hclosed.
  pose proof (walkLine_stop _ _ _ _ _ _ _ _ _ _ _ Hw) as Hstop.
  apply walkLine_spec in Hw as (k0 & Hline & Hr & Hc & Hall).
  cbn [app] in Hline. subst line. rewrite length_ray in Hclosed.
  rewrite Forall_forall in Hall.
  assert (Hcell : ∀ j, 1 ≤ j ≤ Z.of_nat k0 → capturable b player (stepFrom row0 col0 (dr, dc) j)).
  { intros j Hj. apply Hall. apply ray_elem. exists (j - 1). split; [lia|].
    unfold stepFrom. cbn [fst snd]. f_equal; lia. }
  assert (Hend : stepFrom row0 col0 (dr, dc) (Z.of_nat k0 + 1) = mkMove r c).
  { unfold stepFrom. cbn [fst snd]. f_equal; lia. }
  split.
  - destruct closed; [|by intros ?%elem_of_nil].
    intros (i & Hi & ->)%ray_elem.
    case_bool_decide as Hk; [|done].
    apply closedBy_true in Hclosed as [Hin Hpl].
    exists (Z.of_nat k0), (i + 1). split; [|split; [lia|]].
    + split; [lia|]. split; [exact Hcell|]. rewrite Hend. by split.
    + unfold stepFrom. cbn [fst snd]. f_equal; lia.
  - intros (k & j & (Hk1 & Hopp & Hin & Hpl) & Hj & ->).
    assert (k = Z.of_nat k0) as ->.
    { destruct (Z.lt_trichotomy k (Z.of_nat k0)) as [Hlt|[Heq|Hgt]]; [|done|].
      - destruct (Hcell (k + 1)) as [_ Hc']; [lia|]. rewrite Hc' in Hpl.
        pose proof (opponentOf_ne player). congruence.
      - destruct (Hopp (Z.of_nat k0 + 1)) as [Hi' Hc']; [lia|].
        rewrite Hend in Hi', Hc'. cbn [row col] in Hi', Hc'. by destruct Hstop. }
    rewrite Hend in Hin, Hpl. cbn [row col] in Hin, Hpl.
    rewrite bool_decide_eq_true_2 in Hclosed by lia.
    rewrite (proj2 (closedBy_true b player r c) (conj Hin Hpl)) in Hclosed.
    injection Hclosed as <-.
    apply ray_elem. exists (j - 1). split; [lia|].
    unfold stepFrom. cbn [fst snd]. f_equal; lia.
Qed.

Lemma flipLoop_rule b player row0 col0 dirs : ∀ flipped res m,
  flipLoop b player row0 col0 dirs flipped = Some res →
  m ∈ res
  ↔ m ∈ flipped
    ∨ ∃ d k j, d ∈ dirs ∧ bracketed b player row0 col0 d k ∧ 1 ≤ j ≤ k
               ∧ m = stepFrom row0 col0 d j.
Proof.
  induction dirs as [|[dr dc] dirs IH]; intros flipped res m; cbn [flipLoop].
  - intros [= <-]. split; [by left|].
    intros [?|(d & k & j & Hd & _)]; [done|]. by apply elem_of_nil in Hd.
  - destruct (walkLine walkFuel b (opponentOf player) dr dc (row0 + dr) (col0 + dc) [])
      as [[[line r] c]|] eqn:Hw; [|done].
    cbn [mbind option_bind].
    destruct (if bool_decide (0 < length line)%nat then closedBy b player r c else Some false)
      as [closed|] eqn:Hclosed; [|done].
    cbn [mbind option_bind]. intros Hres.
    rewrite (IH _ _ m Hres).
    pose proof (direction_rule b player row0 col0 dr dc line r c closed m Hw Hclosed) as Hdir.
    assert (Hacc : m ∈ (if closed then flipped ++ line else flipped)
                   ↔ m ∈ flipped ∨ m ∈ (if closed then line else [])).
    { destruct closed; [apply elem_of_app|]. split; [by left|].
      intros [?|?%elem_of_nil]; done. }
    rewrite Hacc, Hdir. split.
    + intros [[Hm|(k & j & Hb & Hj & ->)]|(d & k & j & Hd & Hb & Hj & ->)].
      * by left.
      * right. exists (dr, dc), k, j. split; [apply list_elem_of_here|done].
      * right. exists d, k, j. split; [by apply list_elem_of_further|done].
    + intros [Hm|(d & k & j & [->|Hd]%elem_of_cons & Hb & Hj & ->)].
      * left. by left.
      * left. right. by exists k, j.
      * right. by exists d, k, j.
Qed.

#[local] Opaque getFlippedDiscs.

(** [getFlippedDiscs(row, col, player)] returns exactly the discs the
    rule of the game captures: the cells of every run of opponent discs
    that starts next to [(row, col)] in one of the eight directions and
    is closed by a disc of [player], the whole run on the grid. *)
Theorem getFlippedDiscs_capture_rule (b : Board) (row0 col0 : Z) (player : Player)
    (flipped : list Move) (m : Move) :
  getFlippedDiscs b row0 col0 player = Some flipped →
  m ∈ flipped
  ↔ ∃ d k j, d ∈ directions ∧ bracketed b player row0 col0 d k ∧ 1 ≤ j ≤ k
             ∧ m = stepFrom row0 col0 d j.
Proof.
  intros Hfl.
  rewrite (flipLoop_rule b player row0 col0 directions [] flipped m Hfl).
  split; [|by right]. intros [Hm|Hm]; [by apply elem_of_nil in Hm|exact Hm].
Qed.

Lemma getFlippedDiscs_capture_rule_witness :
  mkMove 3 3 ∈ [mkMove 3 3]
  ↔ ∃ d k j, d ∈ directions ∧ bracketed (board initialGame) BLACK 2 3 d k ∧ 1 ≤ j ≤ k
             ∧ mkMove 3 3 = stepFrom 2 3 d j.
Proof.
  apply (getFlippedDiscs_capture_rule (board initialGame) 2 3 BLACK [mkMove 3 3] (mkMove 3 3)).
  vm_compute. reflexivity.
Defined.

(** ** The controller *)

Lemma makeMove_reachable g r c ok g' :
  reachable g → makeMove g r c = Some (ok, g') → reachable g'.
Proof.
  intros Hreach Hm. destruct ok.
  - exact (reachable_move g r c g' Hreach Hm).
  - apply makeMove_false in Hm as [-> _]. exact Hreach.
Qed.

Lemma existsb_cached r c (moves : list Move) :
  existsb (λ '(mkMove mrow mcol), bool_decide (mrow = r) && bool_decide (mcol = c)) moves = true
  ↔ mkMove r c ∈ moves.
Proof.
  induction moves as [|[mr mc] moves IH]; simpl.
  - split; [done|by intros ?%elem_of_nil].
  - rewrite orb_true_iff, IH, elem_of_cons, andb_true_iff, !bool_decide_eq_true.
    split; (intros [H|H]; [left|by right]).
    + destruct H as [-> ->]. reflexivity.
    + injection H as -> ->. by split.
Qed.

Lemma updateUI_val s :
  wfBoard (board (App.game s)) →
  App.updateUI s
  = Some [App.ShowScore (countCell (Disc BLACK) (board (App.game s)))
                        (countCell (Disc WHITE) (board (App.game s)))].
Proof. intros Hwf. unfold App.updateUI. by rewrite (getScore_spec _ Hwf). Qed.

Lemma handleGameOver_val s :
  wfBoard (board (App.game s)) →
  App.handleGameOver s
  = Some [App.GameOverModal
            (if decide (winner (App.game s) = Some App.playerColor) then App.PlayerWon
             else if decide (winner (App.game s) = Some App.aiColor) then App.ComputerWon
             else App.Tie)
            (countCell (Disc BLACK) (board (App.game s)))
            (countCell (Disc WHITE) (board (App.game s)))].
Proof. intros Hwf. unfold App.handleGameOver. by rewrite (getScore_spec _ Hwf). Qed.

Lemma getMoveResume_member ai g moves :
  wfGame g → depth ai = 4 → moves ≠ [] →
  Forall (λ m, inBounds (row m) (col m) = true) moves →
  ∃ m nodes',
    App.getMoveResume App.searchFuel ai g moves = Some (Some m, mkAI (depth ai) nodes')
    ∧ m ∈ moves.
Proof.
  intros Hwf Hd Hne Hin. destruct moves as [|first rest]; [done|].
  unfold App.getMoveResume.
  destruct (rootLoop_member wfGame
              (λ gameCopy alpha beta nodes,
                 minimax App.searchFuel gameCopy (depth ai - 1) alpha beta false WHITE nodes)
              g (first :: rest)) with (bestMove := first) (bestScore := NegInf)
                                      (nodes := nodesEvaluated ai)
    as (best & score & n' & Hroot & Hb & _).
  - intros gc a b n Hgc. apply minimax_bound; [exact Hgc|lia|].
    rewrite Hd. unfold App.searchFuel. lia.
  - eapply Forall_impl; [exact Hin|]. intros m Hm. exact (applyOnCopy_total g m Hwf Hm).
  - rewrite Hroot. cbn [mbind option_bind]. exists best, n'. split; [reflexivity|].
    destruct Hb as [->|Hb]; [apply list_elem_of_here|exact Hb].
Qed.

Ltac app_simpl :=
  cbn [App.game App.ai App.isPlayerTurn App.isProcessing App.pending
       mbind option_bind depth nodesEvaluated] in *.

(** The move the AI plays from a position where it is to move. *)
Lemma aiPlay_accepted s ai' m :
  App.aiTurn s → m ∈ validMoves (App.game s) →
  ∃ g', makeMove (App.game s) (row m) (col m) = Some (true, g')
        ∧ App.aiPlay s ai' (Some m)
          = Some (App.mkApp g' ai' false true App.AfterAiMove,
                  [App.PlaceDisc (row m) (col m) App.aiColor true])
        ∧ reachable g'
        ∧ countCell EMPTY (board g') = countCell EMPTY (board (App.game s)) - 1.
Proof.
  intros (Hr & _ & Hp & Ht & Hlive & Hcur) Hin.
  destruct (reachable_cache _ Hr Hlive) as [Hcache _].
  pose proof (reachable_wfGame _ Hr) as [Hwf _].
  destruct (cached_move_accepted _ m Hwf Hlive Hcache Hin) as [g' Hm].
  exists g'. split; [exact Hm|]. split; [|split].
  - unfold App.aiPlay. rewrite Hm, Hp, Ht, Hcur. reflexivity.
  - exact (reachable_move _ _ _ _ Hr Hm).
  - by destruct (makeMove_counts _ _ _ _ Hm).
Qed.

Lemma aiMove_cases s :
  App.aiTurn s →
  (∃ moves, App.aiMove s
            = Some (App.mkApp (App.game s) (mkAI (depth (App.ai s)) 0) false true
                              (App.Thinking moves), [])
            ∧ moves = validMoves (App.game s))
  ∨ (∃ m g', validMoves (App.game s) = [m]
             ∧ makeMove (App.game s) (row m) (col m) = Some (true, g')
             ∧ App.aiMove s
               = Some (App.mkApp g' (mkAI (depth (App.ai s)) 0) false true App.AfterAiMove,
                       [App.PlaceDisc (row m) (col m) App.aiColor true])
             ∧ reachable g'
             ∧ countCell EMPTY (board g') = countCell EMPTY (board (App.game s)) - 1).
Proof.
  intros Hturn. pose proof Hturn as (Hr & _ & Hp & Ht & Hlive & Hcur).
  destruct (reachable_cache _ Hr Hlive) as [_ Hne].
  unfold App.aiMove. rewrite Hlive.
  destruct (validMoves (App.game s)) as [|first [|second rest]] eqn:Hvm; [done| |].
  - right.
    destruct (aiPlay_accepted s (mkAI (depth (App.ai s)) 0) first Hturn)
      as (g' & Hm & Hplay & Hr' & He).
    { rewrite Hvm. apply list_elem_of_here. }
    exists first, g'. split; [reflexivity|]. split; [exact Hm|]. split; [exact Hplay|].
    split; [exact Hr'|exact He].
  - left. exists (first :: second :: rest). rewrite Hp, Ht. split; reflexivity.
Qed.

(** The two resumptions after an animation agree once [isPlayerTurn] is
    known to be false when [aiMove] is entered. *)
Lemma resume_cases s (fromPlayer : bool) :
  reachable (App.game s) → depth (App.ai s) = 4 → App.isProcessing s = true →
  (fromPlayer = false → App.isPlayerTurn s = false) →
  let resume := if fromPlayer then App.resumeMakeMove s else App.resumeAiMove s in
  let ui := [App.ShowScore (countCell (Disc BLACK) (board (App.game s)))
                           (countCell (Disc WHITE) (board (App.game s)))] in
  if gameOver (App.game s) then
    ∃ over, App.handleGameOver s = Some over
            ∧ resume = Some (App.mkApp (App.game s) (App.ai s) (App.isPlayerTurn s) false App.Idle,
                             ui ++ over)
  else if decide (currentPlayer (App.game s) = App.playerColor) then
    resume = Some (App.mkApp (App.game s) (App.ai s) true false App.Idle, ui)
  else
    ∃ s1 s' effects,
      App.aiTurn s1 ∧ App.game s1 = App.game s ∧ App.ai s1 = App.ai s
      ∧ App.aiMove s1 = Some (s', effects)
      ∧ resume = Some (s', ui ++ effects).
Proof.
  intros Hr Hd Hp Ht resume ui.
  pose proof (reachable_wfGame _ Hr) as [Hwf _].
  assert (Hresume :
    resume
    = if gameOver (App.game s) then
        over ← App.handleGameOver s;
        Some (App.mkApp (App.game s) (App.ai s) (App.isPlayerTurn s) false App.Idle, ui ++ over)
      else if decide (currentPlayer (App.game s) = App.playerColor) then
        Some (App.mkApp (App.game s) (App.ai s) true false App.Idle, ui)
      else
        '(s', effects) ← App.aiMove (App.mkApp (App.game s) (App.ai s) false true (App.pending s));
        Some (s', ui ++ effects)).
  { subst resume. destruct fromPlayer.
    - unfold App.resumeMakeMove. rewrite (updateUI_val s Hwf), Hp. reflexivity.
    - unfold App.resumeAiMove. rewrite (updateUI_val s Hwf).
      destruct s as [g a t p pd]. app_simpl. rewrite (Ht eq_refl), Hp. reflexivity. }
  rewrite Hresume. clear Hresume.
  destruct (gameOver (App.game s)) eqn:Hover.
  - rewrite (handleGameOver_val s Hwf). cbn [mbind option_bind]. by eexists.
  - destruct (decide (currentPlayer (App.game s) = App.playerColor)) as [Hcur|Hcur]; [done|].
    set (s1 := App.mkApp (App.game s) (App.ai s) false true (App.pending s)).
    assert (Hturn : App.aiTurn s1).
    { split; [exact Hr|]. split; [exact Hd|]. split; [reflexivity|]. split; [reflexivity|].
      split; [exact Hover|]. unfold App.playerColor in Hcur. unfold App.aiColor.
      cbn [App.game s1]. by destruct (currentPlayer (App.game s)). }
    destruct (aiMove_cases s1 Hturn) as [(moves & Hai & _)|(m & g' & _ & _ & Hai & _)];
      rewrite Hai; cbn [mbind option_bind]; eexists s1, _, _;
      (split; [exact Hturn|]); (split; [reflexivity|]); (split; [reflexivity|]);
      (split; [exact Hai|reflexivity]).
Qed.

Lemma invariant_idle g a t :
  reachable g → depth a = 4 →
  (gameOver g = false → t = true ∧ currentPlayer g = App.playerColor) →
  App.invariant (App.mkApp g a t false App.Idle).
Proof.
  intros Hr Hd Hlive. split; [exact Hr|]. split; [exact Hd|]. split; [reflexivity|exact Hlive].
Qed.

Lemma aiMove_invariant s s' effects :
  App.aiTurn s → App.aiMove s = Some (s', effects) → App.invariant s'.
Proof.
  intros Hturn Hai. pose proof Hturn as (Hr & Hd & Hp & Ht & Hlive & Hcur).
  destruct (aiMove_cases s Hturn) as [(moves & Hai' & Hmoves)|(m & g' & _ & _ & Hai' & Hr' & _)];
    rewrite Hai' in Hai; injection Hai as <- <-.
  - split; [exact Hr|]. split; [exact Hd|]. app_simpl.
    split; [reflexivity|]. split; [reflexivity|]. split; [exact Hlive|].
    split; [exact Hcur|]. split; [exact Hmoves|reflexivity].
  - split; [exact Hr'|]. split; [exact Hd|]. split; reflexivity.
Qed.

Lemma resume_invariant s (fromPlayer : bool) s' effects :
  reachable (App.game s) → depth (App.ai s) = 4 → App.isProcessing s = true →
  (fromPlayer = false → App.isPlayerTurn s = false) →
  (if fromPlayer then App.resumeMakeMove s else App.resumeAiMove s) = Some (s', effects) →
  App.invariant s'.
Proof.
  intros Hr Hd Hp Ht Hres.
  pose proof (resume_cases s fromPlayer Hr Hd Hp Ht) as Hcases. cbv zeta in Hcases.
  destruct (gameOver (App.game s)) eqn:Hover.
  - destruct Hcases as (over & _ & Heq). rewrite Heq in Hres. injection Hres as <- <-.
    apply invariant_idle; [exact Hr|exact Hd|]. intros Hlive. congruence.
  - destruct (decide (currentPlayer (App.game s) = App.playerColor)) as [Hcur|Hcur].
    + rewrite Hcases in Hres. injection Hres as <- <-.
      apply invariant_idle; [exact Hr|exact Hd|]. intros _. by split.
    + destruct Hcases as (s1 & s2 & effects2 & Hturn & _ & _ & Hai & Heq).
      rewrite Heq in Hres. injection Hres as <- <-.
      exact (aiMove_invariant s1 s2 effects2 Hturn Hai).
Qed.

Lemma thinking_turn s moves :
  App.invariant s → App.pending s = App.Thinking moves →
  App.aiTurn s ∧ moves = validMoves (App.game s) ∧ moves ≠ []
  ∧ Forall (λ m, inBounds (row m) (col m) = true) moves.
Proof.
  intros (Hr & Hd & Hinv) Hpend. rewrite Hpend in Hinv.
  destruct Hinv as (Hp & Ht & Hlive & Hcur & Hmoves & _).
  split; [by repeat split|]. split; [exact Hmoves|].
  destruct (reachable_cache _ Hr Hlive) as [_ Hne].
  pose proof (reachable_wfGame _ Hr) as [_ Hin].
  rewrite Hmoves. by split.
Qed.

(** The timer of the search: the move found is accepted. *)
Lemma thinking_step s moves :
  App.invariant s → App.pending s = App.Thinking moves →
  ∃ m nodes' g',
    m ∈ validMoves (App.game s)
    ∧ makeMove (App.game s) (row m) (col m) = Some (true, g')
    ∧ App.step s App.Timer
      = Some (App.mkApp g' (mkAI (depth (App.ai s)) nodes') false true App.AfterAiMove,
              [App.PlaceDisc (row m) (col m) App.aiColor true])
    ∧ reachable g'
    ∧ countCell EMPTY (board g') = countCell EMPTY (board (App.game s)) - 1.
Proof.
  intros Hinv Hpend.
  destruct (thinking_turn s moves Hinv Hpend) as (Hturn & Hmoves & Hne & Hin).
  pose proof Hturn as (Hr & Hd & _).
  pose proof (reachable_wfGame _ Hr) as Hwf.
  destruct (getMoveResume_member (App.ai s) (App.game s) moves Hwf Hd Hne Hin)
    as (m & nodes' & Hget & Hm).
  rewrite Hmoves in Hm.
  destruct (aiPlay_accepted s (mkAI (depth (App.ai s)) nodes') m Hturn Hm)
    as (g' & Hmove & Hplay & Hr' & He).
  exists m, nodes', g'. split; [exact Hm|]. split; [exact Hmove|].
  split; [|split; [exact Hr'|exact He]].
  cbn [App.step]. rewrite Hpend, Hget. cbn [mbind option_bind]. exact Hplay.
Qed.

Lemma click_cases s r c :
  App.invariant s →
  if bool_decide (App.pending s = App.Idle ∧ gameOver (App.game s) = false
                  ∧ mkMove r c ∈ validMoves (App.game s))
  then ∃ g', makeMove (App.game s) r c = Some (true, g')
             ∧ currentPlayer (App.game s) = App.playerColor
             ∧ App.handleCellClick s r c
               = Some (App.mkApp g' (App.ai s) true true App.AfterPlayerMove,
                       [App.PlaceDisc r c App.playerColor true])
  else App.handleCellClick s r c = Some (s, []).
Proof.
  intros (Hr & Hd & Hinv). unfold App.handleCellClick.
  case_bool_decide as Hcase.
  - destruct Hcase as (Hpend & Hlive & Hin). rewrite Hpend in Hinv.
    destruct Hinv as (Hp & Hturn). destruct (Hturn Hlive) as [Ht Hcur].
    rewrite Hp, Ht, Hlive. cbn [orb negb]. cbv zeta.
    rewrite (proj2 (existsb_cached r c (validMoves (App.game s))) Hin). cbn [negb].
    destruct (reachable_cache _ Hr Hlive) as [Hcache _].
    pose proof (reachable_wfGame _ Hr) as [Hwf _].
    destruct (cached_move_accepted _ (mkMove r c) Hwf Hlive Hcache Hin) as [g' Hm].
    cbn [row col] in Hm.
    exists g'. split; [exact Hm|]. split; [exact Hcur|].
    unfold App.makeMove. rewrite Hpend, Hm, Ht, Hcur. reflexivity.
  - destruct (App.isProcessing s || negb (App.isPlayerTurn s)) eqn:Hguard; [reflexivity|].
    destruct (gameOver (App.game s)) eqn:Hover; [reflexivity|]. cbv zeta.
    destruct (existsb _ (validMoves (App.game s))) eqn:Hex; [|reflexivity].
    apply existsb_cached in Hex. exfalso. apply Hcase.
    split; [|by split].
    apply orb_false_iff in Hguard as [Hp _].
    destruct (App.pending s) as [| |moves|];
      [reflexivity| |destruct Hinv as [? _]|destruct Hinv as [? _]]; congruence.
Qed.

Lemma initial_scan b : ∀ cells effects x,
  App.placeInitial b cells = Some effects → x ∈ effects →
  ∃ r c p, x = App.PlaceDisc r c p false ∧ getCell b r c = Some (Disc p).
Proof.
  induction cells as [|[r0 c0] cells IH]; intros effects x; cbn [App.placeInitial].
  - intros [= <-] Hin. by apply elem_of_nil in Hin.
  - destruct (getCell b r0 c0) as [y|] eqn:Hy; [|done]. cbn [mbind option_bind].
    destruct (App.placeInitial b cells) as [rest|] eqn:Hrest; [|done].
    cbn [mbind option_bind]. intros [= <-] Hin.
    destruct y as [|q].
    + exact (IH rest x eq_refl Hin).
    + apply elem_of_cons in Hin as [->|Hin]; [by exists r0, c0, q|].
      exact (IH rest x eq_refl Hin).
Qed.

Lemma step_invariant s e s' effects :
  App.invariant s → App.step s e = Some (s', effects) → App.invariant s'.
Proof.
  intros Hinv Hstep. pose proof Hinv as (Hr & Hd & Hpend).
  destruct e as [r c| |]; cbn [App.step] in Hstep.
  - pose proof (click_cases s r c Hinv) as Hclick.
    case_bool_decide.
    + destruct Hclick as (g' & Hm & _ & Hclick). rewrite Hclick in Hstep.
      injection Hstep as <- <-.
      split; [exact (reachable_move _ _ _ _ Hr Hm)|]. split; [exact Hd|reflexivity].
    + rewrite Hclick in Hstep. injection Hstep as <- <-. exact Hinv.
  - unfold App.newGame in Hstep. destruct (App.pending s); [|done..].
    rewrite newGame_val in Hstep. cbn [mbind option_bind] in Hstep.
    destruct (App.updateUI _) as [ui|]; [|done]. cbn [mbind option_bind] in Hstep.
    destruct (App.placeInitial _ _) as [discs|]; [|done]. cbn [mbind option_bind] in Hstep.
    injection Hstep as <- <-.
    apply invariant_idle; [apply reachable_new, newGame_val|exact Hd|]. intros _. by split.
  - destruct (App.pending s) as [| |moves|] eqn:Hp; [done| | |].
    + exact (resume_invariant s true s' effects Hr Hd Hpend ltac:(done) Hstep).
    + destruct (thinking_step s moves Hinv Hp) as (m & nodes' & g' & _ & _ & Hst & Hr' & _).
      cbn [App.step] in Hst. rewrite Hp in Hst. rewrite Hst in Hstep.
      injection Hstep as <- <-.
      split; [exact Hr'|]. split; [exact Hd|]. split; reflexivity.
    + destruct Hpend as [Hproc Hturn].
      exact (resume_invariant s false s' effects Hr Hd Hproc (λ _, Hturn) Hstep).
Qed.

Lemma run_invariant es : ∀ s s' effects,
  App.invariant s → App.run s es = Some (s', effects) → App.invariant s'.
Proof.
  induction es as [|e es IH]; intros s s' effects Hinv; cbn [App.run].
  - intros [= <- <-]. exact Hinv.
  - destruct (App.step s e) as [[s1 effects1]|] eqn:Hstep; [|done]. cbn [mbind option_bind].
    destruct (App.run s1 es) as [[s2 effects2]|] eqn:Hrun; [|done]. cbn [mbind option_bind].
    intros [= <- <-].
    exact (IH s1 s2 effects2 (step_invariant s e s1 effects1 Hinv Hstep) Hrun).
Qed.

Lemma reachable_invariant s : App.reachable s → App.invariant s.
Proof.
  intros (s0 & es & effects & Hnew & Hrun).
  apply (run_invariant es s0 s effects); [|exact Hrun].
  unfold App.newApp in Hnew. rewrite newGame_val in Hnew. injection Hnew as <-.
  apply invariant_idle; [apply reachable_new, newGame_val|reflexivity|]. intros _. by split.
Qed.

Lemma accepted_cell g r c g' :
  makeMove g r c = Some (true, g') → getCell (board g') r c = Some (Disc (currentPlayer g)).
Proof.
  intros Hm. rewrite (makeMove_board g r c g' r c Hm). rewrite decide_True; [reflexivity|tauto].
Qed.

(** What a resumption after an animation does. *)
Lemma resume_shape s (fromPlayer : bool) s' effects :
  reachable (App.game s) → depth (App.ai s) = 4 → App.isProcessing s = true →
  (fromPlayer = false → App.isPlayerTurn s = false) →
  (if fromPlayer then App.resumeMakeMove s else App.resumeAiMove s) = Some (s', effects) →
  let black := countCell (Disc BLACK) (board (App.game s)) in
  let white := countCell (Disc WHITE) (board (App.game s)) in
  (App.game s' = App.game s ∧ gameOver (App.game s) = true
   ∧ App.pending s' = App.Idle
   ∧ effects = [App.ShowScore black white;
                App.GameOverModal
                  (if decide (winner (App.game s) = Some App.playerColor) then App.PlayerWon
                   else if decide (winner (App.game s) = Some App.aiColor) then App.ComputerWon
                   else App.Tie) black white])
  ∨ (App.game s' = App.game s ∧ gameOver (App.game s) = false
     ∧ effects = [App.ShowScore black white])
  ∨ (∃ m shown, makeMove (App.game s) (row m) (col m) = Some (true, App.game s')
                ∧ currentPlayer (App.game s) = App.aiColor
                ∧ (shown = [] ∨ shown = [App.ShowScore black white])
                ∧ effects = shown ++ [App.PlaceDisc (row m) (col m) App.aiColor true]).
Proof.
  intros Hr Hd Hproc Hturn Hres black white.
  pose proof (reachable_wfGame _ Hr) as [Hwf _].
  pose proof (resume_cases s fromPlayer Hr Hd Hproc Hturn) as Hcases. cbv zeta in Hcases.
  destruct (gameOver (App.game s)) eqn:Hover.
  - destruct Hcases as (over & Hover' & Heq). rewrite Heq in Hres. injection Hres as <- <-.
    rewrite (handleGameOver_val s Hwf) in Hover'. injection Hover' as <-.
    left. split; [reflexivity|]. split; [reflexivity|]. split; reflexivity.
  - destruct (decide (currentPlayer (App.game s) = App.playerColor)) as [Hcur|Hcur].
    + rewrite Hcases in Hres. injection Hres as <- <-.
      right. left. split; [reflexivity|]. split; reflexivity.
    + destruct Hcases as (s1 & s2 & effects2 & Hai1 & Hg1 & _ & Hai & Heq).
      rewrite Heq in Hres. injection Hres as <- <-.
      pose proof Hai1 as (_ & _ & _ & _ & _ & Hcur1). rewrite Hg1 in Hcur1.
      destruct (aiMove_cases s1 Hai1) as [(moves & Hai' & _)|(m & g' & _ & Hm & Hai' & _)];
        rewrite Hai' in Hai; injection Hai as <- <-.
      * right. left. cbn [App.game]. split; [exact Hg1|]. split; reflexivity.
      * right. right.
        exists m, [App.ShowScore black white]. cbn [App.game]. rewrite Hg1 in Hm.
        split; [exact Hm|]. split; [exact Hcur1|]. split; [by right|reflexivity].
Qed.

(** What one event does: the game afterwards and the effects, case by case. *)
Lemma step_shape s e s' effects :
  App.invariant s → App.step s e = Some (s', effects) →
  let black := countCell (Disc BLACK) (board (App.game s)) in
  let white := countCell (Disc WHITE) (board (App.game s)) in
  (s' = s ∧ effects = [] ∧ ∃ r c, e = App.Click r c)
  ∨ (∃ r c, e = App.Click r c
            ∧ makeMove (App.game s) r c = Some (true, App.game s')
            ∧ currentPlayer (App.game s) = App.playerColor
            ∧ effects = [App.PlaceDisc r c App.playerColor true])
  ∨ (e = App.NewGame ∧ App.game s' = initialGame
     ∧ ∃ discs, App.placeInitial (board initialGame) allCells = Some discs
                ∧ effects = App.ShowScore 2 2 :: discs)
  ∨ (e = App.Timer
     ∧ ((App.game s' = App.game s ∧ gameOver (App.game s) = true
         ∧ App.pending s' = App.Idle
         ∧ effects = [App.ShowScore black white;
                      App.GameOverModal
                        (if decide (winner (App.game s) = Some App.playerColor) then App.PlayerWon
                         else if decide (winner (App.game s) = Some App.aiColor)
                              then App.ComputerWon
                              else App.Tie) black white])
        ∨ (App.game s' = App.game s ∧ gameOver (App.game s) = false
           ∧ effects = [App.ShowScore black white])
        ∨ (∃ m shown, makeMove (App.game s) (row m) (col m) = Some (true, App.game s')
                      ∧ currentPlayer (App.game s) = App.aiColor
                      ∧ (shown = [] ∨ shown = [App.ShowScore black white])
                      ∧ effects = shown ++ [App.PlaceDisc (row m) (col m) App.aiColor true]))).
Proof.
  intros Hinv Hstep black white. pose proof Hinv as (Hr & Hd & Hpend).
  pose proof (reachable_wfGame _ Hr) as [Hwf _].
  destruct e as [r c| |]; cbn [App.step] in Hstep.
  - pose proof (click_cases s r c Hinv) as Hclick. case_bool_decide.
    + destruct Hclick as (g' & Hm & Hcur & Hclick). rewrite Hclick in Hstep.
      injection Hstep as <- <-. right. left. exists r, c.
      split; [reflexivity|]. split; [exact Hm|]. split; [exact Hcur|reflexivity].
    + rewrite Hclick in Hstep. injection Hstep as <- <-. left.
      split; [reflexivity|]. split; [reflexivity|]. by exists r, c.
  - unfold App.newGame in Hstep. destruct (App.pending s); [|done..].
    rewrite newGame_val in Hstep. cbn [mbind option_bind] in Hstep.
    rewrite updateUI_val in Hstep by (apply wfBoardb_spec; vm_compute; reflexivity).
    cbn [mbind option_bind App.game] in Hstep.
    destruct (App.placeInitial (board initialGame) allCells) as [discs|] eqn:Hdiscs; [|done].
    cbn [mbind option_bind] in Hstep. injection Hstep as <- <-.
    right. right. left. split; [reflexivity|]. split; [reflexivity|].
    exists discs. split; [reflexivity|]. reflexivity.
  - do 3 right. split; [reflexivity|].
    destruct (App.pending s) as [| |moves|] eqn:Hp; [done| | |].
    + exact (resume_shape s true s' effects Hr Hd Hpend ltac:(done) Hstep).
    + destruct (thinking_step s moves Hinv Hp) as (m & nodes' & g' & _ & Hm & Hst & _).
      destruct (thinking_turn s moves Hinv Hp) as ((_ & _ & _ & _ & _ & Hcur) & _).
      cbn [App.step] in Hst. rewrite Hp in Hst. rewrite Hst in Hstep.
      injection Hstep as <- <-. right. right.
      exists m, []. split; [exact Hm|]. split; [exact Hcur|]. split; [by left|reflexivity].
    + destruct Hpend as [Hproc Hturn].
      exact (resume_shape s false s' effects Hr Hd Hproc (λ _, Hturn) Hstep).
Qed.

(** ** The controller: what holds of every state *)

Lemma invariant_processing s :
  App.invariant s → (App.isProcessing s = false ↔ App.pending s = App.Idle).
Proof.
  intros (_ & _ & Hpend).
  destruct (App.pending s) as [| |moves|].
  - destruct Hpend as [Hp _]. by split.
  - split; [congruence|done].
  - destruct Hpend as [Hp _]. split; [congruence|done].
  - destruct Hpend as [Hp _]. split; [congruence|done].
Qed.

Lemma invariant_idle_turn s :
  App.invariant s → App.pending s = App.Idle → gameOver (App.game s) = false →
  App.isPlayerTurn s = true ∧ currentPlayer (App.game s) = BLACK
  ∧ validMoves (App.game s) ≠ [].
Proof.
  intros (Hr & _ & Hpend) Hidle Hlive. rewrite Hidle in Hpend.
  destruct Hpend as [_ Hturn]. destruct (Hturn Hlive) as [Ht Hcur].
  destruct (reachable_cache _ Hr Hlive) as [_ Hne].
  split; [exact Ht|]. split; [exact Hcur|exact Hne].
Qed.

(** In every state the application goes through: the game is a state of
    a game played by the rules; [isProcessing] is false exactly when no
    chain is suspended; when none is and the game is not over, it is the
    player's turn and Black is to move; and while the search is waiting,
    White is to move in a game that is not over, [getMove] holding the
    cache of that very position. *)
Theorem controller_state_invariant (s : App.OthelloApp) :
  App.reachable s →
  reachable (App.game s)
  ∧ (App.isProcessing s = false ↔ App.pending s = App.Idle)
  ∧ (App.pending s = App.Idle → gameOver (App.game s) = false →
     App.isPlayerTurn s = true ∧ currentPlayer (App.game s) = BLACK
     ∧ validMoves (App.game s) ≠ [])
  ∧ (∀ moves, App.pending s = App.Thinking moves →
     App.isPlayerTurn s = false ∧ gameOver (App.game s) = false
     ∧ currentPlayer (App.game s) = WHITE ∧ moves = validMoves (App.game s)).
Proof.
  intros Hreach. pose proof (reachable_invariant s Hreach) as Hinv.
  split; [exact (proj1 Hinv)|]. split; [exact (invariant_processing s Hinv)|].
  split; [exact (invariant_idle_turn s Hinv)|].
  intros moves Hpend.
  destruct (thinking_turn s moves Hinv Hpend) as ((_ & _ & _ & Ht & Hlive & Hcur) & Hmoves & _).
  split; [exact Ht|]. split; [exact Hlive|]. split; [exact Hcur|exact Hmoves].
Qed.

Lemma controller_state_invariant_witness :
  reachable (App.game appThinking.1)
  ∧ (App.isProcessing appThinking.1 = false ↔ App.pending appThinking.1 = App.Idle)
  ∧ (App.pending appThinking.1 = App.Idle → gameOver (App.game appThinking.1) = false →
     App.isPlayerTurn appThinking.1 = true ∧ currentPlayer (App.game appThinking.1) = BLACK
     ∧ validMoves (App.game appThinking.1) ≠ [])
  ∧ (∀ moves, App.pending appThinking.1 = App.Thinking moves →
     App.isPlayerTurn appThinking.1 = false ∧ gameOver (App.game appThinking.1) = false
     ∧ currentPlayer (App.game appThinking.1) = WHITE
     ∧ moves = validMoves (App.game appThinking.1)).
Proof.
  apply (controller_state_invariant appThinking.1).
  exists appStart, [App.Click 2 3; App.Timer], appThinking.2.
  split; vm_compute; reflexivity.
Defined.

(** A click starts a move exactly when no chain is suspended, the game
    is not over and the cell is one of the cache; [game.makeMove] then
    returns [true] and a black disc is placed.  Any other click changes
    nothing. *)
Theorem click_accepted_iff_cached (s : App.OthelloApp) (r c : Z) :
  App.invariant s →
  (App.pending s = App.Idle → gameOver (App.game s) = false →
   mkMove r c ∈ validMoves (App.game s) →
   ∃ g', makeMove (App.game s) r c = Some (true, g')
         ∧ App.handleCellClick s r c
           = Some (App.mkApp g' (App.ai s) true true App.AfterPlayerMove,
                   [App.PlaceDisc r c BLACK true]))
  ∧ (¬ (App.pending s = App.Idle ∧ gameOver (App.game s) = false
        ∧ mkMove r c ∈ validMoves (App.game s)) →
     App.handleCellClick s r c = Some (s, [])).
Proof.
  intros Hinv. pose proof (click_cases s r c Hinv) as Hclick.
  case_bool_decide as Hcase.
  - destruct Hclick as (g' & Hm & _ & Hclick). split; [|tauto].
    intros _ _ _. exists g'. split; [exact Hm|exact Hclick].
  - split; [|intros _; exact Hclick].
    intros Hidle Hlive Hin. destruct Hcase. split; [exact Hidle|]. split; [exact Hlive|exact Hin].
Qed.

Lemma click_accepted_iff_cached_witness :
  (App.pending appStart = App.Idle → gameOver (App.game appStart) = false →
   mkMove 2 3 ∈ validMoves (App.game appStart) →
   ∃ g', makeMove (App.game appStart) 2 3 = Some (true, g')
         ∧ App.handleCellClick appStart 2 3
           = Some (App.mkApp g' (App.ai appStart) true true App.AfterPlayerMove,
                   [App.PlaceDisc 2 3 BLACK true]))
  ∧ (¬ (App.pending appStart = App.Idle ∧ gameOver (App.game appStart) = false
        ∧ mkMove 2 3 ∈ validMoves (App.game appStart)) →
     App.handleCellClick appStart 2 3 = Some (appStart, [])).
Proof.
  apply (click_accepted_iff_cached appStart 2 3).
  split; [apply reachable_new; vm_compute; reflexivity|].
  split; [reflexivity|]. split; [reflexivity|]. intros _. split; reflexivity.
Defined.

(** Every disc the controller asks the renderer to place is on the
    board: an animated one is the move [game.makeMove] has just accepted
    (the returned boolean, which the controller drops, is never [false]),
    black after a click and white after a timer; the others are the
    discs of the starting position laid out by [newGame]. *)
Theorem placed_discs_are_on_board (s : App.OthelloApp) (e : App.Event) (s' : App.OthelloApp)
    (effects : list App.Effect) (r c : Z) (p : Player) (animate : bool) :
  App.invariant s → App.step s e = Some (s', effects) →
  App.PlaceDisc r c p animate ∈ effects →
  getCell (board (App.game s')) r c = Some (Disc p)
  ∧ (animate = true →
     makeMove (App.game s) r c = Some (true, App.game s')
     ∧ p = currentPlayer (App.game s)
     ∧ p = match e with App.Timer => WHITE | _ => BLACK end)
  ∧ (animate = false → e = App.NewGame).
Proof.
  intros Hinv Hstep Hin.
  destruct (step_shape s e s' effects Hinv Hstep)
    as [(_ & -> & _)|[(r0 & c0 & -> & Hm & Hcur & ->)|[(-> & Hg & discs & Hdiscs & ->)
        |(-> & [(_ & _ & _ & ->)|[(_ & _ & ->)|(m & shown & Hm & Hcur & Hshown & ->)]])]]];
    clear Hstep.
  - by apply elem_of_nil in Hin.
  - apply list_elem_of_singleton in Hin. injection Hin as -> -> -> ->.
    split; [rewrite (accepted_cell _ _ _ _ Hm); by rewrite Hcur|].
    split; [|done]. intros _. split; [exact Hm|]. split; [by rewrite Hcur|reflexivity].
  - apply elem_of_cons in Hin as [Hin|Hin]; [discriminate Hin|].
    destruct (initial_scan _ _ _ _ Hdiscs Hin) as (r0 & c0 & q & [= -> -> -> ->] & Hcell).
    rewrite Hg. split; [exact Hcell|]. split; [done|reflexivity].
  - apply elem_of_cons in Hin as [Hin|Hin]; [discriminate Hin|].
    apply list_elem_of_singleton in Hin. discriminate Hin.
  - apply list_elem_of_singleton in Hin. discriminate Hin.
  - assert (Hplaced : App.PlaceDisc r c p animate = App.PlaceDisc (row m) (col m) App.aiColor true).
    { apply elem_of_app in Hin as [Hin|Hin]; [|by apply list_elem_of_singleton in Hin].
      destruct Hshown as [->| ->]; [by apply elem_of_nil in Hin|].
      apply list_elem_of_singleton in Hin. discriminate Hin. }
    injection Hplaced as -> -> -> ->.
    split; [rewrite (accepted_cell _ _ _ _ Hm); by rewrite Hcur|].
    split; [|done]. intros _. split; [exact Hm|]. split; [by rewrite Hcur|reflexivity].
Qed.

Lemma placed_discs_are_on_board_witness :
  getCell (board (App.game appClicked.1)) 2 3 = Some (Disc BLACK)
  ∧ (true = true →
     makeMove (App.game appStart) 2 3 = Some (true, App.game appClicked.1)
     ∧ BLACK = currentPlayer (App.game appStart)
     ∧ BLACK = match App.Click 2 3 with App.Timer => WHITE | _ => BLACK end)
  ∧ (true = false → App.Click 2 3 = App.NewGame).
Proof.
  apply (placed_discs_are_on_board appStart (App.Click 2 3) appClicked.1 appClicked.2).
  - split; [apply reachable_new; vm_compute; reflexivity|].
    split; [reflexivity|]. split; [reflexivity|]. intros _. split; reflexivity.
  - vm_compute. reflexivity.
  - vm_compute. apply list_elem_of_here.
Defined.

(** ** The controller: the chain of a click comes to an end *)

Lemma timer_progress s :
  App.invariant s → App.pending s ≠ App.Idle →
  ∃ s' effects, App.step s App.Timer = Some (s', effects)
                ∧ App.measure s' < App.measure s.
Proof.
  intros Hinv Hbusy. pose proof Hinv as (Hr & Hd & Hpend).
  assert (Hresume : ∀ fromPlayer : bool,
            App.isProcessing s = true → (fromPlayer = false → App.isPlayerTurn s = false) →
            (∀ moves, App.pending s ≠ App.Thinking moves) →
            ∃ s' effects,
              (if fromPlayer then App.resumeMakeMove s else App.resumeAiMove s)
              = Some (s', effects)
              ∧ App.measure s' < App.measure s).
  { intros fromPlayer Hproc Hturn Hnothink.
    pose proof (resume_cases s fromPlayer Hr Hd Hproc Hturn) as Hcases. cbv zeta in Hcases.
    assert (Hweight : App.measure s = 2 * countCell EMPTY (board (App.game s)) + 2).
    { unfold App.measure. destruct (App.pending s) as [| |moves|]; [done|done| |done].
      by destruct (Hnothink moves). }
    rewrite Hweight.
    destruct (gameOver (App.game s)).
    - destruct Hcases as (over & _ & ->). eexists _, _. split; [reflexivity|].
      unfold App.measure. app_simpl. lia.
    - destruct (decide (currentPlayer (App.game s) = App.playerColor)).
      + rewrite Hcases. eexists _, _. split; [reflexivity|]. unfold App.measure. app_simpl. lia.
      + destruct Hcases as (s1 & s2 & effects2 & Hai1 & Hg1 & _ & Hai & ->).
        eexists _, _. split; [reflexivity|].
        destruct (aiMove_cases s1 Hai1) as [(moves & Hai' & _)|(m & g' & _ & _ & Hai' & _ & He)];
          rewrite Hai' in Hai; injection Hai as <- <-;
          unfold App.measure; app_simpl; rewrite <- ?Hg1; lia. }
  destruct (App.pending s) as [| |moves|] eqn:Hp; [done| | |].
  - cbn [App.step]. rewrite Hp. apply (Hresume true); [exact Hpend|intros [=]|intros moves [=]].
  - destruct (thinking_step s moves Hinv Hp) as (m & nodes' & g' & _ & _ & Hst & _ & He).
    eexists _, _. split; [exact Hst|].
    unfold App.measure. rewrite Hp. app_simpl. lia.
  - destruct Hpend as [Hproc Hturn]. cbn [App.step]. rewrite Hp.
    apply (Hresume false); [exact Hproc|intros _; exact Hturn|intros moves [=]].
Qed.

Lemma timers_to_idle (n : nat) : ∀ s,
  App.invariant s → App.measure s ≤ Z.of_nat n →
  ∃ k s' effects,
    (k ≤ n)%nat ∧ App.run s (replicate k App.Timer) = Some (s', effects)
    ∧ App.pending s' = App.Idle ∧ App.invariant s'.
Proof.
  induction n as [|n IH]; intros s Hinv Hmeasure.
  - exists 0%nat, s, []. split; [lia|]. split; [reflexivity|]. split; [|exact Hinv].
    pose proof (countCell_nonneg EMPTY (board (App.game s))).
    unfold App.measure in Hmeasure. destruct (App.pending s); [reflexivity|lia..].
  - destruct (decide (App.pending s = App.Idle)) as [Hidle|Hbusy].
    + exists 0%nat, s, []. split; [lia|]. split; [reflexivity|]. split; [exact Hidle|exact Hinv].
    + destruct (timer_progress s Hinv Hbusy) as (s1 & effects1 & Hstep & Hless).
      pose proof (step_invariant s App.Timer s1 effects1 Hinv Hstep) as Hinv1.
      destruct (IH s1 Hinv1) as (k & s2 & effects2 & Hk & Hrun & Hidle & Hinv2); [lia|].
      exists (S k), s2, (effects1 ++ effects2). split; [lia|].
      split; [|split; [exact Hidle|exact Hinv2]].
      cbn [replicate App.run]. rewrite Hstep. cbn [mbind option_bind]. rewrite Hrun. reflexivity.
Qed.

(** The chain started by a click always comes to an end: from any state,
    at most 122 timers bring the application back to rest, where it
    accepts clicks again; if the game is not over then, it is the
    player's turn, Black is to move and has a move. *)
Theorem timers_reach_idle (s : App.OthelloApp) :
  App.invariant s →
  ∃ k s' effects,
    (k ≤ 122)%nat ∧ App.run s (replicate k App.Timer) = Some (s', effects)
    ∧ App.pending s' = App.Idle ∧ App.isProcessing s' = false
    ∧ (gameOver (App.game s') = false →
       App.isPlayerTurn s' = true ∧ currentPlayer (App.game s') = BLACK
       ∧ validMoves (App.game s') ≠ []).
Proof.
  intros Hinv.
  assert (Hmeasure : App.measure s ≤ Z.of_nat 122).
  { pose proof (reachable_empties _ (proj1 Hinv)) as He.
    unfold App.measure. rewrite He. destruct (App.pending s); lia. }
  destruct (timers_to_idle 122 s Hinv Hmeasure) as (k & s' & effects & Hk & Hrun & Hidle & Hinv').
  exists k, s', effects. split; [exact Hk|]. split; [exact Hrun|]. split; [exact Hidle|].
  split; [by apply (invariant_processing s' Hinv')|].
  exact (invariant_idle_turn s' Hinv' Hidle).
Qed.

Lemma timers_reach_idle_witness :
  ∃ k s' effects,
    (k ≤ 122)%nat ∧ App.run appClicked.1 (replicate k App.Timer) = Some (s', effects)
    ∧ App.pending s' = App.Idle ∧ App.isProcessing s' = false
    ∧ (gameOver (App.game s') = false →
       App.isPlayerTurn s' = true ∧ currentPlayer (App.game s') = BLACK
       ∧ validMoves (App.game s') ≠ []).
Proof.
  apply (timers_reach_idle appClicked.1).
  split; [|split; reflexivity].
  apply (reachable_move initialGame 2 3).
  - apply reachable_new. vm_compute. reflexivity.
  - vm_compute. reflexivity.
Defined.

(** The modal of [handleGameOver] is shown only by a timer, when the
    game is over; it shows the score of the final board, and the player
    as the winner exactly when Black has more discs, the computer when
    White has more, a tie otherwise. *)
Theorem game_over_modal_reports_result (s : App.OthelloApp) (e : App.Event)
    (s' : App.OthelloApp) (effects : list App.Effect)
    (winnerText : App.Verdict) (black white : Z) :
  App.invariant s → App.step s e = Some (s', effects) →
  App.GameOverModal winnerText black white ∈ effects →
  e = App.Timer ∧ App.game s' = App.game s ∧ gameOver (App.game s') = true
  ∧ App.pending s' = App.Idle
  ∧ getScore (board (App.game s')) = Some (black, white)
  ∧ winnerText = (if black >? white then App.PlayerWon
                  else if white >? black then App.ComputerWon
                  else App.Tie).
Proof.
  intros Hinv Hstep Hin.
  pose proof (reachable_wfGame _ (proj1 Hinv)) as [Hwf _].
  destruct (step_shape s e s' effects Hinv Hstep)
    as [(_ & -> & _)|[(r0 & c0 & -> & Hm & Hcur & ->)|[(-> & Hg & discs & Hdiscs & ->)
        |(-> & [(Hg & Hover & Hidle & ->)|[(_ & _ & ->)|(m & shown & Hm & Hcur & Hshown & ->)]])]]];
    clear Hstep.
  - by apply elem_of_nil in Hin.
  - apply list_elem_of_singleton in Hin. discriminate Hin.
  - apply elem_of_cons in Hin as [Hin|Hin]; [discriminate Hin|].
    destruct (initial_scan _ _ _ _ Hdiscs Hin) as (r0 & c0 & q & Heq & _). discriminate Heq.
  - apply elem_of_cons in Hin as [Hin|Hin]; [discriminate Hin|].
    apply list_elem_of_singleton in Hin. injection Hin as -> -> ->.
    split; [reflexivity|]. split; [exact Hg|]. rewrite Hg.
    split; [exact Hover|]. split; [exact Hidle|]. split; [exact (getScore_spec _ Hwf)|].
    pose proof (reachable_winner _ (proj1 Hinv)) as Hw. rewrite Hover in Hw.
    destruct Hw as [-> _]. unfold moreDiscs, App.playerColor, App.aiColor.
    destruct (_ >? _); [reflexivity|]. destruct (_ >? _); reflexivity.
  - apply list_elem_of_singleton in Hin. discriminate Hin.
  - apply elem_of_app in Hin as [Hin|Hin]; [|apply list_elem_of_singleton in Hin; discriminate Hin].
    destruct Hshown as [->| ->]; [by apply elem_of_nil in Hin|].
    apply list_elem_of_singleton in Hin. discriminate Hin.
Qed.

Lemma game_over_modal_reports_result_witness :
  App.Timer = App.Timer ∧ App.game appFinishedShown.1 = App.game appFinished
  ∧ gameOver (App.game appFinishedShown.1) = true
  ∧ App.pending appFinishedShown.1 = App.Idle
  ∧ getScore (board (App.game appFinishedShown.1)) = Some (13, 0)
  ∧ App.PlayerWon = (if 13 >? 0 then App.PlayerWon
                     else if 0 >? 13 then App.ComputerWon
                     else App.Tie).
Proof.
  apply (game_over_modal_reports_result appFinished App.Timer appFinishedShown.1
           appFinishedShown.2 App.PlayerWon 13 0).
  - split; [apply (play_reachable finishedGame); vm_compute; reflexivity|].
    split; reflexivity.
  - vm_compute. reflexivity.
  - vm_compute. apply list_elem_of_further, list_elem_of_here.
Defined.

(** ** The renderer follows the board *)

Lemma updateCell_lookup discs r c cell key :
  Renderer.updateCell discs r c cell !! key
  = if decide (key = (r, c))
    then match cell with Disc player => Some player | EMPTY => None end
    else discs !! key.
Proof.
  unfold Renderer.updateCell, Renderer.placeDisc.
  destruct (decide (key = (r, c))) as [->|Hne].
  - destruct cell as [|player]; destruct (discs !! (r, c)) as [shown|] eqn:Hshown.
    + apply lookup_delete_eq.
    + exact Hshown.
    + case_decide as Hcol; [apply lookup_insert_eq|].
      rewrite Hshown. f_equal. by destruct (decide (shown = player)).
    + apply lookup_insert_eq.
  - destruct cell as [|player]; destruct (discs !! (r, c)) as [shown|].
    + by apply lookup_delete_ne.
    + reflexivity.
    + case_decide; [by apply lookup_insert_ne|reflexivity].
    + by apply lookup_insert_ne.
Qed.

Lemma updateLoop_lookup board cells : ∀ discs discs' key,
  Renderer.updateLoop board cells discs = Some discs' →
  discs' !! key = if decide (key ∈ cells) then Renderer.shownOn board key else discs !! key.
Proof.
  induction cells as [|[r c] cells IH]; intros discs discs' key; cbn [Renderer.updateLoop].
  - intros [= <-]. rewrite decide_False; [reflexivity|]. by intros ?%elem_of_nil.
  - destruct (getCell board r c) as [cell|] eqn:Hcell; [|done]. cbn [mbind option_bind].
    intros Hloop. rewrite (IH _ _ key Hloop), updateCell_lookup.
    destruct (decide (key ∈ cells)) as [Hin|Hin].
    + rewrite decide_True; [reflexivity|by apply list_elem_of_further].
    + destruct (decide (key = (r, c))) as [->|Hne].
      * rewrite decide_True by apply list_elem_of_here.
        unfold Renderer.shownOn. cbn [fst snd]. rewrite Hcell. by destruct cell.
      * rewrite decide_False; [reflexivity|].
        intros [?|?]%elem_of_cons; [by apply Hne|by apply Hin].
Qed.

Lemma updateLoop_total board cells : ∀ discs,
  wfBoard board → Forall (λ rc, inBounds rc.1 rc.2 = true) cells →
  is_Some (Renderer.updateLoop board cells discs).
Proof.
  induction cells as [|[r c] cells IH]; intros discs Hwf Hcells; cbn [Renderer.updateLoop].
  - by eexists.
  - apply Forall_cons in Hcells as [Hrc Hcells]. cbn [fst snd] in Hrc.
    destruct (getCell_Some board r c Hwf Hrc) as [cell ->]. cbn [mbind option_bind].
    by apply IH.
Qed.

Lemma allCells_elem key : key ∈ allCells ↔ inBounds key.1 key.2 = true.
Proof.
  destruct key as [r c]. cbn [fst snd]. split.
  - intros Hin. pose proof allCells_inBounds as Hall.
    rewrite Forall_forall in Hall. exact (Hall (r, c) Hin).
  - intros Hin%inBounds_spec. unfold allCells.
    apply list_elem_of_bind. exists r. split; [|apply elem_of_seqZ; lia].
    apply list_elem_of_bind. exists c. split; [apply list_elem_of_singleton; reflexivity|].
    apply elem_of_seqZ. lia.
Qed.

(** Whatever discs the renderer holds, after [updateFromGameState(board)]
    it shows on every cell of the grid exactly what the board has there
    (a disc of the colour of the board, or none), and the keys outside
    the grid are untouched. *)
Theorem updateFromGameState_shows_board (board : Board) (discs : Renderer.Discs) :
  wfBoard board →
  ∃ discs',
    Renderer.updateFromGameState board discs = Some discs'
    ∧ ∀ row col,
        discs' !! (row, col)
        = if inBounds row col then Renderer.shownOn board (row, col) else discs !! (row, col).
Proof.
  intros Hwf.
  destruct (updateLoop_total board allCells discs Hwf) as [discs' Hloop].
  { eapply Forall_impl; [exact allCells_inBounds|]. by intros [r c]. }
  exists discs'. split; [exact Hloop|]. intros r c.
  rewrite (updateLoop_lookup board allCells discs discs' (r, c) Hloop).
  destruct (inBounds r c) eqn:Hin.
  - rewrite decide_True; [reflexivity|]. by apply allCells_elem.
  - rewrite decide_False; [reflexivity|]. intros Hel%allCells_elem. cbn [fst snd] in Hel. congruence.
Qed.

Lemma updateFromGameState_shows_board_witness :
  ∃ discs',
    Renderer.updateFromGameState (board afterOpening) (Renderer.placeDisc ∅ 3 3 WHITE)
    = Some discs'
    ∧ ∀ row col,
        discs' !! (row, col)
        = if inBounds row col then Renderer.shownOn (board afterOpening) (row, col)
          else Renderer.placeDisc ∅ 3 3 WHITE !! (row, col).
Proof.
  apply (updateFromGameState_shows_board (board afterOpening) (Renderer.placeDisc ∅ 3 3 WHITE)).
  apply wfBoardb_spec. vm_compute. reflexivity.
Defined.

(** ** reset() in the store *)

Lemma store_newGame_init h :
  Store.newGame h = '(o, h1) ← StoreInit.init h; Some (Store.alloc h1 (Store.Game o)).
Proof.
  unfold Store.newGame, StoreInit.init.
  destruct (Store.allocBoard h emptyBoard) as [bl h1].
  destruct (Store.writeCell h1 bl 3 3 (Disc WHITE)) as [h2|]; [|reflexivity].
  cbn [mbind option_bind].
  destruct (Store.writeCell h2 bl 3 4 (Disc BLACK)) as [h3|]; [|reflexivity].
  cbn [mbind option_bind].
  destruct (Store.writeCell h3 bl 4 3 (Disc BLACK)) as [h4|]; [|reflexivity].
  cbn [mbind option_bind].
  destruct (Store.writeCell h4 bl 4 4 (Disc WHITE)) as [h5|]; [|reflexivity].
  cbn [mbind option_bind].
  destruct (Store.alloc h5 (Store.History [])) as [hist h6].
  destruct (Store.readBoard h6 bl) as [b|]; [|reflexivity]. cbn [mbind option_bind].
  destruct (findValidMoves b BLACK) as [moves|]; reflexivity.
Qed.

(** What [init()] builds, read off what is known of [new OthelloGame()]. *)
Lemma store_init (h : Store.Heap) :
  ∃ o h1 rows,
    StoreInit.init h = Some (o, h1)
    ∧ h ⊆ h1
    ∧ o = Store.mkObj (Store.o_board o) BLACK false None None [] (validMoves initialGame)
                      (Store.o_moveHistory o)
    ∧ Store.getRows h1 (Store.o_board o) = Some rows ∧ NoDup rows
    ∧ mapM (Store.getRow h1) rows = Some (board initialGame)
    ∧ Store.getHistory h1 (Store.o_moveHistory o) = Some []
    ∧ h !! Store.o_board o = None ∧ h !! Store.o_moveHistory o = None
    ∧ (∀ l, l ∈ rows → h !! l = None).
Proof.
  destruct (store_newGame h) as (copy & hN & Hnew & Hsub & Hview & Hfresh & Hsep).
  rewrite store_newGame_init in Hnew.
  destruct (StoreInit.init h) as [[o h1]|] eqn:Hinit; [|done]. cbn [mbind option_bind] in Hnew.
  destruct (Store.alloc h1 (Store.Game o)) as [copy' hN'] eqn:Halloc.
  injection Hnew as -> ->.
  apply store_alloc in Halloc as [Hcopy ->].
  destruct (store_view_inv _ _ _ Hview) as (o' & rows & Hg & Hrows & Hb & Hhist & Hs).
  assert (o' = o) as ->.
  { unfold Store.getGame in Hg. rewrite lookup_insert_eq in Hg. congruence. }
  assert (Hkeep : ∀ l x, <[copy := Store.Game o]> h1 !! l = Some x →
                         (∀ o'', x ≠ Store.Game o'') → h1 !! l = Some x).
  { intros l x Hl Hkind. destruct (decide (l = copy)) as [->|Hne].
    - rewrite lookup_insert_eq in Hl. injection Hl as <-. by destruct (Hkind o).
    - by rewrite lookup_insert_ne in Hl. }
  assert (Hrows1 : Store.getRows h1 (Store.o_board o) = Some rows).
  { apply store_getRows_Some. apply Hkeep; [by apply store_getRows_Some|intros ? [=]]. }
  assert (Hhist1 : Store.getHistory h1 (Store.o_moveHistory o) = Some []).
  { apply store_getHistory_Some. apply Hkeep; [|intros ? [=]]. apply store_getHistory_Some.
    rewrite Hhist. reflexivity. }
  assert (Hb1 : mapM (Store.getRow h1) rows = Some (board initialGame)).
  { apply mapM_Some_1 in Hb. apply store_getRow_mapM.
    eapply Forall2_impl; [exact Hb|]. intros l cells Hl.
    apply Hkeep; [by apply store_getRow_Some|intros ? [=]]. }
  assert (Hst : ∀ l, (l = Store.o_board o ∨ l = Store.o_moveHistory o ∨ l ∈ rows) →
                     h !! l = None).
  { intros l Hl. apply Hfresh. apply (store_storage_elem _ _ o rows); [exact Hg|exact Hrows|].
    right. exact Hl. }
  assert (Hcopy0 : h !! copy = None).
  { apply Hfresh. apply (store_storage_elem _ _ o rows); [exact Hg|exact Hrows|]. by left. }
  exists o, h1, rows. split; [reflexivity|]. split.
  { apply map_subseteq_spec. intros l x Hl.
    assert (Hne : l ≠ copy) by (intros ->; congruence).
    rewrite <- (lookup_insert_ne h1 copy l (Store.Game o)) by done.
    eapply lookup_weaken; [exact Hl|exact Hsub]. }
  split.
  { destruct o as [bl cur over win last fl vm hist]. cbn in Hs. cbn.
    injection Hs as <- <- <- <- <- <-. reflexivity. }
  split; [exact Hrows1|]. split.
  { destruct Hsep as (o'' & rows'' & Hg'' & Hrows'' & Hnd). rewrite Hg in Hg''.
    injection Hg'' as <-. rewrite Hrows in Hrows''. by injection Hrows'' as <-. }
  split; [exact Hb1|]. split; [exact Hhist1|].
  split; [apply Hst; by left|]. split; [apply Hst; right; by left|].
  intros l Hl. apply Hst. right. by right.
Qed.

Lemma store_insert_game_rows (h : Store.Heap) this o rows b :
  is_Some (Store.getGame h this) →
  mapM (Store.getRow h) rows = Some b →
  mapM (Store.getRow (<[this := Store.Game o]> h)) rows = Some b.
Proof.
  intros [o0 Ho0] Hb. eapply store_rows_agree; [|exact Hb].
  intros l Hl. apply lookup_insert_ne. intros <-.
  apply mapM_Some_1 in Hb.
  apply list_elem_of_lookup in Hl as [i Hi].
  destruct (Forall2_lookup_l _ _ _ _ _ Hb Hi) as (cells & _ & Hcells).
  apply store_getRow_Some in Hcells. apply store_getGame_Some in Ho0. congruence.
Qed.

(** [reset()] gives the object a board and a history made of new arrays:
    the object then reads as a new game, its rows are distinct arrays,
    and nothing of the store but the object itself is written, so that
    the arrays of the old board and of the old history, still held by
    whoever got them from the object, keep the position and the moves of
    the game that was reset. *)
Theorem store_reset_fresh_board (h : Store.Heap) (this : Store.loc) (s : OthelloGame) :
  Store.view h this = Some s →
  ∃ h',
    StoreInit.reset this h = Some h'
    ∧ Store.view h' this = Some initialGame
    ∧ Store.separate h' this
    ∧ (∀ l, l ≠ this → is_Some (h !! l) → h' !! l = h !! l)
    ∧ (∀ l, l ∈ Store.storage h' this → l = this ∨ h !! l = None)
    ∧ (∀ o, Store.getGame h this = Some o →
            Store.readBoard h' (Store.o_board o) = Some (board s)
            ∧ Store.getHistory h' (Store.o_moveHistory o) = Some (moveHistory s)).
Proof.
  intros Hview.
  destruct (store_view_inv _ _ _ Hview) as (o0 & rows0 & Hg0 & Hrows0 & Hb0 & Hhist0 & _).
  destruct (store_init h)
    as (o & h1 & rows & Hinit & Hsub & Ho & Hrows & Hnd & Hb & Hhist & Hfb & Hfh & Hfr).
  assert (Hthis : h !! this = Some (Store.Game o0)) by (by apply store_getGame_Some).
  assert (Hthis1 : Store.getGame h1 this = Some o0).
  { apply store_getGame_Some. eapply lookup_weaken; [exact Hthis|exact Hsub]. }
  set (h' := <[this := Store.Game o]> h1).
  assert (Hframe : ∀ l, l ≠ this → is_Some (h !! l) → h' !! l = h !! l).
  { intros l Hne [x Hx]. unfold h'. rewrite lookup_insert_ne by done.
    rewrite Hx. eapply lookup_weaken; [exact Hx|exact Hsub]. }
  assert (Hg' : Store.getGame h' this = Some o).
  { apply store_getGame_Some. apply lookup_insert_eq. }
  assert (Hrows' : Store.getRows h' (Store.o_board o) = Some rows).
  { apply store_getRows_Some. unfold h'. rewrite lookup_insert_ne by congruence.
    by apply store_getRows_Some. }
  assert (Hb' : mapM (Store.getRow h') rows = Some (board initialGame)).
  { apply store_insert_game_rows; [by eexists|exact Hb]. }
  assert (Hhist' : Store.getHistory h' (Store.o_moveHistory o) = Some []).
  { apply store_getHistory_Some. unfold h'. rewrite lookup_insert_ne by congruence.
    by apply store_getHistory_Some. }
  exists h'. split.
  { unfold StoreInit.reset. rewrite Hg0. cbn [mbind option_bind]. rewrite Hinit. reflexivity. }
  split.
  { rewrite (store_view_intro h' this o rows _ _ Hg' Hrows' Hb' Hhist').
    rewrite Ho. reflexivity. }
  split; [by exists o, rows|]. split; [exact Hframe|]. split.
  { intros l Hl. apply (store_storage_elem h' this o rows l Hg' Hrows') in Hl.
    destruct Hl as [->|[->|[->|Hl]]]; [by left|right..]; [exact Hfb|exact Hfh|by apply Hfr]. }
  intros o1 Hg1. rewrite Hg0 in Hg1. injection Hg1 as <-. split.
  - unfold Store.readBoard.
    assert (Hr : Store.getRows h' (Store.o_board o0) = Some rows0).
    { apply store_getRows_Some. rewrite Hframe.
      - by apply store_getRows_Some.
      - apply store_getRows_Some in Hrows0. congruence.
      - apply store_getRows_Some in Hrows0. by eexists. }
    rewrite Hr. cbn [mbind option_bind].
    apply store_insert_game_rows; [by eexists|].
    eapply store_rows_weaken; [exact Hsub|exact Hb0].
  - apply store_getHistory_Some. apply store_getHistory_Some in Hhist0. rewrite Hframe.
    + exact Hhist0.
    + congruence.
    + by eexists.
Qed.

Lemma store_reset_fresh_board_witness :
  ∃ h',
    StoreInit.reset storeNew.1 storeSourceMoved = Some h'
    ∧ Store.view h' storeNew.1 = Some initialGame
    ∧ Store.separate h' storeNew.1
    ∧ (∀ l, l ≠ storeNew.1 → is_Some (storeSourceMoved !! l) → h' !! l = storeSourceMoved !! l)
    ∧ (∀ l, l ∈ Store.storage h' storeNew.1 → l = storeNew.1 ∨ storeSourceMoved !! l = None)
    ∧ (∀ o, Store.getGame storeSourceMoved storeNew.1 = Some o →
            Store.readBoard h' (Store.o_board o) = Some (board afterOpening)
            ∧ Store.getHistory h' (Store.o_moveHistory o) = Some (moveHistory afterOpening)).
Proof.
  apply (store_reset_fresh_board storeSourceMoved storeNew.1 afterOpening).
  vm_compute. reflexivity.
Defined.

(** ** The step of the search, in the store *)

(** [const gameCopy = game.clone(); gameCopy.makeMove(move.row, move.col)],
    the step every loop of the search starts with: in the store it
    leaves at [gameCopy] the object that [applyOnCopy] computes on
    values, with rows that are distinct arrays, and it changes nothing
    that was in the store before; the game searched reads as before. *)
Theorem store_applyOnCopy_agrees (h : Store.Heap) (src : Store.loc) (s : OthelloGame)
    (m : Move) (s' : OthelloGame) :
  Store.view h src = Some s → applyOnCopy s m = Some s' →
  ∃ cp h1 ok h2,
    Store.clone src h = Some (cp, h1)
    ∧ Store.makeMove cp (row m) (col m) h1 = Some (ok, h2)
    ∧ Store.view h2 cp = Some s'
    ∧ Store.separate h2 cp
    ∧ Store.view h2 src = Some s
    ∧ (∀ l, is_Some (h !! l) → h2 !! l = h !! l).
Proof.
  intros Hview Happly.
  destruct (store_clone h src s Hview)
    as (cp & h1 & c & Hclone & Hc & Hvc & Hvs & Hst & Hfresh & Hsep & Hsub).
  unfold applyOnCopy in Happly. rewrite Hc in Happly. cbn [mbind option_bind] in Happly.
  destruct (makeMove c (row m) (col m)) as [[ok g']|] eqn:Hm; [|discriminate Happly].
  cbn [mbind option_bind] in Happly. injection Happly as ->.
  destruct (store_makeMove_sim h1 cp c (row m) (col m) ok s' Hvc Hsep Hm)
    as (h2 & Hmove & Hv2 & Hsep2).
  destruct (store_makeMove_frame _ _ _ _ _ _ Hmove) as [Hout _].
  assert (Hold : ∀ l, is_Some (h !! l) → h2 !! l = h !! l).
  { intros l [x Hx]. rewrite Hout.
    - rewrite Hx. eapply lookup_weaken; [exact Hx|exact Hsub].
    - intros Hl. apply Hfresh in Hl. congruence. }
  exists cp, h1, ok, h2. split; [exact Hclone|]. split; [exact Hmove|].
  split; [exact Hv2|]. split; [exact Hsep2|]. split; [|exact Hold].
  destruct (store_view_agree h1 h2 src s Hvs) as [Hvs2 _]; [|exact Hvs2].
  intros l Hl. apply Hout. intros Hl'. apply Hfresh in Hl'.
  rewrite Hst in Hl. destruct (store_storage_allocated h src s l Hview Hl) as [x Hx]. congruence.
Qed.

Lemma store_applyOnCopy_agrees_witness :
  ∃ cp h1 ok h2,
    Store.clone storeNew.1 storeNew.2 = Some (cp, h1)
    ∧ Store.makeMove cp (row (mkMove 2 3)) (col (mkMove 2 3)) h1 = Some (ok, h2)
    ∧ Store.view h2 cp = Some afterOpening
    ∧ Store.separate h2 cp
    ∧ Store.view h2 storeNew.1 = Some initialGame
    ∧ (∀ l, is_Some (storeNew.2 !! l) → h2 !! l = storeNew.2 !! l).
Proof.
  apply (store_applyOnCopy_agrees storeNew.2 storeNew.1 initialGame (mkMove 2 3) afterOpening).
  - vm_compute. reflexivity.
  - vm_compute. reflexivity.
Defined.
